(** * Gastos compartidos: the Cloud Functions of [functions/src/index.ts]

    A shallow embedding of the server-side handlers (event close, join by
    invitation token, attachment validation, event creation) and of the
    helpers they call, and of the client call that closes an event,
    followed by the properties of the balance ledger and of the event
    life cycle.

    Conventions of the embedding:
    - a Firestore collection is a [gmap] from document id to record;
    - a JS [number] holding money or a fraction is an exact rational
      ([Qc]) in the ledger of the world; the code computes on IEEE 754
      binary64 values, so what is stated of a saldo follows the additions
      and subtractions of the code one by one, in their order, and module
      [Doble] runs the same adjustments on binary64 values;
    - an identity of a user is a Firebase Authentication uid;
    - a Firestore [Timestamp] and a JS [Date] are both the number of
      milliseconds since the epoch ([Z]); calendar fields are read in UTC;
    - strings are compared code unit by code unit ([String.compare]), as
      the default comparator of [Array.prototype.sort] does;
    - every [await] on a platform service (Firestore, Storage, Messaging)
      may reject: the world carries the schedule of those rejections;
    - handlers run one at a time, and the clock does not move during a run;
    - [Math.random] and the ids that [add()] picks are read from the world. *)

From Stdlib Require Import ZArith QArith Qcanon Lia Ascii.
From Stdlib Require PrimFloat.
From stdpp Require Import base numbers strings list gmap fin_maps.

Local Open Scope Z_scope.
Local Open Scope string_scope.

(** ** Data model (the interfaces at the top of [index.ts]) *)

Definition Timestamp := Z.

Inductive Moneda := ARS | USD.
Inductive Repeticion := unico | mensual.
Inductive Estado := abierto | cerrado.

Definition moneda_str (m : Moneda) : string :=
  match m with ARS => "ARS" | USD => "USD" end.

Global Instance Moneda_eq_dec : EqDecision Moneda.
Proof. solve_decision. Defined.
Global Instance Repeticion_eq_dec : EqDecision Repeticion.
Proof. solve_decision. Defined.
Global Instance Estado_eq_dec : EqDecision Estado.
Proof. solve_decision. Defined.

Record Participante := mkParticipante {
  uid : string;
  alias : string;
  participacion : Qc
}.

Record Adjunto := mkAdjunto {
  path : string;
  tipo : string;
  bytes : Z;
  subido_por : string;
  subido_en : Timestamp
}.

Module Ev.
Record t := mk {
  id : string;
  titulo : string;
  moneda : Moneda;
  monto : Qc;
  repeticion : Repeticion;
  estado : Estado;
  forma_pago : string;
  vence_el : option Timestamp;
  creado_por : string;
  creado_en : Timestamp;
  quien_pago : option string;
  fecha_pago : option Timestamp;
  participantes : list Participante;
  token_invitacion : string;
  adjuntos : list Adjunto
}.
End Ev.
Abbreviation Evento := Ev.t.

Module Bal.
Record t := mk {
  key : string;
  entre : string * string;
  moneda : string;
  saldo : Qc;
  actualizado_en : Timestamp
}.
End Bal.
Abbreviation Balance := Bal.t.

Module Inv.
Record t := mk {
  evento_id : string;
  token : string;
  creado_por : string;
  creado_en : Timestamp;
  expira_en : option Timestamp;
  usos : Z;
  max_usos : Z
}.
End Inv.
Abbreviation Invitacion := Inv.t.

(** The fields of a [usuarios] document that [joinByToken] reads. *)
Record Usuario := mkUsuario {
  displayName : option string;
  email : option string
}.

(** What the payload of an audit entry holds in the two places that write
    one. *)
Inductive Payload :=
  | PayloadInvitar (token alias : string)
  | PayloadAdjunto (filePath : string) (fileSize : Z) (contentType motivo : string).

Module Aud.
Record t := mk {
  tipo : string;
  evento_id : string;
  actor : string;
  en : Timestamp;
  payload : Payload
}.
End Aud.
Abbreviation Auditoria := Aud.t.

(** A document of the [fcm_tokens] collection. *)
Record FcmToken := mkFcmToken {
  userId : string;
  active : bool;
  fcm_token : string
}.

(** The two message templates, with the values that fill their holes. *)
Inductive Cuerpo :=
  | CuerpoCierre (titulo : string) (deuda : Qc) (moneda : string)
  | CuerpoNuevoParticipante (alias titulo : string).

(** The argument of [enviarNotificacionPush], and a message handed to
    [messaging.send]. *)
Record Notificacion := mkNotificacion {
  n_titulo : string;
  n_cuerpo : Cuerpo;
  n_tipo : string;
  n_evento_id : string
}.

Record Mensaje := mkMensaje {
  m_token : string;
  m_notificacion : Notificacion
}.

(** ** The world the handlers run in *)

Record Mundo := mkMundo {
  eventos : gmap string Evento;
  balances : gmap string Balance;
  invitaciones : gmap string Invitacion;
  usuarios : gmap string Usuario;
  auditorias : list Auditoria;
  fcm_tokens : list FcmToken;
  archivos : gset string;          (* object names in the bucket *)
  enviados : list Mensaje;         (* accepted by messaging.send *)
  reloj : Z;                       (* Date.now() *)
  azar : nat -> nat;               (* successive Math.random() draws *)
  sorteos : nat;                   (* draws consumed so far *)
  autoids : nat -> string;         (* ids the store proposes for add() *)
  generados : nat;                 (* auto ids consumed so far *)
  fallos : list bool               (* true: the next platform call rejects *)
}.

Definition con_eventos (f : gmap string Evento -> gmap string Evento) (w : Mundo) : Mundo :=
  mkMundo (f (eventos w)) (balances w) (invitaciones w) (usuarios w) (auditorias w)
    (fcm_tokens w) (archivos w) (enviados w) (reloj w) (azar w) (sorteos w)
    (autoids w) (generados w) (fallos w).

Definition con_balances (f : gmap string Balance -> gmap string Balance) (w : Mundo) : Mundo :=
  mkMundo (eventos w) (f (balances w)) (invitaciones w) (usuarios w) (auditorias w)
    (fcm_tokens w) (archivos w) (enviados w) (reloj w) (azar w) (sorteos w)
    (autoids w) (generados w) (fallos w).

Definition con_invitaciones (f : gmap string Invitacion -> gmap string Invitacion)
    (w : Mundo) : Mundo :=
  mkMundo (eventos w) (balances w) (f (invitaciones w)) (usuarios w) (auditorias w)
    (fcm_tokens w) (archivos w) (enviados w) (reloj w) (azar w) (sorteos w)
    (autoids w) (generados w) (fallos w).

Definition con_auditorias (f : list Auditoria -> list Auditoria) (w : Mundo) : Mundo :=
  mkMundo (eventos w) (balances w) (invitaciones w) (usuarios w) (f (auditorias w))
    (fcm_tokens w) (archivos w) (enviados w) (reloj w) (azar w) (sorteos w)
    (autoids w) (generados w) (fallos w).

Definition con_archivos (f : gset string -> gset string) (w : Mundo) : Mundo :=
  mkMundo (eventos w) (balances w) (invitaciones w) (usuarios w) (auditorias w)
    (fcm_tokens w) (f (archivos w)) (enviados w) (reloj w) (azar w) (sorteos w)
    (autoids w) (generados w) (fallos w).

Definition con_enviados (f : list Mensaje -> list Mensaje) (w : Mundo) : Mundo :=
  mkMundo (eventos w) (balances w) (invitaciones w) (usuarios w) (auditorias w)
    (fcm_tokens w) (archivos w) (f (enviados w)) (reloj w) (azar w) (sorteos w)
    (autoids w) (generados w) (fallos w).

Definition con_sorteos (n : nat) (w : Mundo) : Mundo :=
  mkMundo (eventos w) (balances w) (invitaciones w) (usuarios w) (auditorias w)
    (fcm_tokens w) (archivos w) (enviados w) (reloj w) (azar w) n
    (autoids w) (generados w) (fallos w).

Definition con_generados (n : nat) (w : Mundo) : Mundo :=
  mkMundo (eventos w) (balances w) (invitaciones w) (usuarios w) (auditorias w)
    (fcm_tokens w) (archivos w) (enviados w) (reloj w) (azar w) (sorteos w)
    (autoids w) n (fallos w).

Definition con_fallos (l : list bool) (w : Mundo) : Mundo :=
  mkMundo (eventos w) (balances w) (invitaciones w) (usuarios w) (auditorias w)
    (fcm_tokens w) (archivos w) (enviados w) (reloj w) (azar w) (sorteos w)
    (autoids w) (generados w) l.

(** ** Errors and the handler monad *)

Inductive Codigo :=
  | unauthenticated | invalid_argument | not_found | deadline_exceeded
  | resource_exhausted | failed_precondition | already_exists | internal.

(** [Error] is a plain [new Error(msg)], [HttpsError] is
    [functions.https.HttpsError], and [Rechazo] is the rejection of a
    platform call. *)
Inductive error :=
  | Error (msg : string)
  | HttpsError (code : Codigo) (msg : string)
  | Rechazo.

Inductive resultado (A : Type) :=
  | Ok (a : A)
  | Err (e : error).
Arguments Ok {A} a.
Arguments Err {A} e.

Definition M (A : Type) : Type := Mundo -> resultado A * Mundo.

Definition ret {A} (a : A) : M A := fun w => (Ok a, w).

Definition bind {A B} (m : M A) (k : A -> M B) : M B :=
  fun w => match m w with
           | (Ok a, w') => k a w'
           | (Err e, w') => (Err e, w')
           end.

Definition lanzar {A} (e : error) : M A := fun w => (Err e, w).

(** [try { m } catch (error) { h error }] *)
Definition intentar {A} (m : M A) (h : error -> M A) : M A :=
  fun w => match m w with
           | (Ok a, w') => (Ok a, w')
           | (Err e, w') => h e w'
           end.

Definition leer {A} (f : Mundo -> A) : M A := fun w => (Ok (f w), w).
Definition modificar (f : Mundo -> Mundo) : M unit := fun w => (Ok tt, f w).

Declare Scope m_scope.
Delimit Scope m_scope with m.
Notation "x <- c1 ;; c2" := (bind c1 (fun x => c2))
  (at level 100, c1 at next level, right associativity) : m_scope.
Notation "c1 ;; c2" := (bind c1 (fun _ => c2))
  (at level 100, right associativity) : m_scope.
Local Open Scope m_scope.

(** One round trip to a platform service: it succeeds unless the schedule
    says otherwise. *)
Definition llamada : M unit :=
  fun w => match fallos w with
           | [] => (Ok tt, w)
           | false :: l => (Ok tt, con_fallos l w)
           | true :: l => (Err Rechazo, con_fallos l w)
           end.

(** [admin.firestore.Timestamp.now()] and [Date.now()] *)
Definition now : M Timestamp := leer reloj.

(** [Math.floor(Math.random() * n)] *)
Definition random_floor (n : nat) : M nat :=
  fun w => (Ok (azar w (sorteos w) `mod` n)%nat, con_sorteos (S (sorteos w)) w).

(** The id the store proposes for a new document. *)
Definition auto_id : M string :=
  fun w => (Ok (autoids w (generados w)), con_generados (S (generados w)) w).

(** ** Firestore documents *)

(** An object literal handed to the store: the record that its defined
    properties make up, and the names of the properties that the literal
    writes with the value [undefined]. *)
Record Literal (A : Type) := mkLiteral {
  datos : A;
  indefinidas : list string
}.
Arguments mkLiteral {A} datos indefinidas.
Arguments datos {A} l.
Arguments indefinidas {A} l.

(** What [add()] throws for a property whose value is [undefined]. The
    store is [admin.firestore()] with its default settings,
    [ignoreUndefinedProperties] is set nowhere. The text is the core of the
    message of the library, which also names the argument and the
    property. *)
Definition error_indefinido : error :=
  Error "Cannot use undefined as a Firestore value".

Section Coleccion.
Context {A : Type}.
Variable col : Mundo -> gmap string A.
Variable con_col : (gmap string A -> gmap string A) -> Mundo -> Mundo.

(** [ref.get()]: [None] stands for a snapshot whose [exists] is false. *)
Definition doc_get (k : string) : M (option A) :=
  llamada ;; leer (fun w => col w !! k).

(** [ref.set(data)] *)
Definition doc_set (k : string) (a : A) : M unit :=
  llamada ;; modificar (con_col (insert k a)).

(** [ref.update(fields)]: rejects when the document does not exist. *)
Definition doc_update (k : string) (f : A -> A) : M unit :=
  llamada ;;
  d <- leer (fun w => col w !! k) ;;
  match d with
  | Some a => modificar (con_col (insert k (f a)))
  | None => lanzar Rechazo
  end.

(** [collection.add(data)]: the store proposes an id and creates the
    document there; it rejects when that id is taken. Returns the id. *)
Definition doc_add (a : A) : M string :=
  llamada ;;
  k <- auto_id ;;
  d <- leer (fun w => col w !! k) ;;
  match d with
  | Some _ => lanzar Rechazo
  | None => modificar (con_col (insert k a)) ;; ret k
  end.

(** [collection.add(data)] on a literal: the data is validated before an id
    is picked or anything is sent, and a property that is [undefined] makes
    the call throw there. *)
Definition doc_add_literal (d : Literal A) : M string :=
  match indefinidas d with
  | [] => doc_add (datos d)
  | _ :: _ => lanzar error_indefinido
  end.
End Coleccion.

(** ** Balance engine *)

(** [[a, b].sort()] on two strings. *)
Definition sort2 (a b : string) : string * string :=
  if String.ltb b a then (b, a) else (a, b).

(** The document id of the balance between two users in one currency:
    [`${uidA}_${uidB}_${moneda}`] over the sorted pair. *)
Definition balance_key (deudor acreedor moneda : string) : string :=
  let '(uidA, uidB) := sort2 deudor acreedor in
  uidA ++ "_" ++ uidB ++ "_" ++ moneda.

(** The two adjustments of a saldo in [actualizarBalance], over the numbers
    [N] of the ledger with their negation, subtraction and addition:
    [nuevoSaldo -= deuda] or [nuevoSaldo += deuda] on a stored saldo, and
    [-deuda] or [deuda] for a new document. *)
Section Saldo.
Context {N : Type} (opuesto : N -> N) (resta suma : N -> N -> N).

Definition nuevoSaldo (uidA deudor : string) (saldo deuda : N) : N :=
  if String.eqb uidA deudor then resta saldo deuda else suma saldo deuda.

Definition saldoInicial (uidA deudor : string) (deuda : N) : N :=
  if String.eqb uidA deudor then opuesto deuda else deuda.
End Saldo.

Definition actualizarBalance (deudor acreedor moneda : string) (deuda : Qc) : M unit :=
  intentar
    (let '(uidA, uidB) := sort2 deudor acreedor in
     let key := uidA ++ "_" ++ uidB ++ "_" ++ moneda in
     balanceDoc <- doc_get balances key ;;
     match balanceDoc with
     | Some balance =>
         let saldo := nuevoSaldo Qcminus Qcplus uidA deudor (Bal.saldo balance) deuda in
         ahora <- now ;;
         doc_update balances con_balances key
           (fun b => Bal.mk (Bal.key b) (Bal.entre b) (Bal.moneda b) saldo ahora)
     | None =>
         let saldo := saldoInicial Qcopp uidA deudor deuda in
         ahora <- now ;;
         doc_set con_balances key (Bal.mk key (uidA, uidB) moneda saldo ahora)
     end)
    (fun error => lanzar error).

(** The same adjustments on the numbers of the code: a JS [number] is an
    IEEE 754 binary64 value, and [-], [+] and [*] round to nearest. *)
Module Doble.
Import PrimFloat.
Set Warnings "-inexact-float".

Definition numero : Type := float.

Definition abonar (uidA deudor : string) (saldo deuda : numero) : numero :=
  nuevoSaldo sub add uidA deudor saldo deuda.



End Doble.

(** [a || b] on a possibly missing string: the empty string is falsy. *)
Definition o_bien (a : option string) (b : string) : string :=
  match a with
  | Some s => if String.eqb s "" then b else s
  | None => b
  end.

(** The body of the [for ... of] loop of [calcularBalances]. *)
Fixpoint bucle_balances (evento : Evento) (quienPago : string)
    (participantes : list Participante) : M unit :=
  match participantes with
  | [] => ret tt
  | participante :: resto =>
      if String.eqb (uid participante) quienPago
      then bucle_balances evento quienPago resto
      else
        let deuda := (Ev.monto evento * participacion participante)%Qc in
        actualizarBalance (uid participante) quienPago
          (moneda_str (Ev.moneda evento)) deuda ;;
        bucle_balances evento quienPago resto
  end.

Definition calcularBalances (evento : Evento) : M unit :=
  intentar
    (let quienPago := o_bien (Ev.quien_pago evento) (Ev.creado_por evento) in
     let participantes := Ev.participantes evento in
     bucle_balances evento quienPago participantes)
    (fun error => lanzar error).

(** ** Recurring events

    The JS [Date] operations used by [crearEventoRecurrente], after the
    ECMAScript definitions (time values in UTC). *)

Definition msPerDay : Z := 86400000.

Definition Day (t : Z) : Z := t / msPerDay.
Definition TimeWithinDay (t : Z) : Z := t mod msPerDay.

Definition InLeapYear_of (y : Z) : bool :=
  ((y mod 4 =? 0) && (negb (y mod 100 =? 0) || (y mod 400 =? 0)))%Z.

Definition DaysInYear (y : Z) : Z := if InLeapYear_of y then 366 else 365.

Definition DayFromYear (y : Z) : Z :=
  365 * (y - 1970) + (y - 1969) / 4 - (y - 1901) / 100 + (y - 1601) / 400.

(** The year a day number falls in, through the 400-year cycle that starts
    on 1 January 1601. *)
Definition YearFromDay (d : Z) : Z :=
  let n := d + 134774 in
  let q400 := n / 146097 in
  let r400 := n mod 146097 in
  let c := Z.min (r400 / 36524) 3 in
  let r100 := r400 - c * 36524 in
  let q4 := r100 / 1461 in
  let r4 := r100 mod 1461 in
  let a := Z.min (r4 / 365) 3 in
  1601 + 400 * q400 + 100 * c + 4 * q4 + a.

Definition YearFromTime (t : Z) : Z := YearFromDay (Day t).
Definition InLeapYear (t : Z) : bool := InLeapYear_of (YearFromTime t).
Definition DayWithinYear (t : Z) : Z := Day t - DayFromYear (YearFromTime t).

(** Days of the year before month [m] (0 = January). *)
Definition dias_antes_de (bisiesto : bool) (m : Z) : Z :=
  let b := if bisiesto then 1 else 0 in
  if (m <=? 0)%Z then 0
  else if (m =? 1)%Z then 31
  else if (m =? 2)%Z then 59 + b
  else if (m =? 3)%Z then 90 + b
  else if (m =? 4)%Z then 120 + b
  else if (m =? 5)%Z then 151 + b
  else if (m =? 6)%Z then 181 + b
  else if (m =? 7)%Z then 212 + b
  else if (m =? 8)%Z then 243 + b
  else if (m =? 9)%Z then 273 + b
  else if (m =? 10)%Z then 304 + b
  else if (m =? 11)%Z then 334 + b
  else 365 + b.

Definition mes_de_dia (bisiesto : bool) (d : Z) : Z :=
  if (d <? dias_antes_de bisiesto 1)%Z then 0
  else if (d <? dias_antes_de bisiesto 2)%Z then 1
  else if (d <? dias_antes_de bisiesto 3)%Z then 2
  else if (d <? dias_antes_de bisiesto 4)%Z then 3
  else if (d <? dias_antes_de bisiesto 5)%Z then 4
  else if (d <? dias_antes_de bisiesto 6)%Z then 5
  else if (d <? dias_antes_de bisiesto 7)%Z then 6
  else if (d <? dias_antes_de bisiesto 8)%Z then 7
  else if (d <? dias_antes_de bisiesto 9)%Z then 8
  else if (d <? dias_antes_de bisiesto 10)%Z then 9
  else if (d <? dias_antes_de bisiesto 11)%Z then 10
  else 11.

Definition MonthFromTime (t : Z) : Z := mes_de_dia (InLeapYear t) (DayWithinYear t).

Definition DateFromTime (t : Z) : Z :=
  DayWithinYear t - dias_antes_de (InLeapYear t) (MonthFromTime t) + 1.

Definition MakeDay (year month date : Z) : Z :=
  let ym := year + month / 12 in
  let mn := month mod 12 in
  DayFromYear ym + dias_antes_de (InLeapYear_of ym) mn + date - 1.

Definition MakeDate (day time : Z) : Z := day * msPerDay + time.

Definition getMonth (t : Z) : Z := MonthFromTime t.

(** [d.setMonth(month)]: the day of the month is kept and the result is
    normalised by [MakeDay]. *)
Definition setMonth (t month : Z) : Z :=
  MakeDate (MakeDay (YearFromTime t) month (DateFromTime t)) (TimeWithinDay t).

Definition DaysInMonth (y m : Z) : Z :=
  dias_antes_de (InLeapYear_of y) (m + 1) - dias_antes_de (InLeapYear_of y) m.

Definition meses : list string :=
  [ "enero"; "febrero"; "marzo"; "abril"; "mayo"; "junio";
    "julio"; "agosto"; "septiembre"; "octubre"; "noviembre"; "diciembre" ].

(** [titulo.replace(new RegExp(patron, 'i'), nuevo)] for a pattern made of
    letters: the first match, compared without case, is replaced. *)
Definition minuscula (c : ascii) : ascii :=
  let n := N_of_ascii c in
  if ((65 <=? n) && (n <=? 90))%N then ascii_of_N (n + 32) else c.

Fixpoint prefijo_ci (patron s : string) : option string :=
  match patron, s with
  | EmptyString, _ => Some s
  | String _ _, EmptyString => None
  | String a patron', String b s' =>
      if Ascii.eqb (minuscula a) (minuscula b) then prefijo_ci patron' s' else None
  end.

Fixpoint replace_i (patron nuevo s : string) : string :=
  match prefijo_ci patron s with
  | Some resto => nuevo ++ resto
  | None =>
      match s with
      | EmptyString => EmptyString
      | String c s' => String c (replace_i patron nuevo s')
      end
  end.

(** [generarTokenInvitacion(length = 16)]. The file declares the function
    twice; the later declaration, with the length parameter, is the one in
    effect, and every caller relies on the default. *)
Definition chars : string :=
  "ABCDEFGHIJKLMNOPQRSTUVWXYZabcdefghijklmnopqrstuvwxyz0123456789".

Definition charAt (s : string) (i : nat) : string :=
  match String.get i s with
  | Some c => String c EmptyString
  | None => EmptyString
  end.

Fixpoint bucle_token (n : nat) (token : string) : M string :=
  match n with
  | O => ret token
  | S n' =>
      i <- random_floor (String.length chars) ;;
      bucle_token n' (token ++ charAt chars i)
  end.

Definition generarTokenInvitacion (length : nat) : M string :=
  bucle_token length "".

Definition longitud_por_defecto : nat := 16.

Definition crearInvitacion (eventoId creadorUid : string) : M unit :=
  intentar
    (token <- generarTokenInvitacion longitud_por_defecto ;;
     creado_en <- now ;;
     ahora <- now ;;
     doc_add invitaciones con_invitaciones
       (Inv.mk eventoId token creadorUid creado_en
          (Some (ahora + 30 * 24 * 60 * 60 * 1000)) 0 50) ;;
     ret tt)
    (fun error => lanzar error).

(** The literal [nuevoEvento] spreads the original and then writes, among
    others, [quien_pago: undefined] and [fecha_pago: undefined]; it is what
    [add()] receives. *)
Definition crearEventoRecurrente (eventoOriginal : Evento) : M unit :=
  intentar
    (let fechaActual := Ev.creado_en eventoOriginal in
     let proximoMes := setMonth fechaActual (getMonth fechaActual + 1) in
     let mesActual := nth (Z.to_nat (getMonth fechaActual)) meses "" in
     let mesProximo := nth (Z.to_nat (getMonth proximoMes)) meses "" in
     let tituloRecurrente := replace_i mesActual mesProximo (Ev.titulo eventoOriginal) in
     creado_en <- now ;;
     token_invitacion <- generarTokenInvitacion longitud_por_defecto ;;
     let vence_el :=
       match Ev.vence_el eventoOriginal with
       | Some vencimientoOriginal =>
           Some (setMonth vencimientoOriginal (getMonth vencimientoOriginal + 1))
       | None => None
       end in
     let nuevoEvento :=
       mkLiteral
         (Ev.mk (Ev.id eventoOriginal) tituloRecurrente (Ev.moneda eventoOriginal)
            (Ev.monto eventoOriginal) (Ev.repeticion eventoOriginal) abierto
            (Ev.forma_pago eventoOriginal) vence_el (Ev.creado_por eventoOriginal)
            creado_en None None (Ev.participantes eventoOriginal) token_invitacion [])
         ["quien_pago"; "fecha_pago"] in
     nuevoEventoRef <- doc_add_literal eventos con_eventos nuevoEvento ;;
     crearInvitacion nuevoEventoRef (Ev.creado_por eventoOriginal))
    (fun error => lanzar error).

(** ** Notifications, audit and storage helpers

    Each of them catches whatever goes wrong inside and returns normally. *)

Definition enviarNotificacionPush (usuario : string) (notificacion : Notificacion) : M unit :=
  intentar
    (llamada ;;
     tokenDoc <- leer (fun w =>
       List.find (fun d => String.eqb (userId d) usuario && active d) (fcm_tokens w)) ;;
     match tokenDoc with
     | None => ret tt
     | Some d =>
         llamada ;;
         modificar (con_enviados (fun l => (l ++ [mkMensaje (fcm_token d) notificacion])%list))
     end)
    (fun _ => ret tt).

Fixpoint bucle_notificaciones (evento : Evento) (quienPago : string)
    (participantes : list Participante) : M unit :=
  match participantes with
  | [] => ret tt
  | participante :: resto =>
      if String.eqb (uid participante) quienPago
      then bucle_notificaciones evento quienPago resto
      else
        let deuda := (Ev.monto evento * participacion participante)%Qc in
        let mensaje :=
          CuerpoCierre (Ev.titulo evento) deuda (moneda_str (Ev.moneda evento)) in
        enviarNotificacionPush (uid participante)
          (mkNotificacion "Evento Cerrado" mensaje "EVENTO_CERRADO" (Ev.id evento)) ;;
        bucle_notificaciones evento quienPago resto
  end.

Definition enviarNotificacionesCierre (evento : Evento) : M unit :=
  intentar
    (let participantes := Ev.participantes evento in
     let quienPago := o_bien (Ev.quien_pago evento) (Ev.creado_por evento) in
     bucle_notificaciones evento quienPago participantes)
    (fun _ => ret tt).

Definition enviarNotificacionNuevoParticipante (evento : Evento) (alias : string) : M unit :=
  intentar
    (enviarNotificacionPush (Ev.creado_por evento)
       (mkNotificacion "Nuevo Participante"
          (CuerpoNuevoParticipante alias (Ev.titulo evento))
          "NUEVO_PARTICIPANTE" (Ev.id evento)))
    (fun _ => ret tt).

Definition eliminarArchivo (filePath : string) : M unit :=
  intentar
    (llamada ;;
     existe <- leer (fun w => bool_decide (filePath ∈ archivos w)) ;;
     if existe : bool
     then modificar (con_archivos (fun s => s ∖ {[ filePath ]}))
     else lanzar Rechazo)
    (fun _ => ret tt).

Definition contarArchivosEvento (eventoId : string) : M nat :=
  intentar
    (llamada ;;
     files <- leer (fun w =>
       List.filter (String.prefix ("events/" ++ eventoId ++ "/")) (elements (archivos w))) ;;
     ret (length files))
    (fun _ => ret 0%nat).

Definition registrarAuditoria (auditoria : Auditoria) : M unit :=
  intentar
    (llamada ;; modificar (con_auditorias (fun l => (l ++ [auditoria])%list)))
    (fun _ => ret tt).

(** ** Close of an event: [onEventoUpdate_cierre] *)

Definition es_participante (u : string) (participantes : list Participante) : bool :=
  match List.find (fun p => String.eqb (uid p) u) participantes with
  | Some _ => true
  | None => false
  end.

(** A possibly missing string used as a condition. *)
Definition verdadero (a : option string) : bool :=
  match a with
  | Some s => negb (String.eqb s "")
  | None => false
  end.

Definition error_no_participante (u : string) : error :=
  Error ("Usuario " ++ u ++ " no es participante del evento").

(** The compensating write of the [catch] block. *)
Definition revertir (e : Evento) : Evento :=
  Ev.mk (Ev.id e) (Ev.titulo e) (Ev.moneda e) (Ev.monto e) (Ev.repeticion e) abierto
    (Ev.forma_pago e) (Ev.vence_el e) (Ev.creado_por e) (Ev.creado_en e)
    None None (Ev.participantes e) (Ev.token_invitacion e) (Ev.adjuntos e).

(** The body of the [try] block. *)
Definition cuerpo_cierre (before after : Evento) : M unit :=
  if bool_decide (Ev.estado before = abierto) && bool_decide (Ev.estado after = cerrado)
  then
    match Ev.quien_pago after with
    | Some quien =>
        if negb (String.eqb quien "")
           && negb (es_participante quien (Ev.participantes after))
        then lanzar (error_no_participante quien)
        else ret tt
    | None => ret tt
    end ;;
    calcularBalances after ;;
    (if bool_decide (Ev.repeticion after = mensual)
     then crearEventoRecurrente after
     else ret tt) ;;
    enviarNotificacionesCierre after
  else ret tt.

Definition onEventoUpdate_cierre (eventoId : string) (before after : Evento) : M unit :=
  intentar
    (cuerpo_cierre before after)
    (fun error =>
       doc_update eventos con_eventos eventoId revertir ;;
       lanzar error).

(** ** Joining by invitation token: [joinByToken] *)

Record DatosJoin := mkDatosJoin { d_token : option string }.

(** [context.auth], reduced to the [uid] it carries. *)
Record Contexto := mkContexto { auth : option string }.

Module Resp.
Record evento_t := mk_evento {
  id : string;
  titulo : string;
  participantes : nat
}.
Record t := mk {
  success : bool;
  evento : evento_t
}.
End Resp.
Abbreviation Respuesta := Resp.t.

(** [collection.where(campo, '==', valor).limit(1).get()]: of the matching
    documents, the first in document id order. *)
Definition primero_por_id {A} (P : A -> bool) (m : gmap string A) : option (string * A) :=
  foldr (fun kv acc =>
           if P kv.2
           then match acc with
                | Some kv' => if String.ltb kv.1 kv'.1 then Some kv else acc
                | None => Some kv
                end
           else acc)
        None (map_to_list m).

Definition consultar_token (token : string) : M (option (string * Invitacion)) :=
  llamada ;;
  leer (fun w => primero_por_id (fun i => String.eqb (Inv.token i) token) (invitaciones w)).

(** [s.split(sep)] for a one-character separator. *)
Fixpoint split (sep : ascii) (s : string) : list string :=
  match s with
  | EmptyString => [EmptyString]
  | String c s' =>
      if Ascii.eqb c sep then EmptyString :: split sep s'
      else match split sep s' with
           | x :: xs => String c x :: xs
           | [] => [String c EmptyString]
           end
  end.

(** [userData?.displayName || userData?.email?.split('@')[0] || 'Usuario'] *)
Definition resolver_alias (userData : option Usuario) : string :=
  let nombre := userData ≫= displayName in
  let local := (userData ≫= email) ≫= (fun e => head (split "@"%char e)) in
  o_bien nombre (o_bien local "Usuario").

Definition con_participacion (q : Qc) (p : Participante) : Participante :=
  mkParticipante (uid p) (alias p) q.

Definition con_participantes (ps : list Participante) (e : Evento) : Evento :=
  Ev.mk (Ev.id e) (Ev.titulo e) (Ev.moneda e) (Ev.monto e) (Ev.repeticion e) (Ev.estado e)
    (Ev.forma_pago e) (Ev.vence_el e) (Ev.creado_por e) (Ev.creado_en e)
    (Ev.quien_pago e) (Ev.fecha_pago e) ps (Ev.token_invitacion e) (Ev.adjuntos e).

(** [usos: FieldValue.increment(1)] *)
Definition incrementar_usos (i : Invitacion) : Invitacion :=
  Inv.mk (Inv.evento_id i) (Inv.token i) (Inv.creado_por i) (Inv.creado_en i)
    (Inv.expira_en i) (Inv.usos i + 1) (Inv.max_usos i).

Definition joinByToken (data : DatosJoin) (context : Contexto) : M Respuesta :=
  intentar
    (match auth context with
     | None => lanzar (HttpsError unauthenticated "Usuario no autenticado")
     | Some userId =>
     if negb (verdadero (d_token data))
     then lanzar (HttpsError invalid_argument "Token de invitación requerido")
     else
     let token := o_bien (d_token data) "" in
     invitacionRef <- consultar_token token ;;
     match invitacionRef with
     | None => lanzar (HttpsError not_found "Token de invitación inválido")
     | Some (invitacionId, invitacion) =>
     ahora <- now ;;
     if match Inv.expira_en invitacion with
        | Some expira => (expira <? ahora)%Z
        | None => false
        end
     then lanzar (HttpsError deadline_exceeded "Token de invitación expirado")
     else
     if (Inv.max_usos invitacion <=? Inv.usos invitacion)%Z
     then lanzar (HttpsError resource_exhausted "Token de invitación agotado")
     else
     eventoDoc <- doc_get eventos (Inv.evento_id invitacion) ;;
     match eventoDoc with
     | None => lanzar (HttpsError not_found "Evento no encontrado")
     | Some evento =>
     if negb (bool_decide (Ev.estado evento = abierto))
     then lanzar (HttpsError failed_precondition "Evento ya cerrado")
     else
     if es_participante userId (Ev.participantes evento)
     then lanzar (HttpsError already_exists "Usuario ya es participante del evento")
     else
     userDoc <- doc_get usuarios userId ;;
     let alias := resolver_alias userDoc in
     let nuevaParticipacion :=
       (1 / Qc_of_Z (Z.of_nat (length (Ev.participantes evento)) + 1))%Qc in
     let participantesActualizados :=
       (map (con_participacion nuevaParticipacion) (Ev.participantes evento)
        ++ [mkParticipante userId alias nuevaParticipacion])%list in
     doc_update eventos con_eventos (Inv.evento_id invitacion)
       (con_participantes participantesActualizados) ;;
     doc_update invitaciones con_invitaciones invitacionId incrementar_usos ;;
     en <- now ;;
     registrarAuditoria
       (Aud.mk "INVITAR" (Ev.id evento) userId en (PayloadInvitar token alias)) ;;
     enviarNotificacionNuevoParticipante evento alias ;;
     ret (Resp.mk true
            (Resp.mk_evento (Ev.id evento) (Ev.titulo evento)
               (length participantesActualizados)))
     end
     end
     end)
    (fun error =>
       match error with
       | HttpsError _ _ => lanzar error
       | _ => lanzar (HttpsError internal "Error interno del servidor")
       end).

(** ** Attachment validation: [onStorageFinalize_validarAdjuntos] *)

Module Obj.
Record t := mk {
  name : option string;
  size : option Z;
  contentType : option string
}.
End Obj.

Definition allowedTypes : list string :=
  [ "image/jpeg"; "image/jpg"; "image/png"; "image/gif"; "application/pdf" ].

Definition maxSize : Z := 1 * 1024 * 1024.

Definition onStorageFinalize_validarAdjuntos (object : Obj.t) : M unit :=
  intentar
    (let fileSize := match Obj.size object with Some n => n | None => 0 end in
     let contentType := o_bien (Obj.contentType object) "" in
     match Obj.name object with
     | None => ret tt
     | Some filePath =>
     if negb (String.prefix "events/" filePath) then ret tt
     else
     let pathParts := split "/"%char filePath in
     if (length pathParts <? 3)%nat then ret tt
     else
     let eventoId := nth 1 pathParts "" in
     if negb (existsb (String.eqb contentType) allowedTypes)
     then eliminarArchivo filePath
     else
     if (maxSize <? fileSize)%Z then eliminarArchivo filePath
     else
     archivosExistentes <- contarArchivosEvento eventoId ;;
     if (2 <=? archivosExistentes)%nat
     then
       eliminarArchivo filePath ;;
       en <- now ;;
       registrarAuditoria
         (Aud.mk "SUBIR_ADJUNTO_RECHAZADO" eventoId "system" en
            (PayloadAdjunto filePath fileSize contentType "Límite de archivos excedido"))
     else ret tt
     end)
    (fun _ => ret tt).

(** *** The accrual as the specification words it

    Sorted pair [(A, B)], key from the pair and the currency, the stored
    saldo or 0, minus the amount when the debtor is [A], plus it
    otherwise. *)

Definition saldo_en (w : Mundo) (k : string) : Qc :=
  match balances w !! k with
  | Some b => Bal.saldo b
  | None => 0%Qc
  end.

Definition accrue_spec (deudor acreedor moneda : string) (amount : Qc) (w : Mundo) : Qc :=
  let A := (sort2 deudor acreedor).1 in
  let saldo := saldo_en w (balance_key deudor acreedor moneda) in
  if decide (A = deudor) then (saldo - amount)%Qc else (saldo + amount)%Qc.

Definition sin_fallos (w : Mundo) : Prop := fallos w = [].

(** The balance document that [actualizarBalance] leaves under the key of
    the pair, when every platform call succeeds. *)
Definition abonado (deudor acreedor moneda : string) (deuda : Qc) (w : Mundo) : Balance :=
  let '(uidA, uidB) := sort2 deudor acreedor in
  let key := balance_key deudor acreedor moneda in
  match balances w !! key with
  | Some b =>
      Bal.mk (Bal.key b) (Bal.entre b) (Bal.moneda b)
        (if String.eqb uidA deudor then (Bal.saldo b - deuda)%Qc
         else (Bal.saldo b + deuda)%Qc)
        (reloj w)
  | None =>
      Bal.mk key (uidA, uidB) moneda
        (if String.eqb uidA deudor then (- deuda)%Qc else deuda) (reloj w)
  end.

(** *** Settlement as the specification words it

    For every participant [P] whose identity differs from the payer, the
    debt is the amount times the fraction of [P], accrued with [P] as
    debtor and the payer as creditor. *)

Definition quienPago (evento : Evento) : string :=
  o_bien (Ev.quien_pago evento) (Ev.creado_por evento).

Definition deudores (evento : Evento) : list Participante :=
  List.filter (fun P => negb (String.eqb (uid P) (quienPago evento)))
    (Ev.participantes evento).

Fixpoint en_orden (l : list (M unit)) : M unit :=
  match l with
  | [] => ret tt
  | m :: l' => m ;; en_orden l'
  end.

Definition settle_spec (evento : Evento) : M unit :=
  en_orden
    (map (fun P =>
            actualizarBalance (uid P) (quienPago evento) (moneda_str (Ev.moneda evento))
              (Ev.monto evento * participacion P)%Qc)
         (deudores evento)).

(** The identities of users are the uids of Firebase Authentication
    ([context.auth.uid] in the handlers, [user.uid] in the client): strings
    of ASCII letters and digits. *)
Definition alfanumerico (c : ascii) : bool :=
  let n := N_of_ascii c in
  ((48 <=? n) && (n <=? 57) || (65 <=? n) && (n <=? 90) || (97 <=? n) && (n <=? 122))%N.

Fixpoint es_uid (s : string) : bool :=
  match s with
  | EmptyString => true
  | String c s' => alfanumerico c && es_uid s'
  end.

(** Strings without the separator of the balance key. *)
Fixpoint sin_guion (s : string) : bool :=
  match s with
  | EmptyString => true
  | String c s' => negb (Ascii.eqb c "_"%char) && sin_guion s'
  end.

(** *** A successful join as the specification words it

    The new fraction is one over the old count plus one; every existing
    participant gets it, and the requester is appended with it. *)
Definition new_fraction (participantes : list Participante) : Qc :=
  (1 / Qc_of_Z (Z.of_nat (length participantes) + 1))%Qc.

Definition redeem_spec (requester alias : string)
    (participantes : list Participante) : list Participante :=
  (map (con_participacion (new_fraction participantes)) participantes
   ++ [mkParticipante requester alias (new_fraction participantes)])%list.

(** Every fraction is one over the number of participants. *)
Definition reparto_igual (participantes : list Participante) : Prop :=
  forall P, P ∈ participantes ->
            participacion P = (1 / Qc_of_Z (Z.of_nat (length participantes)))%Qc.

Fixpoint suma_participaciones (participantes : list Participante) : Qc :=
  match participantes with
  | [] => 0%Qc
  | P :: resto => (participacion P + suma_participaciones resto)%Qc
  end.

(** The invitation is past its expiry at time [ahora]. *)
Definition expirada (i : Invitacion) (ahora : Z) : bool :=
  match Inv.expira_en i with
  | Some expira => (expira <? ahora)%Z
  | None => false
  end.

Definition agotada (i : Invitacion) : bool := (Inv.max_usos i <=? Inv.usos i)%Z.

(** The invitation a token resolves to. *)
Definition invitacion_de (w : Mundo) (token : string) : option (string * Invitacion) :=
  primero_por_id (fun i => String.eqb (Inv.token i) token) (invitaciones w).

(** The world a successful join leaves behind when the store answers every
    call: the event with its new participants, the invitation used once
    more, the audit entry, and the message to the creator if a device of
    the creator is registered. *)
Definition tras_unirse (w : Mundo) (usuario token invitacionId : string)
    (invitacion : Invitacion) (evento : Evento) : Mundo :=
  let alias := resolver_alias (usuarios w !! usuario) in
  let w1 :=
    con_eventos
      (insert (Inv.evento_id invitacion)
         (con_participantes (redeem_spec usuario alias (Ev.participantes evento)) evento))
      w in
  let w2 := con_invitaciones (insert invitacionId (incrementar_usos invitacion)) w1 in
  let w3 :=
    con_auditorias
      (fun l => (l ++ [Aud.mk "INVITAR" (Ev.id evento) usuario (reloj w)
                         (PayloadInvitar token alias)])%list) w2 in
  match List.find (fun d => String.eqb (userId d) (Ev.creado_por evento) && active d)
          (fcm_tokens w) with
  | Some d =>
      con_enviados
        (fun l => (l ++ [mkMensaje (fcm_token d)
                           (mkNotificacion "Nuevo Participante"
                              (CuerpoNuevoParticipante alias (Ev.titulo evento))
                              "NUEVO_PARTICIPANTE" (Ev.id evento))])%list) w3
  | None => w3
  end.

(** The two ways a call of [joinByToken] started in [w] can have touched
    the store when it ends in [w']: not at all ([join_intacto]); or the
    event has its new participant and, if [exito], the usage is recorded
    ([join_unido]). *)
Definition join_intacto (w w' : Mundo) : Prop :=
  eventos w' = eventos w /\ invitaciones w' = invitaciones w.

Definition join_unido (data : DatosJoin) (context : Contexto) (w w' : Mundo)
    (exito : bool) : Prop :=
  exists usuario token invitacionId invitacion evento,
    auth context = Some usuario
    /\ d_token data = Some token
    /\ invitacion_de w token = Some (invitacionId, invitacion)
    /\ expirada invitacion (reloj w) = false
    /\ agotada invitacion = false
    /\ eventos w !! Inv.evento_id invitacion = Some evento
    /\ Ev.estado evento = abierto
    /\ es_participante usuario (Ev.participantes evento) = false
    /\ eventos w'
       = <[Inv.evento_id invitacion :=
             con_participantes
               (redeem_spec usuario (resolver_alias (usuarios w !! usuario))
                  (Ev.participantes evento)) evento]> (eventos w)
    /\ invitaciones w'
       = if exito
         then <[invitacionId := incrementar_usos invitacion]> (invitaciones w)
         else invitaciones w.

(** What may happen between two calls of [joinByToken]: the clock, the
    schedule of rejections and the rest of the world may change, the events
    and the invitations do not. *)
Definition entre_llamadas (w w' : Mundo) : Prop :=
  eventos w' = eventos w /\ invitaciones w' = invitaciones w.

(** One step of a sequence of redemptions: a call of [joinByToken] by
    anyone, with any token, or a change between two calls. *)
Definition paso_join (w w' : Mundo) : Prop :=
  (exists data context, w' = (joinByToken data context w).2) \/ entre_llamadas w w'.

(** No invitation has been used more often than its cap allows. *)
Definition usos_acotados (w : Mundo) : Prop :=
  forall k i, invitaciones w !! k = Some i -> (Inv.usos i <= Inv.max_usos i)%Z.

(** The event stored under [k] is split in equal parts that add up to 1. *)
Definition bien_repartido (k : string) (w : Mundo) : Prop :=
  exists ev, eventos w !! k = Some ev
             /\ reparto_igual (Ev.participantes ev)
             /\ suma_participaciones (Ev.participantes ev) = 1%Qc.

(** Whether the next platform call is scheduled to reject, and the world
    once that call has been answered. *)
Definition siguiente_falla (w : Mundo) : bool :=
  match fallos w with
  | true :: _ => true
  | _ => false
  end.

Definition avanzar (w : Mundo) : Mundo := con_fallos (tail (fallos w)) w.

(** The token [generarTokenInvitacion] builds from the draws number
    [desde], [desde + 1], ... of the random source. *)
Fixpoint token_de (azar : nat -> nat) (desde n : nat) (token : string) : string :=
  match n with
  | O => token
  | S n' =>
      token_de azar (S desde) n'
        (token ++ charAt chars (azar desde `mod` String.length chars)%nat)
  end.

(** The objects filed under an event in the bucket, as
    [contarArchivosEvento] lists them, and the checks of the validator on
    the type and the size of an upload. *)
Definition archivos_de (eventoId : string) (archivos : gset string) : list string :=
  List.filter (String.prefix ("events/" ++ eventoId ++ "/")) (elements archivos).

Definition tipo_permitido (object : Obj.t) : bool :=
  existsb (String.eqb (o_bien (Obj.contentType object) "")) allowedTypes.

Definition tamano_de (object : Obj.t) : Z :=
  match Obj.size object with Some n => n | None => 0 end.

Definition auditoria_rechazo (eventoId filePath : string) (object : Obj.t) (w : Mundo)
    : Auditoria :=
  Aud.mk "SUBIR_ADJUNTO_RECHAZADO" eventoId "system" (reloj w)
    (PayloadAdjunto filePath (tamano_de object) (o_bien (Obj.contentType object) "")
       "Límite de archivos excedido").

(** A string without "@": the local part of an e-mail address. *)
Fixpoint sin_arroba (s : string) : bool :=
  match s with
  | EmptyString => true
  | String c s' => negb (Ascii.eqb c "@"%char) && sin_arroba s'
  end.

(** ** Worlds and events used in the examples *)

Definition mundo_inicial : Mundo :=
  mkMundo ∅ ∅ ∅ ∅ [] [] ∅ [] 1700000000000 (fun n => n) 0
    (fun n => String (ascii_of_nat (65 + n)) "auto") 0 [].

Definition tercio : Qc := (1 / Qc_of_Z 3)%Qc.

(** Scenario A: 300 ARS split in thirds between u1, u2 and u3, paid by u1. *)
Definition evento_A : Evento :=
  Ev.mk "e1" "Cena" ARS (Qc_of_Z 300) unico cerrado "efectivo" None "u1"
    1700000000000 (Some "u1") (Some 1700000000000)
    [ mkParticipante "u1" "Ana" tercio; mkParticipante "u2" "Beto" tercio;
      mkParticipante "u3" "Caro" tercio ]
    "tokenA" [].


(** A close whose payer is not a participant (scenario D), stored under
    its id, first with a store that answers and then with one that rejects
    the next call. *)
Definition evento_intruso_abierto : Evento :=
  Ev.mk "e3" "Asado" ARS (Qc_of_Z 300) unico abierto "efectivo" None "u1"
    1700000000000 None None
    [ mkParticipante "u1" "Ana" (1 / Qc_of_Z 2)%Qc; mkParticipante "u2" "Beto" (1 / Qc_of_Z 2)%Qc ]
    "tokenC" [].

Definition evento_intruso : Evento :=
  Ev.mk "e3" "Asado" ARS (Qc_of_Z 300) unico cerrado "efectivo" None "u1"
    1700000000000 (Some "u9") (Some 1700000000500)
    [ mkParticipante "u1" "Ana" (1 / Qc_of_Z 2)%Qc; mkParticipante "u2" "Beto" (1 / Qc_of_Z 2)%Qc ]
    "tokenC" [].

Definition mundo_intruso : Mundo :=
  con_eventos (insert "e3" evento_intruso) mundo_inicial.

Definition mundo_intruso_caido : Mundo := con_fallos [true] mundo_intruso.

(** A close without payer, by a creator who is not in the list. *)
Definition evento_sin_pagador_abierto : Evento :=
  Ev.mk "e4" "Regalo" USD (Qc_of_Z 90) unico abierto "transferencia" None "u0"
    1700000000000 None None
    [ mkParticipante "u1" "Ana" (1 / Qc_of_Z 2)%Qc; mkParticipante "u2" "Beto" (1 / Qc_of_Z 2)%Qc ]
    "tokenD" [].

Definition evento_sin_pagador : Evento :=
  Ev.mk "e4" "Regalo" USD (Qc_of_Z 90) unico cerrado "transferencia" None "u0"
    1700000000000 None None
    [ mkParticipante "u1" "Ana" (1 / Qc_of_Z 2)%Qc; mkParticipante "u2" "Beto" (1 / Qc_of_Z 2)%Qc ]
    "tokenD" [].

(** Scenario B: an open event of u1 and an invitation for it that can be
    used once; u2 has a profile with an e-mail address only. *)
Definition evento_abierto : Evento :=
  Ev.mk "ev1" "Supermercado" ARS (Qc_of_Z 120) unico abierto "desconocida" None "u1"
    1700000000000 None None [ mkParticipante "u1" "Creador" 1%Qc ] "tok1" [].

Definition invitacion_unica : Invitacion :=
  Inv.mk "ev1" "tok1" "u1" 1700000000000 None 0 1.

Definition mundo_invitacion : Mundo :=
  mkMundo {[ "ev1" := evento_abierto ]} ∅ {[ "tok1" := invitacion_unica ]}
    {[ "u2" := mkUsuario None (Some "beto@example.com") ]}
    [] [] ∅ [] 1700000000000 (fun n => n) 0
    (fun n => String (ascii_of_nat (65 + n)) "auto") 0 [].

(** A monthly event, closed, created on 15 January 2025 and due on
    31 January 2025 at 10:00 UTC, and the store that holds it under its
    id. *)
Definition evento_fin_de_mes : Evento :=
  Ev.mk "e5" "Alquiler Enero" ARS (Qc_of_Z 900) mensual cerrado "transferencia"
    (Some 1738317600000) "u1" 1736935200000 (Some "u1") (Some 1738317600000)
    [ mkParticipante "u1" "Ana" (1 / Qc_of_Z 2)%Qc; mkParticipante "u2" "Beto" (1 / Qc_of_Z 2)%Qc ]
    "tokenE" [ mkAdjunto "events/e5/recibo.pdf" "application/pdf" 1000 "u1" 1736935200000 ].

Definition mundo_alquiler : Mundo :=
  con_eventos (insert "e5" evento_fin_de_mes) mundo_inicial.

(** Scenario E: the event e7 has two attachments in the bucket and a third
    object has just been uploaded, once as a PNG of 2000 bytes and once as
    a plain text file. *)
Definition mundo_adjuntos : Mundo :=
  con_archivos
    (fun _ => {[ "events/e7/a.png"; "events/e7/b.pdf"; "events/e7/c.png";
                 "events/e7/c.txt" ]})
    mundo_inicial.

Definition objeto_png : Obj.t :=
  Obj.mk (Some "events/e7/c.png") (Some 2000) (Some "image/png").

Definition objeto_txt : Obj.t :=
  Obj.mk (Some "events/e7/c.txt") (Some 2000) (Some "text/plain").

(** The same bucket when the platform rejects the next call. *)
Definition mundo_adjuntos_caido : Mundo := con_fallos [true] mundo_adjuntos.

(** ** Frame conditions

    [respeta R E m]: whatever the schedule of rejections, a run of [m]
    relates the world before to the world after by [R], and an error it
    ends with satisfies [E]. *)
Definition respeta {A} (R : Mundo -> Mundo -> Prop) (E : error -> Prop) (m : M A) : Prop :=
  forall w, R w (m w).2 /\ forall e, (m w).1 = Err e -> E e.

(** ** Weakest preconditions

    [wp m Q QE w]: the run of [m] from [w] ends normally in a value and a
    world that satisfy [Q], or with an error and a world that satisfy
    [QE]. *)
Definition wp {A} (m : M A) (Q : A -> Mundo -> Prop) (QE : error -> Mundo -> Prop)
    (w : Mundo) : Prop :=
  match m w with
  | (Ok a, w') => Q a w'
  | (Err e, w') => QE e w'
  end.

(** A relation that does not look at the environment: the schedule of
    rejections, the random draws and the proposed ids. *)
Class Ambiental (R : Mundo -> Mundo -> Prop) : Prop := {
  ambiental_fallos : forall l w, R w (con_fallos l w);
  ambiental_sorteos : forall n w, R w (con_sorteos n w);
  ambiental_generados : forall n w, R w (con_generados n w)
}.

(** Documents of [eventos] are neither removed nor changed. *)
Definition conserva_eventos (w w' : Mundo) : Prop :=
  forall k v, eventos w !! k = Some v -> eventos w' !! k = Some v.

Definition es_rechazo (e : error) : Prop := e = Rechazo.

(** The error predicate of the helpers that swallow whatever goes wrong. *)
Definition nunca (e : error) : Prop := False.
Definition cualquiera (e : error) : Prop := True.

(** ** Creating an event: [createEvento] *)

(** A JS [number] as the request carries it: a finite value, [NaN], or an
    infinity of either sign. *)
Inductive Numero :=
  | Finito (q : Qc)
  | NaN
  | Infinito.

(** The fields of [data] that [createEvento] reads: a title, a currency
    and a recurrence that are strings, and an amount that is a number.
    [None] stands for a field that is missing, or for [data] itself being
    missing. *)
Record DatosCrear := mkDatosCrear {
  c_titulo : option string;
  c_monto : option Numero;
  c_moneda : option string;
  c_repeticion : option string
}.

Record RespuestaCrear := mkRespuestaCrear {
  r_id : string;
  r_token : string
}.

(** [String.prototype.trim]: the white space and line terminators of
    ECMAScript, in their UTF-8 encoding, are stripped from both ends. *)
Definition de_bytes (l : list nat) : string :=
  String.string_of_list_ascii (map ascii_of_nat l).

Definition espacios : list string :=
  map de_bytes
    [ [9]; [10]; [11]; [12]; [13]; [32]; [194; 160]; [225; 154; 128];
      [226; 128; 128]; [226; 128; 129]; [226; 128; 130]; [226; 128; 131];
      [226; 128; 132]; [226; 128; 133]; [226; 128; 134]; [226; 128; 135];
      [226; 128; 136]; [226; 128; 137]; [226; 128; 138]; [226; 128; 168];
      [226; 128; 169]; [226; 128; 175]; [226; 129; 159]; [227; 128; 128];
      [239; 187; 191] ]%nat.

Fixpoint quitar_prefijo (p s : string) : option string :=
  match p, s with
  | EmptyString, _ => Some s
  | String _ _, EmptyString => None
  | String a p', String b s' => if Ascii.eqb a b then quitar_prefijo p' s' else None
  end.

Definition quitar_uno (blancos : list string) (s : string) : option string :=
  foldr (fun b acc =>
           match quitar_prefijo b s with
           | Some resto => Some resto
           | None => acc
           end)
        None blancos.

Fixpoint quitar_todos (blancos : list string) (n : nat) (s : string) : string :=
  match n with
  | O => s
  | S n' =>
      match quitar_uno blancos s with
      | Some resto => quitar_todos blancos n' resto
      | None => s
      end
  end.

Definition trimStart (s : string) : string :=
  quitar_todos espacios (String.length s) s.

Definition trimEnd (s : string) : string :=
  String.rev (quitar_todos (map String.rev espacios) (String.length s) (String.rev s)).

Definition trim (s : string) : string := trimEnd (trimStart s).

(** [a || b] on a possibly missing number: 0 and [NaN] are falsy. *)
Definition numero_verdadero (n : Numero) : bool :=
  match n with
  | Finito q => negb (bool_decide (q = 0%Qc))
  | NaN => false
  | Infinito => true
  end.

Definition o_bien_numero (a : option Numero) (b : Numero) : Numero :=
  match a with
  | Some n => if numero_verdadero n then n else b
  | None => b
  end.

(** [['ARS', 'USD'].includes(moneda)] and [['unico', 'mensual'].includes(repeticion)],
    with the value the string stands for. *)
Definition moneda_de (s : string) : option Moneda :=
  if String.eqb s "ARS" then Some ARS
  else if String.eqb s "USD" then Some USD
  else None.

Definition repeticion_de (s : string) : option Repeticion :=
  if String.eqb s "unico" then Some unico
  else if String.eqb s "mensual" then Some mensual
  else None.

Definition createEvento (data : DatosCrear) (context : Contexto) : M RespuestaCrear :=
  match auth context with
  | None => lanzar (HttpsError unauthenticated "Debe estar autenticado.")
  | Some userId =>
  let titulo := trim (o_bien (c_titulo data) "") in
  let monto := o_bien_numero (c_monto data) (Finito 0) in
  let moneda := o_bien (c_moneda data) "" in
  let repeticion := o_bien (c_repeticion data) "" in
  if String.eqb titulo ""
  then lanzar (HttpsError invalid_argument "El título es requerido")
  else
  match monto with
  | NaN | Infinito => lanzar (HttpsError invalid_argument "Monto inválido")
  | Finito monto =>
  if bool_decide (monto <= 0)%Qc
  then lanzar (HttpsError invalid_argument "Monto inválido")
  else
  match moneda_de moneda with
  | None => lanzar (HttpsError invalid_argument "Moneda inválida")
  | Some moneda =>
  match repeticion_de repeticion with
  | None => lanzar (HttpsError invalid_argument "Repetición inválida")
  | Some repeticion =>
  ahora <- now ;;
  eventoRef <- auto_id ;;
  token <- generarTokenInvitacion longitud_por_defecto ;;
  let participantes := [mkParticipante userId "Creador" 1%Qc] in
  let evento :=
    Ev.mk eventoRef titulo moneda monto repeticion abierto "desconocida" None
      userId ahora None None participantes token [] in
  doc_set con_eventos eventoRef evento ;;
  let invitacion := Inv.mk (Ev.id evento) token userId ahora None 0 100 in
  doc_set con_invitaciones token invitacion ;;
  ret (mkRespuestaCrear (Ev.id evento) token)
  end
  end
  end
  end.

(** ** Closing an event from the client: [EventsService.closeEvento]

    The client writes the event document itself; [onEventoUpdate_cierre] is
    what the platform then runs on the document before and after that
    write. [serverTimestamp()] is the time of the store at the write. *)

Definition cerrar (quien : string) (ahora : Timestamp) (e : Evento) : Evento :=
  Ev.mk (Ev.id e) (Ev.titulo e) (Ev.moneda e) (Ev.monto e) (Ev.repeticion e) cerrado
    (Ev.forma_pago e) (Ev.vence_el e) (Ev.creado_por e) (Ev.creado_en e)
    (Some quien) (Some ahora) (Ev.participantes e) (Ev.token_invitacion e) (Ev.adjuntos e).

Definition closeEvento (currentUser eventoId quienPagoUid : option string) : M bool :=
  match currentUser with
  | None => lanzar (Error "Debe iniciar sesión")
  | Some user =>
      if negb (verdadero eventoId) then lanzar (Error "ID de evento requerido")
      else
        ahora <- now ;;
        doc_update eventos con_eventos (o_bien eventoId "")
          (cerrar (o_bien quienPagoUid user) ahora) ;;
        ret true
  end.

(** ** Vocabulary of the properties of creation, ledger and bucket *)

(** The request of [createEvento] passes the four checks on its fields. *)
Definition datos_validos (data : DatosCrear) (titulo : string) (monto : Qc)
    (moneda : Moneda) (repeticion : Repeticion) : Prop :=
  trim (o_bien (c_titulo data) "") = titulo /\ titulo <> ""
  /\ c_monto data = Some (Finito monto) /\ (0 < monto)%Qc
  /\ c_moneda data = Some (moneda_str moneda)
  /\ c_repeticion data = Some (match repeticion with
                               | unico => "unico"
                               | mensual => "mensual"
                               end).

(** The amount of a request is not a finite number above zero. *)
Definition monto_invalido (m : option Numero) : Prop :=
  match m with
  | Some (Finito q) => (q <= 0)%Qc
  | _ => True
  end.

(** The event and the invitation that [createEvento] writes. *)
Definition evento_creado (titulo : string) (monto : Qc) (moneda : Moneda)
    (repeticion : Repeticion) (usuario : string) (w : Mundo) : Evento :=
  Ev.mk (autoids w (generados w)) titulo moneda monto repeticion abierto "desconocida"
    None usuario (reloj w) None None [mkParticipante usuario "Creador" 1%Qc]
    (token_de (azar w) (sorteos w) longitud_por_defecto "") [].

Definition invitacion_creada (usuario : string) (w : Mundo) : Invitacion :=
  Inv.mk (autoids w (generados w)) (token_de (azar w) (sorteos w) longitud_por_defecto "")
    usuario (reloj w) None 0 100.

(** Every character of [s] is one of [alfabeto]. *)
Definition sobre (alfabeto s : string) : Prop :=
  forall c, c ∈ String.list_ascii_of_string s -> c ∈ String.list_ascii_of_string alfabeto.

(** No invitation document carries the token. *)
Definition token_libre (token : string) (w : Mundo) : Prop :=
  forall k i, invitaciones w !! k = Some i -> Inv.token i <> token.

(** The world before the first write of [createEvento]: an id and a token
    have been drawn. *)
Definition tras_sortear (w : Mundo) : Mundo :=
  con_sorteos (sorteos w + longitud_por_defecto) (con_generados (S (generados w)) w).

(** What an accrual of [deuda] with [deudor] as debtor adds to the saldo of
    the pair: the debt is counted against the first of the sorted pair. *)
Definition con_signo (deudor acreedor : string) (deuda : Qc) : Qc :=
  if String.eqb (sort2 deudor acreedor).1 deudor then (- deuda)%Qc else deuda.

(** What the accruals of the participants [ps] towards [acreedor] add to
    the saldo stored under the key [k]. *)
Fixpoint suma_en_clave (k acreedor moneda : string) (monto : Qc)
    (ps : list Participante) : Qc :=
  match ps with
  | [] => 0%Qc
  | P :: resto =>
      ((if String.eqb (balance_key (uid P) acreedor moneda) k
        then con_signo (uid P) acreedor (monto * participacion P)
        else 0)
       + suma_en_clave k acreedor moneda monto resto)%Qc
  end.

(** ** What a handler may do to the world *)

(** A part of the world is left as it was. *)
Definition sin_tocar {A} (campo : Mundo -> A) (w w' : Mundo) : Prop :=
  campo w' = campo w.

(** A part of the world that the environment (the schedule of rejections,
    the random draws, the proposed ids) does not reach. *)
Class Almacenado {A} (campo : Mundo -> A) : Prop := {
  almacenado_fallos : forall l w, campo (con_fallos l w) = campo w;
  almacenado_sorteos : forall n w, campo (con_sorteos n w) = campo w;
  almacenado_generados : forall n w, campo (con_generados n w) = campo w
}.

(** Two relations at once. *)
Definition ambos (R1 R2 : Mundo -> Mundo -> Prop) (w w' : Mundo) : Prop :=
  R1 w w' /\ R2 w w'.

(** Nothing is taken back: documents stay, the audit log and the messages
    sent are only appended to, the bucket gets no new object, and the
    profiles, the devices and the clock are left alone. *)
Definition crece (w w' : Mundo) : Prop :=
  dom (eventos w) ⊆ dom (eventos w')
  /\ dom (balances w) ⊆ dom (balances w')
  /\ dom (invitaciones w) ⊆ dom (invitaciones w')
  /\ auditorias w `prefix_of` auditorias w'
  /\ enviados w `prefix_of` enviados w'
  /\ archivos w' ⊆ archivos w
  /\ usuarios w' = usuarios w
  /\ fcm_tokens w' = fcm_tokens w
  /\ reloj w' = reloj w.

(** Scenario A stored under its id, with a store that answers the first
    two calls and rejects the third. *)
Definition mundo_A_caido : Mundo :=
  con_fallos [false; false; true] (con_eventos (insert "e1" evento_A) mundo_inicial).

(** The message of a close for the participant [P], and the messages of a
    close: one for every debtor with an active device, in the order of the
    participants. *)
Definition mensaje_cierre (evento : Evento) (P : Participante) (d : FcmToken) : Mensaje :=
  mkMensaje (fcm_token d)
    (mkNotificacion "Evento Cerrado"
       (CuerpoCierre (Ev.titulo evento) (Ev.monto evento * participacion P)%Qc
          (moneda_str (Ev.moneda evento)))
       "EVENTO_CERRADO" (Ev.id evento)).

Definition dispositivo_de (usuario : string) (dispositivos : list FcmToken)
    : option FcmToken :=
  List.find (fun d => String.eqb (userId d) usuario && active d) dispositivos.

Fixpoint mensajes_cierre (evento : Evento) (dispositivos : list FcmToken)
    (deudores : list Participante) : list Mensaje :=
  match deudores with
  | [] => []
  | P :: resto =>
      match dispositivo_de (uid P) dispositivos with
      | Some d => mensaje_cierre evento P d :: mensajes_cierre evento dispositivos resto
      | None => mensajes_cierre evento dispositivos resto
      end
  end.

(** Scenario A with devices: u1 and u2 have an active one, u3 an inactive
    one. *)
Definition mundo_dispositivos : Mundo :=
  mkMundo ∅ ∅ ∅ ∅ []
    [ mkFcmToken "u1" true "dispositivo1"; mkFcmToken "u2" true "dispositivo2";
      mkFcmToken "u3" false "dispositivo3" ]
    ∅ [] 1700000000000 (fun n => n) 0
    (fun n => String (ascii_of_nat (65 + n)) "auto") 0 [].

(** A segment of an object name: a string without "/"; and the number of
    times a character occurs in a string. *)
Fixpoint sin_barra (s : string) : bool :=
  match s with
  | EmptyString => true
  | String c s' => negb (Ascii.eqb c "/"%char) && sin_barra s'
  end.

Fixpoint ocurrencias (c : ascii) (s : string) : nat :=
  match s with
  | EmptyString => O
  | String c' s' => if Ascii.eqb c' c then S (ocurrencias c s') else ocurrencias c s'
  end.

(** * Properties *)

(** ** The handler monad *)

Lemma llamada_sin_fallos w : sin_fallos w -> llamada w = (Ok tt, w).
Proof. unfold sin_fallos, llamada. intros ->. reflexivity. Qed.

Lemma intentar_lanzar {A} (m : M A) w : intentar m (fun e => lanzar e) w = m w.
Proof. unfold intentar, lanzar. destruct (m w) as [[a|e] w']; reflexivity. Qed.

(** ** Sorting a pair of identities *)


Lemma ltb_irrefl a : String.ltb a a = false.
Proof.
  unfold String.ltb. destruct (String.compare a a) eqn:E; try reflexivity.
  pose proof (String.compare_antisym a a) as H. rewrite E in H. discriminate.
Qed.



Lemma actualizarBalance_sin_fallos d a m x w :
  sin_fallos w ->
  actualizarBalance d a m x w
  = (Ok tt, con_balances (insert (balance_key d a m) (abonado d a m x w)) w).
Proof.
  intros Hf. unfold actualizarBalance. rewrite intentar_lanzar. unfold abonado, balance_key.
  destruct (sort2 d a) as [uidA uidB]. red in Hf.
  cbv beta iota delta [bind doc_get doc_update doc_set now leer modificar llamada].
  rewrite Hf. destruct (balances w !! _) as [b|] eqn:Hb; rewrite Hf; [rewrite Hb|]; reflexivity.
Qed.


Lemma sort2_eqb_decide d a :
  String.eqb (sort2 d a).1 d = bool_decide ((sort2 d a).1 = d).
Proof.
  destruct (String.eqb_spec (sort2 d a).1 d) as [H|H].
  - by rewrite bool_decide_eq_true_2.
  - by rewrite bool_decide_eq_false_2.
Qed.

Lemma balance_key_sort2 d a m :
  balance_key d a m = (sort2 d a).1 ++ "_" ++ (sort2 d a).2 ++ "_" ++ m.
Proof. unfold balance_key. by destruct (sort2 d a). Qed.

Lemma saldo_abonado d a m x w :
  Bal.saldo (abonado d a m x w) = accrue_spec d a m x w.
Proof.
  unfold abonado, accrue_spec, saldo_en. pose proof (sort2_eqb_decide d a) as He.
  destruct (sort2 d a) as [uidA uidB]; simpl in *. rewrite He.
  destruct (balances w !! _) as [b|]; simpl;
    case_bool_decide; case_decide; try done; ring.
Qed.

Lemma saldo_en_insert k b w :
  saldo_en (con_balances (insert k b) w) k = Bal.saldo b.
Proof. unfold saldo_en. simpl. by rewrite lookup_insert_eq. Qed.






(** ** Settlement: [calcularBalances] *)

Lemma bucle_balances_spec evento ps w :
  bucle_balances evento (quienPago evento) ps w
  = en_orden
      (map (fun P =>
              actualizarBalance (uid P) (quienPago evento) (moneda_str (Ev.moneda evento))
                (Ev.monto evento * participacion P)%Qc)
           (List.filter (fun P => negb (String.eqb (uid P) (quienPago evento))) ps)) w.
Proof.
  revert w. induction ps as [|p ps IH]; intros w; [reflexivity|].
  simpl. destruct (String.eqb (uid p) (quienPago evento)); simpl; [apply IH|].
  unfold bind. destruct (actualizarBalance _ _ _ _ w) as [[[]|e] w1]; [apply IH|reflexivity].
Qed.

Lemma calcularBalances_settle_spec evento w :
  calcularBalances evento w = settle_spec evento w.
Proof.
  unfold calcularBalances. rewrite intentar_lanzar. apply bucle_balances_spec.
Qed.

(** What a run of accruals with the payer as creditor leaves behind. *)
Lemma en_orden_accruals (acreedor moneda : string) (f : Participante -> Qc)
    (ps : list Participante) w :
  sin_fallos w ->
  exists g,
    en_orden (map (fun P => actualizarBalance (uid P) acreedor moneda (f P)) ps) w
    = (Ok tt, con_balances g w)
    /\ forall k, (forall P, P ∈ ps -> k <> balance_key (uid P) acreedor moneda) ->
                 g (balances w) !! k = balances w !! k.
Proof.
  revert w. induction ps as [|p ps IH]; intros w Hf.
  - exists id. split; [by destruct w|done].
  - simpl. unfold bind. rewrite actualizarBalance_sin_fallos by done.
    set (w1 := con_balances _ w).
    destruct (IH w1 Hf) as (g & Hg & Hfr). rewrite Hg.
    exists (fun b => g (<[balance_key (uid p) acreedor moneda :=
                          abonado (uid p) acreedor moneda (f p) w]> b)).
    split; [reflexivity|]. intros k Hk. 
    change (g (balances w1) !! k = balances w !! k).
    rewrite Hfr.
    + unfold w1. simpl. rewrite lookup_insert_ne; [done|].
      intros E. apply (Hk p); [left|done].
    + intros P HP. apply Hk. by right.
Qed.

(** *** The key of a pair of identities *)

Lemma es_uid_sin_guion s : es_uid s = true -> sin_guion s = true.
Proof.
  induction s as [|c s IH]; simpl; [done|].
  intros H. apply andb_prop in H as [Hc Hs]. rewrite (IH Hs), andb_true_r.
  destruct (Ascii.eqb_spec c "_"%char) as [->|_]; [discriminate Hc|reflexivity].
Qed.

Lemma app_guion_inj a a' r r' :
  sin_guion a = true -> sin_guion a' = true ->
  a ++ "_" ++ r = a' ++ "_" ++ r' -> a = a' /\ r = r'.
Proof.
  revert a'. induction a as [|c a IH]; intros [|c' a'] Ha Ha' E; simpl in *.
  - by inversion E.
  - inversion E; subst. by rewrite Ascii.eqb_refl in Ha'.
  - inversion E; subst. by rewrite Ascii.eqb_refl in Ha.
  - apply andb_prop in Ha as [_ Ha]. apply andb_prop in Ha' as [_ Ha'].
    inversion E; subst. destruct (IH a' Ha Ha' H1) as [-> ->]. done.
Qed.

Lemma balance_key_inj x y m x' y' m' :
  sin_guion x = true -> sin_guion y = true ->
  sin_guion x' = true -> sin_guion y' = true ->
  balance_key x y m = balance_key x' y' m' ->
  sort2 x y = sort2 x' y' /\ m = m'.
Proof.
  intros Hx Hy Hx' Hy' E. rewrite !balance_key_sort2 in E.
  assert (H1 : sin_guion (sort2 x y).1 = true /\ sin_guion (sort2 x y).2 = true)
    by (unfold sort2; destruct (String.ltb y x); simpl; auto).
  assert (H2 : sin_guion (sort2 x' y').1 = true /\ sin_guion (sort2 x' y').2 = true)
    by (unfold sort2; destruct (String.ltb y' x'); simpl; auto).
  destruct (sort2 x y) as [a b], (sort2 x' y') as [a' b']; simpl in *.
  destruct H1, H2.
  apply app_guion_inj in E as [-> E]; try done.
  apply app_guion_inj in E as [-> E]; done.
Qed.

Lemma sort2_miembros x y a b : sort2 x y = (a, b) -> (x = a /\ y = b) \/ (x = b /\ y = a).
Proof. unfold sort2. destruct (String.ltb y x); intros [= <- <-]; auto. Qed.


Lemma deudores_spec evento P :
  P ∈ deudores evento <-> P ∈ Ev.participantes evento /\ uid P <> quienPago evento.
Proof.
  unfold deudores. rewrite list_elem_of_In, List.filter_In, <- list_elem_of_In.
  rewrite negb_true_iff, String.eqb_neq. done.
Qed.



(** ** Frame rules of the handler monad *)

Section Marco.
Context (R : Mundo -> Mundo -> Prop) (E : error -> Prop).
Context `{!PreOrder R}.

Lemma respeta_ret {A} (a : A) : respeta R E (ret a).
Proof. intros w. split; [reflexivity|discriminate]. Qed.

Lemma respeta_leer {A} (f : Mundo -> A) : respeta R E (leer f).
Proof. intros w. split; [reflexivity|discriminate]. Qed.

Lemma respeta_lanzar {A} e : E e -> respeta R E (@lanzar A e).
Proof. intros He w. split; [reflexivity|]. by intros e' [= <-]. Qed.

Lemma respeta_modificar f : (forall w, R w (f w)) -> respeta R E (modificar f).
Proof. intros Hf w. split; [apply Hf|discriminate]. Qed.

Lemma respeta_bind {A B} (m : M A) (k : A -> M B) :
  respeta R E m -> (forall a, respeta R E (k a)) -> respeta R E (bind m k).
Proof.
  intros Hm Hk w. unfold bind. specialize (Hm w).
  destruct (m w) as [[a|e] w1]; simpl in *.
  2:{ destruct Hm as [Hm He]. split; [done|]. intros e' [= <-]. by apply He. }
  destruct Hm as [Hm _]. specialize (Hk a w1). destruct Hk as [Hk1 Hk2].
  split; [by etrans|done].
Qed.

Lemma respeta_intentar {A} E' (m : M A) (h : error -> M A) :
  respeta R E' m -> (forall e, E' e -> respeta R E (h e)) -> respeta R E (intentar m h).
Proof.
  intros Hm Hh w. unfold intentar. specialize (Hm w).
  destruct (m w) as [[a|e] w1]; simpl in *; [split; [tauto|discriminate]|].
  destruct Hm as [Hm He]. destruct (Hh e (He e eq_refl) w1) as [H1 H2].
  split; [by etrans|done].
Qed.

Lemma respeta_debil {A} (E' : error -> Prop) (m : M A) :
  respeta R E' m -> (forall e, E' e -> E e) -> respeta R E m.
Proof. intros Hm HE w. destruct (Hm w) as [H1 H2]. split; [done|]. intros e He. auto. Qed.

Context `{!Ambiental R}.

Lemma respeta_llamada : E Rechazo -> respeta R E llamada.
Proof.
  intros HE w. unfold llamada. destruct (fallos w) as [|[] l]; simpl.
  - split; [reflexivity|discriminate].
  - split; [apply ambiental_fallos|]. by intros e [= <-].
  - split; [apply ambiental_fallos|discriminate].
Qed.

Lemma respeta_random_floor n : respeta R E (random_floor n).
Proof. intros w. split; [apply ambiental_sorteos|discriminate]. Qed.

Lemma respeta_auto_id : respeta R E auto_id.
Proof. intros w. split; [apply ambiental_generados|discriminate]. Qed.
End Marco.

Ltac marco_paso :=
  first
    [ apply respeta_ret
    | apply respeta_leer
    | apply respeta_llamada
    | apply respeta_random_floor
    | apply respeta_auto_id
    | apply respeta_bind
    | apply respeta_lanzar
    | apply respeta_modificar
    | match goal with
      | |- respeta _ _ (match ?x with _ => _ end) => destruct x
      | |- respeta _ _ (let '(_, _) := ?x in _) => destruct x
      end ].

Ltac marco_con fin := repeat (intros; marco_paso; try apply _; try done; try (solve [fin])).
Ltac marco := marco_con idtac.

(** *** Existing event documents are kept, and only rejections escape *)

Global Instance conserva_eventos_preorden : PreOrder conserva_eventos.
Proof.
  split.
  - by intros w k v.
  - intros w1 w2 w3 H1 H2 k v Hk. by apply H2, H1.
Qed.

Global Instance conserva_eventos_ambiental : Ambiental conserva_eventos.
Proof. split; by intros ? w k v. Qed.

Ltac fin_ce := by intros ? ? ?.

Lemma actualizarBalance_ce d a m x :
  respeta conserva_eventos es_rechazo (actualizarBalance d a m x).
Proof.
  unfold actualizarBalance.
  apply respeta_intentar with (E' := es_rechazo); [apply _ | |].
  - unfold doc_get, doc_update, doc_set, now. marco_con fin_ce.
  - intros e He. marco.
Qed.

Lemma calcularBalances_ce evento :
  respeta conserva_eventos es_rechazo (calcularBalances evento).
Proof.
  unfold calcularBalances.
  apply respeta_intentar with (E' := es_rechazo); [apply _ | |].
  - generalize (o_bien (Ev.quien_pago evento) (Ev.creado_por evento)). intros q.
    induction (Ev.participantes evento) as [|p ps IH]; simpl; [marco|].
    destruct (String.eqb (uid p) q); [done|].
    apply respeta_bind; [apply _|apply actualizarBalance_ce|done].
  - intros e He. marco.
Qed.

Lemma generarTokenInvitacion_ce n :
  respeta conserva_eventos es_rechazo (generarTokenInvitacion n).
Proof.
  unfold generarTokenInvitacion. generalize "". induction n as [|n IH]; intros t; simpl.
  - marco.
  - apply respeta_bind; [apply _|apply respeta_random_floor; apply _|]. intros i. apply IH.
Qed.

Lemma crearInvitacion_ce eventoId creadorUid :
  respeta conserva_eventos es_rechazo (crearInvitacion eventoId creadorUid).
Proof.
  unfold crearInvitacion.
  apply respeta_intentar with (E' := es_rechazo); [apply _ | |].
  - apply respeta_bind; [apply _|apply generarTokenInvitacion_ce|].
    intros token. unfold doc_add, now. marco_con fin_ce.
  - intros e He. marco.
Qed.

Lemma doc_add_eventos_ce nuevo :
  respeta conserva_eventos es_rechazo (doc_add eventos con_eventos nuevo).
Proof.
  unfold doc_add.
  apply respeta_bind; [apply _|by apply respeta_llamada; try apply _|]. intros _.
  apply respeta_bind; [apply _|apply respeta_auto_id; apply _|]. intros k.
  intros w. unfold bind, leer, modificar, lanzar, ret. simpl.
  destruct (eventos w !! k) as [v0|] eqn:Hk; simpl.
  - split; [by intros k' v|]. by intros e [= <-].
  - split; [|discriminate]. intros k' v Hv. simpl.
    rewrite lookup_insert_ne; [done|]. intros <-. congruence.
Qed.

Lemma bucle_token_spec n token w :
  bucle_token n token w
  = (Ok (token_de (azar w) (sorteos w) n token), con_sorteos (sorteos w + n) w).
Proof.
  revert token w. induction n as [|n IH]; intros token w; simpl.
  - rewrite Nat.add_0_r. by destruct w.
  - unfold bind, random_floor. rewrite IH. simpl. f_equal.
    unfold con_sorteos. simpl. f_equal. lia.
Qed.

(** [crearEventoRecurrente] under any schedule: the token has been drawn
    when [add()] refuses the literal, and the [catch] block re-throws. *)
Lemma crearEventoRecurrente_lanza original w :
  crearEventoRecurrente original w
  = (Err error_indefinido, con_sorteos (sorteos w + longitud_por_defecto) w).
Proof.
  unfold crearEventoRecurrente, intentar. cbv zeta. unfold now, generarTokenInvitacion.
  unfold bind at 1. unfold leer at 1. unfold bind at 1. rewrite bucle_token_spec.
  reflexivity.
Qed.

Lemma crearEventoRecurrente_ce evento :
  respeta conserva_eventos (fun e => e = error_indefinido) (crearEventoRecurrente evento).
Proof.
  intros w. rewrite crearEventoRecurrente_lanza. split; [by intros k v|].
  by intros e [= <-].
Qed.

Lemma enviarNotificacionPush_ce usuario n :
  respeta conserva_eventos nunca (enviarNotificacionPush usuario n).
Proof.
  unfold enviarNotificacionPush.
  apply respeta_intentar with (E' := cualquiera); [apply _ | |].
  - marco_con fin_ce.
  - intros e _. marco.
Qed.

Lemma enviarNotificacionesCierre_ce evento :
  respeta conserva_eventos nunca (enviarNotificacionesCierre evento).
Proof.
  unfold enviarNotificacionesCierre.
  apply respeta_intentar with (E' := cualquiera); [apply _ | |].
  - generalize (o_bien (Ev.quien_pago evento) (Ev.creado_por evento)). intros q.
    induction (Ev.participantes evento) as [|p ps IH]; simpl; [marco|].
    destruct (String.eqb (uid p) q); [done|].
    apply respeta_bind; [apply _| |done].
    eapply respeta_debil; [apply enviarNotificacionPush_ce|done].
  - intros e _. marco.
Qed.

(** What can escape from the body of the close handler: a rejection, the
    validation error for a payer that is set and is no participant, or, for
    a monthly event, the refusal of the recurring event. *)
Lemma cuerpo_cierre_ce before after :
  respeta conserva_eventos
    (fun e => e = Rechazo
              \/ (exists q, Ev.quien_pago after = Some q /\ q <> ""
                             /\ es_participante q (Ev.participantes after) = false
                             /\ e = error_no_participante q)
              \/ (Ev.repeticion after = mensual /\ e = error_indefinido))
    (cuerpo_cierre before after).
Proof.
  unfold cuerpo_cierre.
  destruct (_ && _); [|marco].
  apply respeta_bind; [apply _| |intros _].
  { destruct (Ev.quien_pago after) as [q|] eqn:Hq; [|marco].
    destruct (String.eqb_spec q "") as [->|Hne]; simpl; [marco|].
    destruct (es_participante q _) eqn:Hp; simpl; [marco|].
    apply respeta_lanzar; [apply _|]. right. left. by exists q. }
  apply respeta_bind; [apply _| |intros _].
  { eapply respeta_debil; [apply calcularBalances_ce|]. by left. }
  apply respeta_bind; [apply _| |intros _].
  { case_bool_decide as Hm; [|marco].
    eapply respeta_debil; [apply crearEventoRecurrente_ce|]. intros e ->. by right; right. }
  eapply respeta_debil; [apply enviarNotificacionesCierre_ce|]. intros e [].
Qed.

(** ** The close handler *)

(** The compensating write followed by the re-raise, case by case. *)
Lemma revertir_y_relanzar eventoId e w :
  (doc_update eventos con_eventos eventoId revertir ;; @lanzar unit e) w
  = if siguiente_falla w then (Err Rechazo, avanzar w)
    else match eventos w !! eventoId with
         | Some ev => (Err e, con_eventos (insert eventoId (revertir ev)) (avanzar w))
         | None => (Err Rechazo, avanzar w)
         end.
Proof.
  unfold siguiente_falla, avanzar.
  cbv beta iota delta [bind doc_update leer modificar lanzar llamada].
  destruct w as [ev b i u a f ar en r az so au g fa]; simpl.
  destruct fa as [|[] l]; simpl; try reflexivity; destruct (ev !! eventoId); reflexivity.
Qed.

Lemma onEventoUpdate_cierre_casos eventoId before after w :
  onEventoUpdate_cierre eventoId before after w
  = match cuerpo_cierre before after w with
    | (Ok a, w1) => (Ok a, w1)
    | (Err e, w1) =>
        if siguiente_falla w1 then (Err Rechazo, avanzar w1)
        else match eventos w1 !! eventoId with
             | Some ev => (Err e, con_eventos (insert eventoId (revertir ev)) (avanzar w1))
             | None => (Err Rechazo, avanzar w1)
             end
    end.
Proof.
  unfold onEventoUpdate_cierre, intentar.
  destruct (cuerpo_cierre before after w) as [[[]|e] w1]; [reflexivity|].
  apply revertir_y_relanzar.
Qed.

Lemma cuerpo_cierre_intruso before after q w :
  Ev.estado before = abierto -> Ev.estado after = cerrado ->
  Ev.quien_pago after = Some q -> q <> "" ->
  es_participante q (Ev.participantes after) = false ->
  cuerpo_cierre before after w = (Err (error_no_participante q), w).
Proof.
  intros Hb Ha Hq Hne Hp. unfold cuerpo_cierre.
  rewrite Hb, Ha, Hq, Hp. apply String.eqb_neq in Hne. rewrite Hne. reflexivity.
Qed.

(** C3, as amended. On an open-to-closed transition of the event stored
    under [eventoId]: when [quien_pago] is set (present and not empty) to an
    identity that is not in [participantes], the body of the handler fails
    at once with the error "Usuario ... no es participante del evento" (the
    invalid-state failure) before anything is written. Whatever makes the
    body fail, the handler then issues the compensating write. If that write
    is accepted, the stored event is the one that was closed with [estado]
    back to 'abierto' and [quien_pago] and [fecha_pago] deleted, and the
    error of the body is re-raised. If the compensating write is itself
    rejected, the event stays as it was stored, closed, and the rejection of
    the write is what the handler raises. A body that succeeds is not
    followed by any compensating write. *)
Theorem onEventoUpdate_cierre_revierte
    (eventoId : string) (before after : Evento) (w : Mundo) :
  Ev.estado before = abierto -> Ev.estado after = cerrado ->
  eventos w !! eventoId = Some after ->
  (forall q, Ev.quien_pago after = Some q -> q <> "" ->
     es_participante q (Ev.participantes after) = false ->
     cuerpo_cierre before after w = (Err (error_no_participante q), w)
     /\ (siguiente_falla w = false ->
         onEventoUpdate_cierre eventoId before after w
         = (Err (error_no_participante q),
            con_eventos (insert eventoId (revertir after)) (avanzar w)))
     /\ (siguiente_falla w = true ->
         onEventoUpdate_cierre eventoId before after w = (Err Rechazo, avanzar w)))
  /\ (forall e' w',
        onEventoUpdate_cierre eventoId before after w = (Err e', w') ->
        exists e w1,
          cuerpo_cierre before after w = (Err e, w1)
          /\ ((siguiente_falla w1 = false /\ e' = e
               /\ eventos w' !! eventoId = Some (revertir after))
              \/ (siguiente_falla w1 = true /\ e' = Rechazo
                  /\ eventos w' !! eventoId = Some after)))
  /\ (Ev.estado (revertir after) = abierto
      /\ Ev.quien_pago (revertir after) = None
      /\ Ev.fecha_pago (revertir after) = None
      /\ Ev.monto (revertir after) = Ev.monto after
      /\ Ev.participantes (revertir after) = Ev.participantes after)
  /\ (forall w1, cuerpo_cierre before after w = (Ok tt, w1) ->
        onEventoUpdate_cierre eventoId before after w = (Ok tt, w1)).
Proof.
  intros Hb Ha Hev. repeat split.
  - by apply cuerpo_cierre_intruso.
  - intros Hsf. rewrite onEventoUpdate_cierre_casos, (cuerpo_cierre_intruso _ _ q) by done.
    by rewrite Hsf, Hev.
  - intros Hsf. rewrite onEventoUpdate_cierre_casos, (cuerpo_cierre_intruso _ _ q) by done.
    by rewrite Hsf.
  - intros e' w' Hh. rewrite onEventoUpdate_cierre_casos in Hh.
    destruct (cuerpo_cierre_ce before after w) as [Hce _].
    destruct (cuerpo_cierre before after w) as [[[]|e] w1]; [discriminate|].
    simpl in Hce. specialize (Hce _ _ Hev). exists e, w1. split; [done|].
    destruct (siguiente_falla w1).
    + right. injection Hh as <- <-. done.
    + left. rewrite Hce in Hh. injection Hh as <- <-. simpl.
      by rewrite lookup_insert_eq.
  - intros w1 Hc. by rewrite onEventoUpdate_cierre_casos, Hc.
Qed.

Lemma onEventoUpdate_cierre_revierte_witness :
  onEventoUpdate_cierre "e3" evento_intruso_abierto evento_intruso mundo_intruso
  = (Err (error_no_participante "u9"),
     con_eventos (insert "e3" (revertir evento_intruso)) (avanzar mundo_intruso)).
Proof.
  apply (onEventoUpdate_cierre_revierte "e3" evento_intruso_abierto evento_intruso
           mundo_intruso eq_refl eq_refl eq_refl);
    [reflexivity | discriminate | reflexivity | reflexivity].
Defined.

(** The claim C3 as first stated fails when the compensating write is
    rejected: the payer u9 is no participant of the closed event e3, the
    store rejects the next call, and the handler ends with that rejection
    (not with the validation error) while the stored event is still
    'cerrado' with [quien_pago] and [fecha_pago] in place. *)
Lemma onEventoUpdate_cierre_queda_cerrado :
  let r := onEventoUpdate_cierre "e3" evento_intruso_abierto evento_intruso
             mundo_intruso_caido in
  Ev.estado evento_intruso_abierto = abierto
  /\ Ev.estado evento_intruso = cerrado
  /\ Ev.quien_pago evento_intruso = Some "u9"
  /\ es_participante "u9" (Ev.participantes evento_intruso) = false
  /\ eventos mundo_intruso_caido !! "e3" = Some evento_intruso
  /\ r.1 = Err Rechazo
  /\ r.1 <> Err (error_no_participante "u9")
  /\ eventos r.2 !! "e3" = Some evento_intruso
  /\ Ev.estado <$> eventos r.2 !! "e3" = Some cerrado
  /\ Ev.quien_pago <$> eventos r.2 !! "e3" = Some (Some "u9")
  /\ Ev.fecha_pago <$> eventos r.2 !! "e3" = Some (Some 1700000000500).
Proof.
  repeat split; try (vm_compute; reflexivity).
  vm_compute. discriminate.
Qed.

(** ** The invitation gate: [joinByToken] *)

Lemma primero_por_id_lista {A} (P : A -> bool) (l : list (string * A)) k v :
  foldr (fun kv acc =>
           if P kv.2
           then match acc with
                | Some kv' => if String.ltb kv.1 kv'.1 then Some kv else acc
                | None => Some kv
                end
           else acc) None l = Some (k, v) ->
  (k, v) ∈ l /\ P v = true.
Proof.
  induction l as [|[k0 v0] l IH]; simpl; [discriminate|].
  destruct (P v0) eqn:HP.
  - destruct (foldr _ _ l) as [[k1 v1]|] eqn:Hr.
    + simpl. destruct (String.ltb k0 k1); intros [= <- <-].
      * split; [left|done].
      * destruct (IH eq_refl) as [? ?]. split; [by right|done].
    + intros [= <- <-]. split; [left|done].
  - intros H. destruct (IH H) as [? ?]. split; [by right|done].
Qed.

Lemma primero_por_id_Some {A} (P : A -> bool) (m : gmap string A) k v :
  primero_por_id P m = Some (k, v) -> m !! k = Some v /\ P v = true.
Proof.
  intros H. apply primero_por_id_lista in H as [H ?].
  split; [by apply elem_of_map_to_list|done].
Qed.

Lemma primero_por_id_None {A} (P : A -> bool) (m : gmap string A) :
  primero_por_id P m = None <-> forall k v, m !! k = Some v -> P v = false.
Proof.
  unfold primero_por_id. split.
  - intros H k v Hk. apply elem_of_map_to_list in Hk.
    induction (map_to_list m) as [|[k0 v0] l IH]; [by apply elem_of_nil in Hk|].
    simpl in H. destruct (P v0) eqn:HP.
    + destruct (foldr _ _ l) as [[k1 v1]|]; [simpl in H; destruct (String.ltb k0 k1)|];
        discriminate.
    + apply elem_of_cons in Hk as [[= -> ->]|Hk]; [done|by apply IH].
  - intros H.
    assert (Hl : forall k v, (k, v) ∈ map_to_list m -> P v = false)
      by (intros k v Hk; apply (H k); by apply elem_of_map_to_list).
    clear H. induction (map_to_list m) as [|[k0 v0] l IH]; [done|].
    simpl. rewrite (Hl k0 v0) by left. apply IH. intros k v Hk. apply (Hl k). by right.
Qed.

Lemma registrarAuditoria_sin_fallos a w :
  sin_fallos w ->
  registrarAuditoria a w = (Ok tt, con_auditorias (fun l => (l ++ [a])%list) w).
Proof.
  intros Hf. red in Hf.
  cbv beta iota delta [registrarAuditoria intentar bind modificar llamada].
  by rewrite Hf.
Qed.

Lemma enviarNotificacionPush_sin_fallos usuario n w :
  sin_fallos w ->
  enviarNotificacionPush usuario n w
  = (Ok tt,
     match List.find (fun d => String.eqb (userId d) usuario && active d) (fcm_tokens w) with
     | Some d => con_enviados (fun l => (l ++ [mkMensaje (fcm_token d) n])%list) w
     | None => w
     end).
Proof.
  intros Hf. red in Hf.
  cbv beta iota delta [enviarNotificacionPush intentar bind modificar leer ret llamada].
  rewrite Hf. destruct (List.find _ _); [by rewrite Hf|done].
Qed.

Lemma joinByToken_sin_fallos data context w :
  sin_fallos w ->
  joinByToken data context w
  = match auth context with
    | None => (Err (HttpsError unauthenticated "Usuario no autenticado"), w)
    | Some userId =>
        if negb (verdadero (d_token data))
        then (Err (HttpsError invalid_argument "Token de invitación requerido"), w)
        else
          let token := o_bien (d_token data) "" in
          match invitacion_de w token with
          | None => (Err (HttpsError not_found "Token de invitación inválido"), w)
          | Some (invitacionId, invitacion) =>
              if expirada invitacion (reloj w)
              then (Err (HttpsError deadline_exceeded "Token de invitación expirado"), w)
              else if agotada invitacion
              then (Err (HttpsError resource_exhausted "Token de invitación agotado"), w)
              else
                match eventos w !! Inv.evento_id invitacion with
                | None => (Err (HttpsError not_found "Evento no encontrado"), w)
                | Some evento =>
                    if negb (bool_decide (Ev.estado evento = abierto))
                    then (Err (HttpsError failed_precondition "Evento ya cerrado"), w)
                    else if es_participante userId (Ev.participantes evento)
                    then (Err (HttpsError already_exists
                                 "Usuario ya es participante del evento"), w)
                    else
                      (Ok (Resp.mk true
                             (Resp.mk_evento (Ev.id evento) (Ev.titulo evento)
                                (S (length (Ev.participantes evento))))),
                       tras_unirse w userId token invitacionId invitacion evento)
                end
          end
    end.
Proof.
  intros Hf. unfold joinByToken, intentar.
  destruct (auth context) as [userId|]; [|reflexivity].
  destruct (negb (verdadero (d_token data))); [reflexivity|].
  cbv zeta. unfold invitacion_de.
  unfold bind at 1. unfold consultar_token at 1. unfold bind at 1.
  rewrite (llamada_sin_fallos w Hf). unfold leer at 1.
  destruct (primero_por_id _ _) as [[invitacionId invitacion]|] eqn:Hinv; [|reflexivity].
  apply primero_por_id_Some in Hinv as [Hinv _].
  unfold bind at 1. unfold now at 1, leer at 1. fold (expirada invitacion (reloj w)).
  destruct (expirada invitacion (reloj w)); [reflexivity|].
  fold (agotada invitacion). destruct (agotada invitacion); [reflexivity|].
  unfold bind at 1. unfold doc_get at 1. unfold bind at 1.
  rewrite (llamada_sin_fallos w Hf). unfold leer at 1.
  destruct (eventos w !! Inv.evento_id invitacion) as [evento|] eqn:Hev; [|reflexivity].
  destruct (negb (bool_decide (Ev.estado evento = abierto))); [reflexivity|].
  destruct (es_participante userId (Ev.participantes evento)); [reflexivity|].
  unfold bind at 1. unfold doc_get at 1. unfold bind at 1.
  rewrite (llamada_sin_fallos w Hf). unfold leer at 1.
  unfold bind at 1. unfold doc_update at 1. unfold bind at 1.
  rewrite (llamada_sin_fallos w Hf). unfold bind at 1. unfold leer at 1. rewrite Hev.
  unfold modificar at 1.
  set (w1 := con_eventos _ w). assert (Hf1 : sin_fallos w1) by exact Hf.
  unfold bind at 1. unfold doc_update at 1. unfold bind at 1.
  rewrite (llamada_sin_fallos w1 Hf1). unfold bind at 1. unfold leer at 1.
  change (invitaciones w1) with (invitaciones w). rewrite Hinv. unfold modificar at 1.
  set (w2 := con_invitaciones _ w1). assert (Hf2 : sin_fallos w2) by exact Hf.
  unfold bind at 1. unfold now at 1, leer at 1.
  unfold bind at 1. rewrite (registrarAuditoria_sin_fallos _ w2 Hf2).
  set (w3 := con_auditorias _ w2). assert (Hf3 : sin_fallos w3) by exact Hf.
  unfold bind at 1. unfold enviarNotificacionNuevoParticipante, intentar.
  rewrite (enviarNotificacionPush_sin_fallos _ _ w3 Hf3).
  unfold ret. f_equal.
  - by rewrite length_app, length_map, Nat.add_1_r.
Qed.

Lemma es_participante_spec u ps :
  es_participante u ps = true <-> exists P, P ∈ ps /\ uid P = u.
Proof.
  unfold es_participante. split.
  - destruct (List.find _ ps) as [P|] eqn:Hf; [|discriminate]. intros _.
    apply List.find_some in Hf as [Hin Heq]. exists P.
    split; [by apply list_elem_of_In|by apply String.eqb_eq].
  - intros (P & HP & <-). destruct (List.find _ ps) as [Q|] eqn:Hf; [done|].
    apply list_elem_of_In in HP. apply (List.find_none _ _ Hf) in HP.
    by rewrite String.eqb_refl in HP.
Qed.

Lemma tras_unirse_eventos w u t iid inv ev :
  eventos (tras_unirse w u t iid inv ev)
  = <[Inv.evento_id inv :=
        con_participantes
          (redeem_spec u (resolver_alias (usuarios w !! u)) (Ev.participantes ev)) ev]>
      (eventos w).
Proof. unfold tras_unirse. by destruct (List.find _ _). Qed.

Lemma length_redeem_spec u a ps : length (redeem_spec u a ps) = S (length ps).
Proof. unfold redeem_spec. by rewrite length_app, length_map, Nat.add_1_r. Qed.


(** *** Rules for weakest preconditions *)

Lemma wp_ret {A} (a : A) Q QE w : Q a w -> wp (ret a) Q QE w.
Proof. done. Qed.

Lemma wp_lanzar {A} e (Q : A -> Mundo -> Prop) QE w : QE e w -> wp (lanzar e) Q QE w.
Proof. done. Qed.

Lemma wp_leer {A} (f : Mundo -> A) Q QE w : Q (f w) w -> wp (leer f) Q QE w.
Proof. done. Qed.

Lemma wp_modificar f Q QE w : Q tt (f w) -> wp (modificar f) Q QE w.
Proof. done. Qed.

Lemma wp_bind {A B} (m : M A) (k : A -> M B) Q QE w :
  wp m (fun a w' => wp (k a) Q QE w') QE w -> wp (bind m k) Q QE w.
Proof. unfold wp, bind. by destruct (m w) as [[a|e] w']. Qed.

Lemma wp_intentar {A} (m : M A) (h : error -> M A) Q QE w :
  wp m Q (fun e w' => wp (h e) Q QE w') w -> wp (intentar m h) Q QE w.
Proof. unfold wp, intentar. by destruct (m w) as [[a|e] w']. Qed.

Lemma con_fallos_mismo w : con_fallos (fallos w) w = w.
Proof. by destruct w. Qed.

Lemma wp_llamada Q QE w :
  (forall l, Q tt (con_fallos l w)) -> (forall l, QE Rechazo (con_fallos l w)) ->
  wp llamada Q QE w.
Proof.
  intros HQ HE. unfold wp, llamada. destruct (fallos w) as [|[] l] eqn:Hf; [|done..].
  rewrite <- (con_fallos_mismo w). apply HQ.
Qed.

Ltac wp_paso :=
  lazymatch goal with
  | |- wp (bind _ _) _ _ _ => apply wp_bind
  | |- wp (ret _) _ _ _ => apply wp_ret
  | |- wp (lanzar _) _ _ _ => apply wp_lanzar
  | |- wp (leer _) _ _ _ => apply wp_leer
  | |- wp (modificar _) _ _ _ => apply wp_modificar
  | |- wp llamada _ _ _ => apply wp_llamada; intros ?
  | |- wp (intentar _ _) _ _ _ => apply wp_intentar
  | |- wp (match ?x with _ => _ end) _ _ _ => destruct x eqn:?
  | |- wp now _ _ _ => unfold now
  | |- wp (doc_get _ _) _ _ _ => unfold doc_get
  | |- wp (doc_set _ _ _) _ _ _ => unfold doc_set
  | |- wp (doc_update _ _ _ _) _ _ _ => unfold doc_update
  | |- wp (consultar_token _) _ _ _ => unfold consultar_token
  | |- wp (registrarAuditoria _) _ _ _ => unfold registrarAuditoria
  | |- wp (enviarNotificacionPush _ _) _ _ _ => unfold enviarNotificacionPush
  | |- wp (enviarNotificacionNuevoParticipante _ _) _ _ _ =>
      unfold enviarNotificacionNuevoParticipante
  | |- wp (eliminarArchivo _) _ _ _ => unfold eliminarArchivo
  | |- wp (contarArchivosEvento _) _ _ _ => unfold contarArchivosEvento
  end.

(** What a call of [joinByToken] does to the store under any schedule of
    rejections: nothing; or the event gets its new participant and the call
    then either fails with 'internal' before the usage is recorded or
    succeeds with the usage recorded. *)
Lemma joinByToken_wp data context w :
  wp (joinByToken data context)
    (fun _ w' => join_unido data context w w' true)
    (fun e w' =>
       (exists code msg, e = HttpsError code msg)
       /\ (join_intacto w w'
           \/ (e = HttpsError internal "Error interno del servidor"
               /\ join_unido data context w w' false)))
    w.
Proof.
  unfold joinByToken.
  destruct (auth context) as [usuario|] eqn:Hauth.
  2:{ repeat wp_paso. split; [eauto|]. by left. }
  destruct (d_token data) as [token|] eqn:Htok; simpl.
  2:{ repeat wp_paso. split; [eauto|]. by left. }
  destruct (String.eqb token "") eqn:Hvacio; simpl.
  { repeat wp_paso. split; [eauto|]. by left. }
  repeat wp_paso; simpl in *;
    try (split; [by eauto|left; by split]);
    try (split; [by eauto|right; split; [done|]]).
  all: match goal with
       | H : primero_por_id _ _ = Some (?k, ?i) |- _ =>
           pose proof (primero_por_id_Some _ _ _ _ H) as [Hi _]
       end.
  all: match goal with
       | H : negb (bool_decide (Ev.estado ?e = abierto)) = false |- _ =>
           apply negb_false_iff, bool_decide_eq_true in H
       end.
  all: repeat match goal with
         | H1 : ?m !! ?k = Some ?a, H2 : ?m !! ?k = Some ?b |- _ =>
             assert (b = a) by congruence; subst b; clear H2
         end.
  all: match goal with
       | Hi : invitaciones _ !! ?k = Some ?i,
         He : eventos _ !! _ = Some ?e,
         Hu : auth _ = Some ?u,
         Ht : d_token _ = Some ?t |- _ =>
           exists u, t, k, i, e
       end.
  all: repeat split; done.
Qed.

(** [joinByToken_wp] read off a finished run. *)
Lemma joinByToken_forma data context w :
  let r := joinByToken data context w in
  match r.1 with
  | Ok _ => join_unido data context w r.2 true
  | Err e =>
      (exists code msg, e = HttpsError code msg)
      /\ (join_intacto w r.2
          \/ (e = HttpsError internal "Error interno del servidor"
              /\ join_unido data context w r.2 false))
  end.
Proof.
  intros r. pose proof (joinByToken_wp data context w) as H. unfold wp in H.
  fold r in H. by destruct r as [[resp|e] w'].
Qed.



Lemma agotada_spec i : agotada i = true <-> (Inv.max_usos i <= Inv.usos i)%Z.
Proof. unfold agotada. apply Z.leb_le. Qed.

Lemma agotada_false i : agotada i = false <-> (Inv.usos i < Inv.max_usos i)%Z.
Proof. unfold agotada. apply Z.leb_gt. Qed.

Lemma joinByToken_usos_acotados data context w :
  usos_acotados w -> usos_acotados (joinByToken data context w).2.
Proof.
  intros Hw. pose proof (joinByToken_forma data context w) as H. simpl in H.
  assert (Hu : forall b, join_unido data context w (joinByToken data context w).2 b ->
                         usos_acotados (joinByToken data context w).2).
  { intros b (u & t & iid & inv & ev & _ & _ & Hi & _ & Hag & _ & _ & _ & _ & Hinv).
    intros k i. rewrite Hinv. destruct b; [|apply Hw].
    apply primero_por_id_Some in Hi as [Hi _]. apply agotada_false in Hag.
    destruct (decide (iid = k)) as [->|Hne].
    - rewrite lookup_insert_eq. intros [= <-]. simpl. lia.
    - rewrite lookup_insert_ne by done. apply Hw. }
  destruct (joinByToken data context w).1 as [resp|e]; [by apply (Hu true)|].
  destruct H as [_ [[_ Hi]|[_ H]]]; [|by apply (Hu false)].
  intros k i. rewrite Hi. apply Hw.
Qed.

Lemma paso_join_usos_acotados w w' :
  paso_join w w' -> usos_acotados w -> usos_acotados w'.
Proof.
  intros [(data & context & ->)|[_ Hi]] Hw.
  - by apply joinByToken_usos_acotados.
  - intros k i. rewrite Hi. apply Hw.
Qed.

(** C6. Redemptions never drive [usos] above [max_usos]: along any sequence
    of calls of [joinByToken] (by any caller, with any token, under any
    schedule of rejections, the clock free to move between calls), if every
    invitation starts with [usos <= max_usos] then every invitation still
    has it at the end. A call that fails leaves every invitation as it was;
    a call that succeeds increments [usos] by one on the invitation its
    token resolves to, which had [usos < max_usos], and on no other. Once
    [usos >= max_usos] on the invitation a token resolves to, every call
    with that token fails; with an authenticated caller, an invitation that
    has not expired and a store that answers, the failure is
    'resource-exhausted' and nothing is written. In scenario B (an
    invitation with [max_usos = 1]) the first redemption succeeds and
    brings [usos] to 1, and a second one with the same token fails with
    'resource-exhausted'. *)
Theorem joinByToken_usos :
  (forall w w', rtc paso_join w w' -> usos_acotados w -> usos_acotados w')
  /\ (forall data context w,
        let r := joinByToken data context w in
        (forall e, r.1 = Err e -> invitaciones r.2 = invitaciones w)
        /\ (forall resp, r.1 = Ok resp ->
            exists token invitacionId invitacion,
              d_token data = Some token
              /\ invitacion_de w token = Some (invitacionId, invitacion)
              /\ invitaciones w !! invitacionId = Some invitacion
              /\ (Inv.usos invitacion < Inv.max_usos invitacion)%Z
              /\ Inv.usos (incrementar_usos invitacion) = (Inv.usos invitacion + 1)%Z
              /\ Inv.max_usos (incrementar_usos invitacion) = Inv.max_usos invitacion
              /\ invitaciones r.2
                 = <[invitacionId := incrementar_usos invitacion]> (invitaciones w))
        /\ (forall token invitacionId invitacion,
              d_token data = Some token ->
              invitacion_de w token = Some (invitacionId, invitacion) ->
              (Inv.max_usos invitacion <= Inv.usos invitacion)%Z ->
              (exists code msg, r.1 = Err (HttpsError code msg))
              /\ invitaciones r.2 = invitaciones w
              /\ eventos r.2 = eventos w
              /\ (sin_fallos w -> is_Some (auth context) -> token <> "" ->
                  expirada invitacion (reloj w) = false ->
                  r = (Err (HttpsError resource_exhausted "Token de invitación agotado"),
                       w))))
  /\ (let primera :=
        joinByToken (mkDatosJoin (Some "tok1")) (mkContexto (Some "u2")) mundo_invitacion in
      let segunda :=
        joinByToken (mkDatosJoin (Some "tok1")) (mkContexto (Some "u3")) primera.2 in
      Inv.max_usos <$> invitaciones mundo_invitacion !! "tok1" = Some 1%Z
      /\ Inv.usos <$> invitaciones mundo_invitacion !! "tok1" = Some 0%Z
      /\ primera.1 = Ok (Resp.mk true (Resp.mk_evento "ev1" "Supermercado" 2))
      /\ Inv.usos <$> invitaciones primera.2 !! "tok1" = Some 1%Z
      /\ segunda.1 = Err (HttpsError resource_exhausted "Token de invitación agotado")
      /\ Inv.usos <$> invitaciones segunda.2 !! "tok1" = Some 1%Z
      /\ eventos segunda.2 = eventos primera.2).
Proof.
  split.
  { intros w w' Hrtc. induction Hrtc as [|w1 w2 w3 Hp _ IH]; [done|].
    intros Hw. apply IH. by eapply paso_join_usos_acotados. }
  split.
  { intros data context w r. pose proof (joinByToken_forma data context w) as H.
    fold r in H. simpl in H. split; [|split].
    - intros e He. rewrite He in H.
      destruct H as [_ [[_ Hi]|[_ (u & t & iid & inv & ev & H)]]]; [done|].
      by destruct H as (_ & _ & _ & _ & _ & _ & _ & _ & _ & Hinv).
    - intros resp Hr. rewrite Hr in H.
      destruct H as (u & t & iid & inv & ev & _ & Ht & Hi & _ & Hag & _ & _ & _ & _ & Hinv).
      exists t, iid, inv. apply agotada_false in Hag.
      unfold invitacion_de in Hi.
      pose proof (primero_por_id_Some _ _ _ _ Hi) as [Hl _]. done.
    - intros token iid inv Ht Hi Hag.
      assert (Hno : forall b, ~ join_unido data context w r.2 b).
      { intros b (u & t' & iid' & inv' & ev & _ & Ht' & Hi' & _ & Hag' & _).
        rewrite Ht in Ht'. injection Ht' as <-. rewrite Hi in Hi'.
        injection Hi' as <- <-. apply agotada_false in Hag'. lia. }
      destruct r.1 as [resp|e] eqn:Hr; [by destruct (Hno true)|].
      destruct H as [Hc [[He' Hi']|[_ H]]]; [|by destruct (Hno false)].
      destruct Hc as (c & m & ->). split; [eauto|]. split; [done|]. split; [done|].
      intros Hf [u Hu] Hne Hex. unfold r.
      rewrite (joinByToken_sin_fallos data context w Hf), Hu, Ht. simpl.
      apply String.eqb_neq in Hne. rewrite Hne. simpl. rewrite Hi, Hex.
      apply agotada_spec in Hag. by rewrite Hag. }
  repeat split; vm_compute; reflexivity.
Qed.

Lemma joinByToken_usos_witness :
  usos_acotados
    (joinByToken (mkDatosJoin (Some "tok1")) (mkContexto (Some "u2")) mundo_invitacion).2.
Proof.
  apply (proj1 joinByToken_usos mundo_invitacion).
  - apply rtc_once. left. by eexists _, _.
  - intros k i. unfold mundo_invitacion. simpl. intros H.
    apply lookup_singleton_Some in H as [_ <-]. simpl. lia.
Defined.

(** ** Equal split *)

Lemma Qc_of_nat_S n : Qc_of_Z (Z.of_nat (S n)) = Qc_of_Z (Z.of_nat n + 1).
Proof. f_equal. lia. Qed.

Lemma Qc_of_nat_S_neq0 n : Qc_of_Z (Z.of_nat (S n)) <> 0%Qc.
Proof. rewrite <- Z2Qc_inj_0. intros H. apply Z2Qc_inj in H. lia. Qed.

Lemma new_fraction_spec ps :
  new_fraction ps = (1 / Qc_of_Z (Z.of_nat (S (length ps))))%Qc.
Proof. unfold new_fraction. by rewrite Qc_of_nat_S. Qed.

Lemma participacion_redeem_spec u a ps P :
  P ∈ redeem_spec u a ps -> participacion P = new_fraction ps.
Proof.
  unfold redeem_spec. rewrite elem_of_app, list_elem_of_fmap, list_elem_of_singleton.
  intros [(Q & -> & _)| ->]; reflexivity.
Qed.

Lemma reparto_igual_redeem_spec u a ps : reparto_igual (redeem_spec u a ps).
Proof.
  intros P HP. rewrite (participacion_redeem_spec _ _ _ _ HP).
  by rewrite length_redeem_spec, new_fraction_spec.
Qed.

Lemma suma_constante q ps :
  (forall P, P ∈ ps -> participacion P = q) ->
  suma_participaciones ps = (Qc_of_Z (Z.of_nat (length ps)) * q)%Qc.
Proof.
  induction ps as [|P ps IH]; intros H.
  - cbn [length suma_participaciones]. change (Z.of_nat 0) with 0%Z.
    rewrite Z2Qc_inj_0. ring.
  - simpl suma_participaciones. rewrite IH by (intros Q HQ; apply H; by right).
    rewrite (H P) by left. cbn [length]. rewrite Qc_of_nat_S, Z2Qc_inj_add, Z2Qc_inj_1. ring.
Qed.

Lemma suma_reparto_igual ps :
  ps <> [] -> reparto_igual ps -> suma_participaciones ps = 1%Qc.
Proof.
  intros Hne H. rewrite (suma_constante _ _ H).
  destruct ps as [|P ps]; [done|].
  apply Qcmult_div_r. apply Qc_of_nat_S_neq0.
Qed.

Lemma suma_redeem_spec u a ps : suma_participaciones (redeem_spec u a ps) = 1%Qc.
Proof.
  apply suma_reparto_igual; [|apply reparto_igual_redeem_spec].
  intros H. apply (f_equal length) in H. by rewrite length_redeem_spec in H.
Qed.

Lemma join_unido_bien_repartido data context w w' b k :
  join_unido data context w w' b -> bien_repartido k w -> bien_repartido k w'.
Proof.
  intros (u & t & iid & inv & ev & _ & _ & _ & _ & _ & _ & _ & _ & Hev & _) (ev0 & Hk & H1 & H2).
  unfold bien_repartido. rewrite Hev.
  destruct (decide (Inv.evento_id inv = k)) as [->|Hne].
  - rewrite lookup_insert_eq. eexists. split; [done|]. simpl.
    split; [apply reparto_igual_redeem_spec|apply suma_redeem_spec].
  - rewrite lookup_insert_ne by done. by exists ev0.
Qed.

Lemma paso_join_bien_repartido w w' k :
  paso_join w w' -> bien_repartido k w -> bien_repartido k w'.
Proof.
  intros [(data & context & ->)|[He _]] Hk.
  - pose proof (joinByToken_forma data context w) as H. simpl in H.
    destruct (joinByToken data context w).1 as [resp|e].
    + by eapply join_unido_bien_repartido.
    + destruct H as [_ [[He _]|[_ H]]]; [|by eapply join_unido_bien_repartido].
      unfold bien_repartido. by rewrite He.
  - unfold bien_repartido. by rewrite He.
Qed.

(** ** The alias of a new participant *)

Lemma head_split_local l resto :
  sin_arroba l = true -> head (split "@" (l ++ String "@" resto)) = Some l.
Proof.
  induction l as [|c l IH]; simpl; [done|].
  intros H. apply andb_prop in H as [Hc Hl]. apply negb_true_iff in Hc.
  rewrite Hc. specialize (IH Hl). destruct (split "@" (l ++ String "@" resto)); [done|].
  simpl in *. by injection IH as ->.
Qed.

Lemma resolver_alias_casos :
  resolver_alias None = "Usuario"
  /\ (forall u n, displayName u = Some n -> n <> "" -> resolver_alias (Some u) = n)
  /\ (forall u l resto,
        verdadero (displayName u) = false -> email u = Some (l ++ String "@" resto) ->
        sin_arroba l = true -> l <> "" -> resolver_alias (Some u) = l)
  /\ (forall u resto,
        verdadero (displayName u) = false -> email u = Some (String "@" resto) ->
        resolver_alias (Some u) = "Usuario")
  /\ (forall u, verdadero (displayName u) = false -> email u = None ->
                resolver_alias (Some u) = "Usuario").
Proof.
  assert (Hfalso : forall o b, verdadero o = false -> o_bien o b = b).
  { intros [s|] b; simpl; [|done]. by destruct (String.eqb s ""). }
  unfold resolver_alias. repeat split.
  - intros u n Hn Hne. simpl. rewrite Hn. simpl. apply String.eqb_neq in Hne. by rewrite Hne.
  - intros u l resto Hd He Hl Hne. simpl. rewrite (Hfalso _ _ Hd), He. simpl.
    rewrite (head_split_local _ _ Hl). simpl. apply String.eqb_neq in Hne. by rewrite Hne.
  - intros u resto Hd He. simpl. rewrite (Hfalso _ _ Hd), He. reflexivity.
  - intros u Hd He. simpl. rewrite (Hfalso _ _ Hd), He. reflexivity.
Qed.

(** C4. A successful join ([joinByToken] returning normally, under any
    schedule of rejections) replaces the participants of the event of the
    invitation by the list the specification describes: every existing
    participant with its fraction rewritten to 1 / (old count + 1) and its
    identity and alias kept, followed by the requester with the same
    fraction and the resolved alias; no other event changes. In that list
    every fraction is 1 / n for the new count n and the fractions add up to
    exactly 1 (numbers are exact rationals here). An event that is split in
    equal parts adding up to 1 stays so along any sequence of calls of
    [joinByToken], successful or not, and so does the one-participant list
    with fraction 1 an event is created with. The alias is the
    [displayName] of the profile when it is set, otherwise the part of the
    [email] before the first "@" when that is not empty, otherwise
    "Usuario". *)
Theorem joinByToken_reparto_igual :
  (forall data context w resp,
     let r := joinByToken data context w in
     r.1 = Ok resp ->
     exists usuario token invitacionId invitacion evento,
       auth context = Some usuario
       /\ d_token data = Some token
       /\ invitacion_de w token = Some (invitacionId, invitacion)
       /\ eventos w !! Inv.evento_id invitacion = Some evento
       /\ let viejos := Ev.participantes evento in
          let nombre := resolver_alias (usuarios w !! usuario) in
          let nuevos := redeem_spec usuario nombre viejos in
          eventos r.2 !! Inv.evento_id invitacion = Some (con_participantes nuevos evento)
          /\ (forall k, k <> Inv.evento_id invitacion -> eventos r.2 !! k = eventos w !! k)
          /\ new_fraction viejos = (1 / Qc_of_Z (Z.of_nat (length viejos) + 1))%Qc
          /\ nuevos
             = (map (fun P => mkParticipante (uid P) (alias P) (new_fraction viejos)) viejos
                ++ [mkParticipante usuario nombre (new_fraction viejos)])%list
          /\ length nuevos = S (length viejos)
          /\ (forall P, P ∈ nuevos ->
                        participacion P = (1 / Qc_of_Z (Z.of_nat (length nuevos)))%Qc)
          /\ suma_participaciones nuevos = 1%Qc
          /\ bien_repartido (Inv.evento_id invitacion) r.2)
  /\ (forall w w' k, rtc paso_join w w' -> bien_repartido k w -> bien_repartido k w')
  /\ (forall u a, reparto_igual [mkParticipante u a 1%Qc]
                  /\ suma_participaciones [mkParticipante u a 1%Qc] = 1%Qc)
  /\ (resolver_alias None = "Usuario"
      /\ (forall u n, displayName u = Some n -> n <> "" -> resolver_alias (Some u) = n)
      /\ (forall u l resto,
            verdadero (displayName u) = false -> email u = Some (l ++ String "@" resto) ->
            sin_arroba l = true -> l <> "" -> resolver_alias (Some u) = l)
      /\ (forall u resto,
            verdadero (displayName u) = false -> email u = Some (String "@" resto) ->
            resolver_alias (Some u) = "Usuario")
      /\ (forall u, verdadero (displayName u) = false -> email u = None ->
                    resolver_alias (Some u) = "Usuario"))
  /\ (let r := joinByToken (mkDatosJoin (Some "tok1")) (mkContexto (Some "u2"))
                 mundo_invitacion in
      Ev.participantes <$> eventos r.2 !! "ev1"
      = Some [ mkParticipante "u1" "Creador" (1 / Qc_of_Z 2)%Qc;
               mkParticipante "u2" "beto" (1 / Qc_of_Z 2)%Qc ]).
Proof.
  split.
  { intros data context w resp r Hr.
    pose proof (joinByToken_forma data context w) as H. fold r in H. simpl in H.
    rewrite Hr in H.
    destruct H as (u & t & iid & inv & ev & Ha & Ht & Hi & _ & _ & Hev & _ & _ & He & _).
    exists u, t, iid, inv, ev. repeat split; try done.
    - by rewrite He, lookup_insert_eq.
    - intros k Hk. by rewrite He, lookup_insert_ne.
    - apply length_redeem_spec.
    - apply reparto_igual_redeem_spec.
    - apply suma_redeem_spec.
    - unfold bien_repartido. rewrite He, lookup_insert_eq. eexists. split; [done|].
      split; [apply reparto_igual_redeem_spec|apply suma_redeem_spec]. }
  split.
  { intros w w' k Hrtc. induction Hrtc as [|w1 w2 w3 Hp _ IH]; [done|].
    intros Hk. apply IH. by eapply paso_join_bien_repartido. }
  split.
  { intros u a. split.
    - intros P HP. apply list_elem_of_singleton in HP as ->. simpl.
      change (Z.of_nat 1) with 1%Z. rewrite Z2Qc_inj_1. by apply Qc_is_canon.
    - simpl. ring. }
  split; [apply resolver_alias_casos|].
  simpl. vm_compute. reflexivity.
Qed.

Lemma joinByToken_reparto_igual_witness :
  bien_repartido "ev1"
    (joinByToken (mkDatosJoin (Some "tok1")) (mkContexto (Some "u2")) mundo_invitacion).2.
Proof.
  destruct joinByToken_reparto_igual as (_ & Hseq & Hbase & _).
  apply (Hseq mundo_invitacion).
  - apply rtc_once. left. by eexists _, _.
  - exists evento_abierto. split; [reflexivity|]. apply Hbase.
Defined.

(** ** Calendar arithmetic of [Date] *)

Lemma YearFromDay_spec d :
  DayFromYear (YearFromDay d) <= d < DayFromYear (YearFromDay d + 1).
Proof.
  unfold DayFromYear, YearFromDay. cbv zeta.
  Z.to_euclidean_division_equations; lia.
Qed.

Lemma DayFromYear_mono y1 y2 : y1 <= y2 -> DayFromYear y1 <= DayFromYear y2.
Proof. unfold DayFromYear. Z.to_euclidean_division_equations; lia. Qed.

Lemma YearFromDay_unico y d :
  DayFromYear y <= d < DayFromYear (y + 1) -> YearFromDay d = y.
Proof.
  intros H. pose proof (YearFromDay_spec d) as Hs.
  destruct (Z.lt_trichotomy (YearFromDay d) y) as [Hlt|[Heq|Hgt]]; [|done|].
  - pose proof (DayFromYear_mono (YearFromDay d + 1) y). lia.
  - pose proof (DayFromYear_mono (y + 1) (YearFromDay d)). lia.
Qed.

Lemma DayFromYear_succ y : DayFromYear (y + 1) = DayFromYear y + DaysInYear y.
Proof.
  unfold DaysInYear, InLeapYear_of, DayFromYear.
  destruct (Z.eqb_spec (y mod 4) 0), (Z.eqb_spec (y mod 100) 0), (Z.eqb_spec (y mod 400) 0);
    simpl; Z.to_euclidean_division_equations; lia.
Qed.

Ltac partir_ltb :=
  repeat match goal with
    | |- context [(?a <? ?b)%Z] => destruct (Z.ltb_spec a b)
    | |- context [(?a <=? ?b)%Z] => destruct (Z.leb_spec a b)
    | |- context [(?a =? ?b)%Z] => destruct (Z.eqb_spec a b)
    end.

Lemma mes_de_dia_unico b m k :
  0 <= m <= 11 -> dias_antes_de b m <= k < dias_antes_de b (m + 1) ->
  mes_de_dia b k = m.
Proof.
  intros Hm. assert (Hc : m = 0 \/ m = 1 \/ m = 2 \/ m = 3 \/ m = 4 \/ m = 5 \/ m = 6
                          \/ m = 7 \/ m = 8 \/ m = 9 \/ m = 10 \/ m = 11) by lia.
  destruct b; destruct Hc as [->|[->|[->|[->|[->|[->|[->|[->|[->|[->|[->| ->]]]]]]]]]]];
    intros H; unfold mes_de_dia, dias_antes_de in *; simpl in *; partir_ltb; lia.
Qed.

Lemma mes_de_dia_spec b k :
  0 <= k < dias_antes_de b 12 ->
  0 <= mes_de_dia b k <= 11
  /\ dias_antes_de b (mes_de_dia b k) <= k < dias_antes_de b (mes_de_dia b k + 1).
Proof.
  destruct b; intros H; unfold mes_de_dia, dias_antes_de in *; simpl in *;
    partir_ltb; simpl; lia.
Qed.

Ltac casos_mes m :=
  let Hc := fresh "Hc" in
  assert (Hc : m = 0 \/ m = 1 \/ m = 2 \/ m = 3 \/ m = 4 \/ m = 5 \/ m = 6
               \/ m = 7 \/ m = 8 \/ m = 9 \/ m = 10 \/ m = 11) by lia;
  destruct Hc as [->|[->|[->|[->|[->|[->|[->|[->|[->|[->|[->| ->]]]]]]]]]]].

Lemma dias_antes_12 y : dias_antes_de (InLeapYear_of y) 12 = DaysInYear y.
Proof. unfold DaysInYear. by destruct (InLeapYear_of y). Qed.

Lemma DaysInMonth_cotas y m :
  0 <= m <= 11 ->
  28 <= DaysInMonth y m <= 31
  /\ 0 <= dias_antes_de (InLeapYear_of y) m
  /\ dias_antes_de (InLeapYear_of y) (m + 1) <= DaysInYear y.
Proof.
  intros Hm. rewrite <- dias_antes_12. unfold DaysInMonth.
  destruct (InLeapYear_of y); casos_mes m; unfold dias_antes_de; simpl; lia.
Qed.

Lemma Day_MakeDate day tod :
  0 <= tod < msPerDay ->
  Day (MakeDate day tod) = day /\ TimeWithinDay (MakeDate day tod) = tod.
Proof.
  unfold Day, TimeWithinDay, MakeDate, msPerDay. intros H.
  Z.to_euclidean_division_equations; lia.
Qed.

(** Reading back the fields of a date built from valid fields. *)
Lemma campos_de_fecha y m d tod :
  0 <= m <= 11 -> 1 <= d <= DaysInMonth y m -> 0 <= tod < msPerDay ->
  let t := MakeDate (DayFromYear y + dias_antes_de (InLeapYear_of y) m + d - 1) tod in
  YearFromTime t = y /\ MonthFromTime t = m /\ DateFromTime t = d
  /\ TimeWithinDay t = tod.
Proof.
  intros Hm Hd Ht t.
  destruct (Day_MakeDate (DayFromYear y + dias_antes_de (InLeapYear_of y) m + d - 1) tod Ht)
    as [HD HT]. fold t in HD, HT.
  destruct (DaysInMonth_cotas y m Hm) as (_ & H0 & H12).
  assert (Hdim : dias_antes_de (InLeapYear_of y) (m + 1)
                 = dias_antes_de (InLeapYear_of y) m + DaysInMonth y m)
    by (unfold DaysInMonth; lia).
  assert (HY : YearFromTime t = y).
  { unfold YearFromTime. rewrite HD. apply YearFromDay_unico.
    rewrite DayFromYear_succ. lia. }
  assert (HW : DayWithinYear t = dias_antes_de (InLeapYear_of y) m + d - 1).
  { unfold DayWithinYear. rewrite HY, HD. lia. }
  assert (HM : MonthFromTime t = m).
  { unfold MonthFromTime, InLeapYear. rewrite HY, HW. apply mes_de_dia_unico; lia. }
  repeat split; try done.
  unfold DateFromTime, InLeapYear. rewrite HM, HY, HW. lia.
Qed.

(** Every time value is built from its own fields, and they are valid. *)
Lemma fecha_de_campos t :
  let y := YearFromTime t in
  let m := MonthFromTime t in
  let d := DateFromTime t in
  0 <= m <= 11 /\ 1 <= d <= DaysInMonth y m /\ 0 <= TimeWithinDay t < msPerDay
  /\ t = MakeDate (DayFromYear y + dias_antes_de (InLeapYear_of y) m + d - 1)
           (TimeWithinDay t).
Proof.
  intros y m d.
  pose proof (YearFromDay_spec (Day t)) as Hs. fold (YearFromTime t) in Hs. fold y in Hs.
  rewrite DayFromYear_succ in Hs.
  assert (Hk : 0 <= DayWithinYear t < dias_antes_de (InLeapYear_of y) 12).
  { rewrite dias_antes_12. unfold DayWithinYear. fold y. lia. }
  destruct (mes_de_dia_spec (InLeapYear_of y) (DayWithinYear t) Hk) as [Hm Hr].
  change (mes_de_dia (InLeapYear_of y) (DayWithinYear t)) with m in Hm, Hr.
  assert (Hd : d = DayWithinYear t - dias_antes_de (InLeapYear_of y) m + 1) by reflexivity.
  split; [done|]. split; [unfold DaysInMonth; lia|].
  split. { unfold TimeWithinDay, msPerDay. Z.to_euclidean_division_equations; lia. }
  rewrite Hd. unfold DayWithinYear. fold y. unfold MakeDate, Day, TimeWithinDay, msPerDay.
  Z.to_euclidean_division_equations; lia.
Qed.

(** [d.setMonth(d.getMonth() + 1)]: the same day and time in the next
    month when that month has the day, and otherwise the overflow into the
    month after it. *)
Lemma setMonth_mes_siguiente t :
  let y := YearFromTime t in
  let m := MonthFromTime t in
  let d := DateFromTime t in
  let y' := y + (m + 1) / 12 in
  let m' := (m + 1) mod 12 in
  let t' := setMonth t (getMonth t + 1) in
  (d <= DaysInMonth y' m' ->
   YearFromTime t' = y' /\ MonthFromTime t' = m' /\ DateFromTime t' = d
   /\ TimeWithinDay t' = TimeWithinDay t)
  /\ (DaysInMonth y' m' < d ->
      YearFromTime t' = y' /\ MonthFromTime t' = m' + 1
      /\ DateFromTime t' = d - DaysInMonth y' m'
      /\ TimeWithinDay t' = TimeWithinDay t).
Proof.
  intros y m d y' m' t'.
  destruct (fecha_de_campos t) as (Hm & Hd & Ht & _). fold y m d in Hm, Hd, Ht.
  assert (Hm' : 0 <= m' <= 11) by (unfold m'; Z.to_euclidean_division_equations; lia).
  assert (Ht' : t' = MakeDate (DayFromYear y' + dias_antes_de (InLeapYear_of y') m' + d - 1)
                       (TimeWithinDay t)) by reflexivity.
  destruct (DaysInMonth_cotas y m (proj1 (conj Hm I))) as (Hdim & _).
  split; intros Hcmp.
  - rewrite Ht'. apply campos_de_fecha; lia.
  - assert (Hsig : m' + 1 <= 11
                   /\ 1 <= d - DaysInMonth y' m' <= DaysInMonth y' (m' + 1)).
    { revert Hcmp. unfold DaysInMonth. clear Ht'.
      destruct (InLeapYear_of y'); casos_mes m'; unfold dias_antes_de; simpl; lia. }
    assert (Hdia : DayFromYear y' + dias_antes_de (InLeapYear_of y') m' + d - 1
                   = DayFromYear y' + dias_antes_de (InLeapYear_of y') (m' + 1)
                     + (d - DaysInMonth y' m') - 1) by (unfold DaysInMonth; lia).
    rewrite Ht', Hdia. apply campos_de_fecha; lia.
Qed.

(** ** Recurring events: [crearEventoRecurrente] *)

(** C7. [crearEventoRecurrente] on any event, under any schedule of
    rejections. The literal that the function hands to [add()] carries
    [quien_pago] and [fecha_pago] with the value [undefined]; the store
    refuses such a document before it picks an id or sends anything, and
    the [catch] block re-throws. So the function always ends with that
    error: no event document and no invitation document is created, no id
    is consumed and no call reaches the store; only the sixteen draws of
    the token of the literal have been taken. That is what happens for the
    closed monthly event e5, due on 31 January 2025; the due date that the
    function computes for the literal, [setMonth(getMonth() + 1)] of the
    original, is 3 March 2025. *)
Theorem crearEventoRecurrente_indefinido :
  (forall (original : Evento) (w : Mundo),
     let r := crearEventoRecurrente original w in
     r.1 = Err error_indefinido
     /\ eventos r.2 = eventos w
     /\ invitaciones r.2 = invitaciones w
     /\ balances r.2 = balances w
     /\ generados r.2 = generados w
     /\ fallos r.2 = fallos w
     /\ sorteos r.2 = (sorteos w + longitud_por_defecto)%nat)
  /\ (let r := crearEventoRecurrente evento_fin_de_mes mundo_inicial in
      Ev.repeticion evento_fin_de_mes = mensual
      /\ Ev.estado evento_fin_de_mes = cerrado
      /\ r.1 = Err error_indefinido
      /\ eventos r.2 = eventos mundo_inicial
      /\ invitaciones r.2 = invitaciones mundo_inicial
      /\ size (eventos r.2) = 0%nat
      /\ size (invitaciones r.2) = 0%nat
      /\ Ev.vence_el evento_fin_de_mes = Some 1738317600000
      /\ (YearFromTime 1738317600000, MonthFromTime 1738317600000,
          DateFromTime 1738317600000) = (2025, 0, 31)
      /\ setMonth 1738317600000 (getMonth 1738317600000 + 1) = 1740996000000
      /\ (YearFromTime 1740996000000, MonthFromTime 1740996000000,
          DateFromTime 1740996000000) = (2025, 2, 3)).
Proof.
  split.
  - intros original w r. unfold r. rewrite crearEventoRecurrente_lanza. done.
  - cbv zeta. rewrite crearEventoRecurrente_lanza.
    repeat split; vm_compute; reflexivity.
Qed.

(** ** Attachment validation *)

Lemma intentar_tragar (m : M unit) w :
  exists w', intentar m (fun _ => ret tt) w = (Ok tt, w').
Proof. unfold intentar. destruct (m w) as [[[]|e] w']; by eexists. Qed.

Lemma eliminarArchivo_sin_fallos filePath w :
  sin_fallos w ->
  exists w',
    eliminarArchivo filePath w = (Ok tt, w')
    /\ archivos w' = archivos w ∖ {[ filePath ]}
    /\ auditorias w' = auditorias w /\ reloj w' = reloj w /\ sin_fallos w'.
Proof.
  intros Hf. red in Hf.
  cbv beta iota delta [eliminarArchivo intentar bind leer modificar lanzar ret llamada].
  rewrite Hf. case_bool_decide as Hin.
  - eexists. split; [reflexivity|]. done.
  - exists w. split; [reflexivity|]. split; [|done].
    symmetry. apply difference_disjoint_L. by apply disjoint_singleton_r.
Qed.

Lemma contarArchivosEvento_sin_fallos eventoId w :
  sin_fallos w ->
  contarArchivosEvento eventoId w = (Ok (length (archivos_de eventoId (archivos w))), w).
Proof.
  intros Hf. red in Hf.
  cbv beta iota delta [contarArchivosEvento intentar bind leer ret llamada].
  by rewrite Hf.
Qed.

Lemma contarArchivosEvento_rechazo eventoId w :
  siguiente_falla w = true ->
  contarArchivosEvento eventoId w = (Ok 0%nat, avanzar w).
Proof.
  unfold siguiente_falla, avanzar.
  cbv beta iota delta [contarArchivosEvento intentar bind leer ret llamada].
  by destruct (fallos w) as [|[] l].
Qed.

Lemma length_filter_submseteq {A} (f : A -> bool) (l1 l2 : list A) :
  l1 ⊆+ l2 -> (length (List.filter f l1) <= length (List.filter f l2))%nat.
Proof.
  induction 1 as [|x l1 l2 _ IH|x y l|x l1 l2 _ IH|l1 l2 l3 _ IH1 _ IH2]; simpl.
  - done.
  - destruct (f x); simpl; lia.
  - destruct (f x), (f y); simpl; lia.
  - destruct (f x); simpl; lia.
  - lia.
Qed.

Lemma archivos_de_otros eventoId filePath (X : gset string) :
  (length (archivos_de eventoId (X ∖ {[ filePath ]}))
   <= length (archivos_de eventoId X))%nat.
Proof.
  unfold archivos_de. apply length_filter_submseteq, elements_submseteq.
  apply subseteq_difference_l. done.
Qed.

(** The validator once the path names an event and the type and size
    checks have passed. *)
Lemma validarAdjuntos_valido object filePath w :
  Obj.name object = Some filePath ->
  String.prefix "events/" filePath = true ->
  (3 <= length (split "/" filePath))%nat ->
  tipo_permitido object = true -> (tamano_de object <= maxSize)%Z ->
  onStorageFinalize_validarAdjuntos object w
  = intentar
      (archivosExistentes <- contarArchivosEvento (nth 1 (split "/" filePath) "") ;;
       if (2 <=? archivosExistentes)%nat
       then
         eliminarArchivo filePath ;;
         en <- now ;;
         registrarAuditoria
           (Aud.mk "SUBIR_ADJUNTO_RECHAZADO" (nth 1 (split "/" filePath) "") "system" en
              (PayloadAdjunto filePath (tamano_de object)
                 (o_bien (Obj.contentType object) "") "Límite de archivos excedido"))
       else ret tt)
      (fun _ => ret tt) w.
Proof.
  intros Hn Hp Hl Ht Hs. unfold onStorageFinalize_validarAdjuntos.
  rewrite Hn, Hp. cbn [negb]. cbv iota.
  apply Nat.ltb_ge in Hl. rewrite Hl.
  unfold tipo_permitido in Ht. rewrite Ht. cbn [negb]. cbv iota.
  unfold tamano_de in Hs. apply Z.ltb_ge in Hs. rewrite Hs. reflexivity.
Qed.

(** The validator when the type or the size check fails: the upload is
    deleted and that is all. *)
Lemma validarAdjuntos_invalido object filePath w :
  Obj.name object = Some filePath ->
  String.prefix "events/" filePath = true ->
  (3 <= length (split "/" filePath))%nat ->
  tipo_permitido object = false \/ (maxSize < tamano_de object)%Z ->
  onStorageFinalize_validarAdjuntos object w
  = intentar (eliminarArchivo filePath) (fun _ => ret tt) w.
Proof.
  intros Hn Hp Hl Hts. unfold onStorageFinalize_validarAdjuntos.
  rewrite Hn, Hp. cbn [negb]. cbv iota.
  apply Nat.ltb_ge in Hl. rewrite Hl.
  fold (tipo_permitido object). fold (tamano_de object).
  destruct (tipo_permitido object) eqn:Ht; cbn [negb]; cbv iota; [|reflexivity].
  destruct Hts as [|Hs]; [done|]. apply Z.ltb_lt in Hs. by rewrite Hs.
Qed.

(** C8, as amended. A file is uploaded under [events/<id>/...] for an event
    that already has at least two other objects under its prefix, and the
    store answers every call. Whatever the type and the size of the upload,
    the validator deletes it and nothing else from the bucket. The audit
    entry of type SUBIR_ADJUNTO_RECHAZADO is written exactly when the
    upload itself has an allowed type and a size within 1 MiB, so that the
    count is what rejects it; an upload with a type that is not allowed or
    a size above 1 MiB is deleted without any audit entry. *)
Theorem validarAdjuntos_tercer_archivo (object : Obj.t) (filePath : string) (w : Mundo) :
  let eventoId := nth 1 (split "/" filePath) "" in
  sin_fallos w ->
  Obj.name object = Some filePath ->
  String.prefix "events/" filePath = true ->
  (3 <= length (split "/" filePath))%nat ->
  (2 <= length (archivos_de eventoId (archivos w ∖ {[ filePath ]})))%nat ->
  exists w',
    onStorageFinalize_validarAdjuntos object w = (Ok tt, w')
    /\ archivos w' = archivos w ∖ {[ filePath ]}
    /\ (filePath ∉ archivos w')
    /\ (tipo_permitido object = true -> (tamano_de object <= maxSize)%Z ->
        auditorias w'
        = (auditorias w ++ [auditoria_rechazo eventoId filePath object w])%list
        /\ Aud.tipo (auditoria_rechazo eventoId filePath object w)
           = "SUBIR_ADJUNTO_RECHAZADO")
    /\ ((tipo_permitido object = false \/ (maxSize < tamano_de object)%Z) ->
        auditorias w' = auditorias w).
Proof.
  intros eventoId Hf Hn Hp Hl Hc.
  destruct (eliminarArchivo_sin_fallos filePath w Hf) as (w1 & He & Ha & Hau & Hr & Hf1).
  assert (Hno : forall X : gset string, filePath ∉ X ∖ {[ filePath ]}).
  { intros X. rewrite elem_of_difference, elem_of_singleton. tauto. }
  destruct (tipo_permitido object) eqn:Ht.
  - destruct (Z_le_gt_dec (tamano_de object) maxSize) as [Hs|Hs].
    + rewrite (validarAdjuntos_valido object filePath w Hn Hp Hl Ht Hs).
      fold eventoId. unfold intentar, bind at 1.
      rewrite (contarArchivosEvento_sin_fallos eventoId w Hf).
      pose proof (archivos_de_otros eventoId filePath (archivos w)) as Hm.
      assert (H2 : (2 <=? length (archivos_de eventoId (archivos w)))%nat = true)
        by (apply Nat.leb_le; lia).
      rewrite H2. unfold bind at 1. rewrite He.
      unfold bind at 1. unfold now at 1, leer at 1.
      rewrite (registrarAuditoria_sin_fallos _ w1 Hf1).
      eexists. split; [reflexivity|]. simpl. rewrite Ha, Hau, Hr.
      split; [done|]. split; [apply Hno|]. split; [done|]. intros [|]; [done|lia].
    + rewrite (validarAdjuntos_invalido object filePath w Hn Hp Hl) by (right; lia).
      unfold intentar. rewrite He. exists w1. rewrite Ha.
      split; [done|]. split; [done|]. split; [apply Hno|]. split; [lia|done].
  - rewrite (validarAdjuntos_invalido object filePath w Hn Hp Hl) by by left.
    unfold intentar. rewrite He. exists w1. rewrite Ha.
    split; [done|]. split; [done|]. split; [apply Hno|]. split; [done|done].
Qed.

Lemma validarAdjuntos_tercer_archivo_witness :
  exists w',
    onStorageFinalize_validarAdjuntos objeto_png mundo_adjuntos = (Ok tt, w')
    /\ archivos w' = archivos mundo_adjuntos ∖ {[ "events/e7/c.png" ]}
    /\ auditorias w'
       = [auditoria_rechazo "e7" "events/e7/c.png" objeto_png mundo_adjuntos].
Proof.
  destruct (validarAdjuntos_tercer_archivo objeto_png "events/e7/c.png" mundo_adjuntos
              eq_refl eq_refl eq_refl)
    as (w' & Hr & Ha & _ & Hau & _).
  - vm_compute. lia.
  - vm_compute. lia.
  - exists w'. split; [exact Hr|]. split; [exact Ha|].
    apply Hau; [reflexivity|]. vm_compute. discriminate.
Defined.

(** The claim C8 as first stated fails for an upload that is itself
    invalid: the event e7 has two attachments, the third upload is a plain
    text file, and the validator deletes it without writing any audit
    entry. *)
Lemma validarAdjuntos_invalido_sin_auditoria :
  let r := onStorageFinalize_validarAdjuntos objeto_txt mundo_adjuntos in
  Obj.name objeto_txt = Some "events/e7/c.txt"
  /\ (2 <= length (archivos_de "e7" (archivos mundo_adjuntos ∖ {[ "events/e7/c.txt" ]})))%nat
  /\ tipo_permitido objeto_txt = false
  /\ ("events/e7/c.txt" ∈ archivos mundo_adjuntos)
  /\ r.1 = Ok tt
  /\ ("events/e7/c.txt" ∉ archivos r.2)
  /\ size (archivos r.2) = 3%nat
  /\ auditorias mundo_adjuntos = []
  /\ auditorias r.2 = [].
Proof.
  intros r.
  assert (H1 : "events/e7/c.txt" ∈ archivos mundo_adjuntos)
    by (eapply (bool_decide_eq_true_1 _); vm_compute; reflexivity).
  assert (H2 : "events/e7/c.txt" ∉ archivos r.2)
    by (eapply (bool_decide_eq_false_1 _); vm_compute; reflexivity).
  repeat split; try assumption; try (vm_compute; reflexivity).
  vm_compute. lia.
Qed.

(** C10. When the listing of the files of an event is rejected,
    [contarArchivosEvento] returns 0 and raises nothing. The validator then
    accepts an upload that has passed the type and size checks: it deletes
    nothing and writes no audit entry, however many objects the event has
    in the bucket. And under any schedule of rejections the trigger of the
    validator ends normally: no error of the validation reaches a caller.
    For instance the third PNG of event e7 stays in the bucket when the
    listing is rejected. *)
Theorem validarAdjuntos_listado_rechazado :
  (forall eventoId w,
     siguiente_falla w = true ->
     contarArchivosEvento eventoId w = (Ok 0%nat, avanzar w))
  /\ (forall eventoId w, exists n w', contarArchivosEvento eventoId w = (Ok n, w'))
  /\ (forall object filePath w,
        Obj.name object = Some filePath ->
        String.prefix "events/" filePath = true ->
        (3 <= length (split "/" filePath))%nat ->
        tipo_permitido object = true -> (tamano_de object <= maxSize)%Z ->
        siguiente_falla w = true ->
        onStorageFinalize_validarAdjuntos object w = (Ok tt, avanzar w)
        /\ archivos (avanzar w) = archivos w
        /\ auditorias (avanzar w) = auditorias w)
  /\ (forall object w, exists w', onStorageFinalize_validarAdjuntos object w = (Ok tt, w'))
  /\ (let r := onStorageFinalize_validarAdjuntos objeto_png mundo_adjuntos_caido in
      length (archivos_de "e7" (archivos mundo_adjuntos_caido)) = 4%nat
      /\ r.1 = Ok tt
      /\ archivos r.2 = archivos mundo_adjuntos_caido
      /\ ("events/e7/c.png" ∈ archivos r.2)
      /\ auditorias r.2 = []).
Proof.
  split; [apply contarArchivosEvento_rechazo|].
  split.
  { intros eventoId w.
    cbv beta iota delta [contarArchivosEvento intentar bind leer ret llamada].
    destruct (fallos w) as [|[] l]; by eexists _, _. }
  split.
  { intros object filePath w Hn Hp Hl Ht Hs Hsf.
    rewrite (validarAdjuntos_valido object filePath w Hn Hp Hl Ht Hs).
    unfold intentar, bind. rewrite (contarArchivosEvento_rechazo _ w Hsf). done. }
  split; [intros object w; apply intentar_tragar|].
  assert (H1 : "events/e7/c.png"
               ∈ archivos (onStorageFinalize_validarAdjuntos objeto_png
                             mundo_adjuntos_caido).2)
    by (eapply (bool_decide_eq_true_1 _); vm_compute; reflexivity).
  repeat split; try assumption; vm_compute; reflexivity.
Qed.

Lemma validarAdjuntos_listado_rechazado_witness :
  onStorageFinalize_validarAdjuntos objeto_png mundo_adjuntos_caido
  = (Ok tt, avanzar mundo_adjuntos_caido).
Proof.
  destruct validarAdjuntos_listado_rechazado as (_ & _ & H & _).
  apply (H objeto_png "events/e7/c.png" mundo_adjuntos_caido eq_refl eq_refl).
  - vm_compute. lia.
  - reflexivity.
  - vm_compute. discriminate.
  - reflexivity.
Defined.

(** ** Invitation tokens: [generarTokenInvitacion] *)

Lemma get_elem_of i s c : String.get i s = Some c -> c ∈ String.list_ascii_of_string s.
Proof.
  revert i. induction s as [|a s IH]; intros [|i]; simpl; try done.
  - intros [= ->]. left.
  - intros H. right. by eapply IH.
Qed.

Lemma get_lt i s : (i < String.length s)%nat -> is_Some (String.get i s).
Proof.
  revert i. induction s as [|a s IH]; intros [|i]; simpl; try lia; [by eexists|].
  intros H. apply IH. lia.
Qed.

Lemma charAt_chars i :
  exists c, charAt chars (i `mod` String.length chars)%nat = String c ""
            /\ c ∈ String.list_ascii_of_string chars.
Proof.
  unfold charAt.
  destruct (get_lt (i `mod` String.length chars)%nat chars) as [c Hc].
  { apply Nat.mod_upper_bound. vm_compute. discriminate. }
  rewrite Hc. exists c. split; [done|]. by eapply get_elem_of.
Qed.

Lemma length_append s t : String.length (s ++ t) = (String.length s + String.length t)%nat.
Proof. induction s as [|a s IH]; simpl; [done|]. by rewrite IH. Qed.

Lemma list_ascii_of_string_app s t :
  String.list_ascii_of_string (s ++ t) = (String.list_ascii_of_string s ++ String.list_ascii_of_string t)%list.
Proof. induction s as [|a s IH]; simpl; [done|]. by rewrite IH. Qed.

Lemma token_de_spec azar n :
  forall desde token,
    String.length (token_de azar desde n token) = (String.length token + n)%nat
    /\ (sobre chars token -> sobre chars (token_de azar desde n token)).
Proof.
  induction n as [|n IH]; intros desde token; cbn [token_de].
  - split; [lia|done].
  - destruct (IH (S desde) (token ++ charAt chars (azar desde `mod` String.length chars)%nat))
      as [Hl Hs].
    destruct (charAt_chars (azar desde)) as (c & Hc & Hin).
    split.
    + rewrite Hl, length_append, Hc. simpl. lia.
    + intros Ht. apply Hs. intros x. rewrite list_ascii_of_string_app, Hc. simpl.
      rewrite elem_of_app, list_elem_of_singleton. intros [Hx| ->]; [by apply Ht|done].
Qed.

(** X1. [generarTokenInvitacion(length)] never fails and touches nothing but
    the random source, of which it consumes exactly [length] draws. The
    token it returns has exactly [length] characters, and each of them is
    one of the 62 letters and digits of [chars]: a token of the default
    length is never empty and holds no separator such as "/" or "_". *)
Theorem generarTokenInvitacion_forma (n : nat) (w : Mundo) :
  exists token,
    generarTokenInvitacion n w = (Ok token, con_sorteos (sorteos w + n) w)
    /\ String.length token = n
    /\ sobre chars token.
Proof.
  unfold generarTokenInvitacion. rewrite bucle_token_spec.
  destruct (token_de_spec (azar w) n (sorteos w) "") as [Hl Hs].
  eexists. split; [reflexivity|]. split; [exact Hl|].
  apply Hs. intros c Hc. by apply elem_of_nil in Hc.
Qed.

(** ** Creating an event: [createEvento] *)

Lemma moneda_de_None s : moneda_de s = None <-> s ∉ ["ARS"; "USD"].
Proof.
  unfold moneda_de. rewrite !not_elem_of_cons.
  destruct (String.eqb_spec s "ARS") as [->|H1]; [split; [done|tauto]|].
  destruct (String.eqb_spec s "USD") as [->|H2]; [split; [done|tauto]|].
  split; [|done]. intros _. repeat split; try done. apply not_elem_of_nil.
Qed.

Lemma repeticion_de_None s : repeticion_de s = None <-> s ∉ ["unico"; "mensual"].
Proof.
  unfold repeticion_de. rewrite !not_elem_of_cons.
  destruct (String.eqb_spec s "unico") as [->|H1]; [split; [done|tauto]|].
  destruct (String.eqb_spec s "mensual") as [->|H2]; [split; [done|tauto]|].
  split; [|done]. intros _. repeat split; try done. apply not_elem_of_nil.
Qed.

(** The run of [createEvento] on a request that passes the checks, under
    any schedule of rejections. *)
Lemma createEvento_valido data context usuario titulo monto moneda repeticion w :
  auth context = Some usuario ->
  datos_validos data titulo monto moneda repeticion ->
  let ev := evento_creado titulo monto moneda repeticion usuario w in
  let inv := invitacion_creada usuario w in
  let w1 := tras_sortear w in
  let w2 := con_eventos (insert (Ev.id ev) ev) (avanzar w1) in
  createEvento data context w
  = if siguiente_falla w1 then (Err Rechazo, avanzar w1)
    else if siguiente_falla w2 then (Err Rechazo, avanzar w2)
    else (Ok (mkRespuestaCrear (Ev.id ev) (Inv.token inv)),
          con_invitaciones (insert (Inv.token inv) inv) (avanzar w2)).
Proof.
  intros Ha (Ht & Hne & Hm & Hpos & Hmon & Hrep) ev inv w1 w2.
  unfold createEvento. rewrite Ha. cbv zeta. rewrite Ht.
  apply String.eqb_neq in Hne. rewrite Hne.
  assert (Hv : o_bien_numero (c_monto data) (Finito 0) = Finito monto).
  { rewrite Hm. simpl. rewrite bool_decide_eq_false_2; [done|].
    intros ->. by apply (Qclt_not_le _ _ Hpos), Qcle_refl. }
  rewrite Hv. rewrite bool_decide_eq_false_2 by by apply Qclt_not_le.
  assert (Hmo : moneda_de (o_bien (c_moneda data) "") = Some moneda)
    by (rewrite Hmon; by destruct moneda).
  assert (Hre : repeticion_de (o_bien (c_repeticion data) "") = Some repeticion)
    by (rewrite Hrep; by destruct repeticion).
  rewrite Hmo, Hre.
  unfold now. unfold bind at 1. unfold leer at 1.
  unfold bind at 1. unfold auto_id at 1.
  unfold bind at 1. unfold generarTokenInvitacion. rewrite bucle_token_spec.
  unfold w2, w1, ev, inv, tras_sortear, evento_creado, invitacion_creada,
    siguiente_falla, avanzar.
  cbv beta iota delta [bind doc_set modificar ret llamada].
  destruct w as [e0 b0 i0 u0 a0 f0 ar0 en0 r0 az0 so0 au0 g0 fa0]; simpl.
  destruct fa0 as [|[] [|[] l]]; reflexivity.
Qed.

Lemma primero_por_id_unico {A} (P : A -> bool) (m : gmap string A) k v :
  m !! k = Some v -> P v = true ->
  (forall k' v', m !! k' = Some v' -> P v' = true -> k' = k) ->
  primero_por_id P m = Some (k, v).
Proof.
  intros Hk HP Hu.
  destruct (primero_por_id P m) as [[k' v']|] eqn:Hp.
  - apply primero_por_id_Some in Hp as [Hk' HP'].
    assert (k' = k) as -> by eauto. congruence.
  - rewrite primero_por_id_None in Hp. rewrite (Hp k v Hk) in HP. done.
Qed.

Lemma token_de_no_vacio azar desde n : (0 < n)%nat -> token_de azar desde n "" <> "".
Proof.
  intros Hn E. destruct (token_de_spec azar n desde "") as [Hl _].
  rewrite E in Hl. simpl in Hl. lia.
Qed.

(** X2. [createEvento]: the checks on the request, in the order of the
    source and under any schedule of rejections. Without a caller identity
    the call fails with 'unauthenticated'. With one, a title that is
    missing or empty once trimmed gives 'invalid-argument' "El título es
    requerido"; otherwise an amount that is missing, NaN, infinite, zero or
    negative gives "Monto inválido"; otherwise a currency other than ARS
    and USD gives "Moneda inválida"; otherwise a recurrence other than
    unico and mensual gives "Repetición inválida". Each of these failures
    leaves the whole world as it was. Conversely, whenever a call ends with
    an [HttpsError], nothing has been written and the code is
    'unauthenticated' or 'invalid-argument'. *)
Theorem createEvento_validacion (data : DatosCrear) (context : Contexto) (w : Mundo) :
  let r := createEvento data context w in
  let titulo := trim (o_bien (c_titulo data) "") in
  let invalido msg := (Err (HttpsError invalid_argument msg), w) in
  (auth context = None ->
   r = (Err (HttpsError unauthenticated "Debe estar autenticado."), w))
  /\ (forall usuario, auth context = Some usuario ->
      (titulo = "" -> r = invalido "El título es requerido")
      /\ (titulo <> "" -> monto_invalido (c_monto data) -> r = invalido "Monto inválido")
      /\ (titulo <> "" -> ~ monto_invalido (c_monto data) ->
          (o_bien (c_moneda data) "" ∉ ["ARS"; "USD"] -> r = invalido "Moneda inválida")
          /\ (o_bien (c_moneda data) "" ∈ ["ARS"; "USD"] ->
              o_bien (c_repeticion data) "" ∉ ["unico"; "mensual"] ->
              r = invalido "Repetición inválida")))
  /\ (forall code msg w', r = (Err (HttpsError code msg), w') ->
      w' = w /\ (code = unauthenticated \/ code = invalid_argument)).
Proof.
  intros r titulo invalido. unfold r, invalido, createEvento. clear r invalido.
  split; [by intros ->|]. split.
  - intros usuario ->. cbv zeta. fold titulo.
    split; [by intros ->|].
    split.
    + intros Hne Hm. apply String.eqb_neq in Hne. rewrite Hne.
      unfold monto_invalido in Hm. unfold o_bien_numero.
      destruct (c_monto data) as [[q| |]|]; cbn [numero_verdadero]; try done.
      case_bool_decide as Hq; cbn [negb]; cbv iota beta.
      * by rewrite bool_decide_eq_true_2 by apply Qcle_refl.
      * by rewrite bool_decide_eq_true_2.
    + intros Hne Hm. apply String.eqb_neq in Hne. rewrite Hne.
      unfold monto_invalido in Hm. unfold o_bien_numero.
      destruct (c_monto data) as [[q| |]|]; try done. simpl.
      assert (Hq0 : q <> 0%Qc) by (intros ->; apply Hm, Qcle_refl).
      rewrite (bool_decide_eq_false_2 (q = 0%Qc)) by done. simpl.
      rewrite bool_decide_eq_false_2 by done.
      split.
      * intros Hmon. apply moneda_de_None in Hmon. by rewrite Hmon.
      * intros Hmon Hrep. destruct (moneda_de _) as [m|] eqn:Hmo.
        2:{ apply moneda_de_None in Hmo. done. }
        apply repeticion_de_None in Hrep. by rewrite Hrep.
  - intros code msg w'.
    destruct (auth context) as [usuario|]; [|intros [= <- <- <-]; by auto].
    cbv zeta. destruct (String.eqb _ ""); [intros [= <- <- <-]; by auto|].
    destruct (o_bien_numero _ _) as [q| |]; try (intros [= <- <- <-]; by auto).
    destruct (bool_decide _); [intros [= <- <- <-]; by auto|].
    destruct (moneda_de _) as [m|]; [|intros [= <- <- <-]; by auto].
    destruct (repeticion_de _) as [rep|]; [|intros [= <- <- <-]; by auto].
    unfold now. unfold bind at 1. unfold leer at 1.
    unfold bind at 1. unfold auto_id at 1.
    unfold bind at 1. unfold generarTokenInvitacion. rewrite bucle_token_spec.
    cbv beta iota delta [bind doc_set modificar ret llamada]. simpl.
    destruct w as [e0 b0 i0 u0 a0 f0 ar0 en0 r0 az0 so0 au0 g0 fa0]; simpl.
    destruct fa0 as [|[] [|[] l]]; simpl; discriminate.
Qed.

Lemma createEvento_validacion_witness :
  createEvento (mkDatosCrear (Some "   ") (Some (Finito (Qc_of_Z 300))) (Some "ARS")
                  (Some "unico"))
    (mkContexto (Some "u1")) mundo_intruso_caido
  = (Err (HttpsError invalid_argument "El título es requerido"), mundo_intruso_caido).
Proof.
  destruct (createEvento_validacion
              (mkDatosCrear (Some "   ") (Some (Finito (Qc_of_Z 300))) (Some "ARS")
                 (Some "unico"))
              (mkContexto (Some "u1")) mundo_intruso_caido) as (_ & H & _).
  destruct (H "u1" eq_refl) as [H1 _]. apply H1. reflexivity.
Defined.

Lemma siguiente_falla_sin_fallos w : sin_fallos w -> siguiente_falla w = false.
Proof. unfold sin_fallos, siguiente_falla. by intros ->. Qed.

Lemma avanzar_sin_fallos w : sin_fallos w -> avanzar w = w.
Proof. unfold sin_fallos, avanzar. intros H. destruct w; simpl in *. by subst. Qed.

Lemma createEvento_sin_fallos data context usuario titulo monto moneda repeticion w :
  auth context = Some usuario ->
  datos_validos data titulo monto moneda repeticion ->
  sin_fallos w ->
  let ev := evento_creado titulo monto moneda repeticion usuario w in
  let inv := invitacion_creada usuario w in
  createEvento data context w
  = (Ok (mkRespuestaCrear (Ev.id ev) (Inv.token inv)),
     con_invitaciones (insert (Inv.token inv) inv)
       (con_eventos (insert (Ev.id ev) ev) (tras_sortear w))).
Proof.
  intros Ha Hd Hf ev inv.
  rewrite (createEvento_valido data context usuario titulo monto moneda repeticion w Ha Hd).
  cbv zeta. fold ev inv.
  rewrite (siguiente_falla_sin_fallos (tras_sortear w)) by exact Hf.
  rewrite (avanzar_sin_fallos (tras_sortear w)) by exact Hf.
  rewrite (siguiente_falla_sin_fallos (con_eventos _ _)) by exact Hf.
  rewrite (avanzar_sin_fallos (con_eventos _ _)) by exact Hf.
  reflexivity.
Qed.

Lemma tras_unirse_invitaciones w u t iid inv ev :
  invitaciones (tras_unirse w u t iid inv ev)
  = <[iid := incrementar_usos inv]> (invitaciones w).
Proof. unfold tras_unirse. by destruct (List.find _ _). Qed.

(** X3. [createEvento] on a request that passes the checks, when the store
    answers every call. The call returns the id the store proposed and the
    token it drew. Under that id the event is stored with the trimmed
    title, the amount, currency and recurrence of the request, [estado]
    'abierto', [forma_pago] 'desconocida', no due date, no payer, no
    attachments, and the caller as its only participant, with alias
    'Creador' and fraction 1: the event is split in equal parts that add
    up to 1. The invitation is stored under the token itself as document
    id, bound to the event, unused, with a cap of 100 uses and no expiry.
    A document that was stored under either id before is overwritten.
    Balances, audit log, messages and bucket are untouched. The token has
    16 characters from the alphabet of [chars]. *)
Theorem createEvento_crea (data : DatosCrear) (context : Contexto) (usuario titulo : string)
    (monto : Qc) (moneda : Moneda) (repeticion : Repeticion) (w : Mundo) :
  auth context = Some usuario ->
  datos_validos data titulo monto moneda repeticion ->
  sin_fallos w ->
  let id := autoids w (generados w) in
  let token := token_de (azar w) (sorteos w) longitud_por_defecto "" in
  exists w' ev inv,
    createEvento data context w = (Ok (mkRespuestaCrear id token), w')
    /\ eventos w' = <[id := ev]> (eventos w)
    /\ invitaciones w' = <[token := inv]> (invitaciones w)
    /\ balances w' = balances w /\ auditorias w' = auditorias w
    /\ enviados w' = enviados w /\ archivos w' = archivos w
    /\ ev = Ev.mk id titulo moneda monto repeticion abierto "desconocida" None usuario
              (reloj w) None None [mkParticipante usuario "Creador" 1%Qc] token []
    /\ inv = Inv.mk id token usuario (reloj w) None 0 100
    /\ bien_repartido id w'
    /\ String.length token = 16%nat
    /\ sobre chars token.
Proof.
  intros Ha Hd Hf id token.
  rewrite (createEvento_sin_fallos data context usuario titulo monto moneda repeticion w
             Ha Hd Hf).
  destruct (token_de_spec (azar w) longitud_por_defecto (sorteos w) "") as [Hl Hs].
  fold token in Hl, Hs.
  eexists _, _, _. split; [reflexivity|].
  do 8 (split; [reflexivity|]).
  split; [|split; [exact Hl|]].
  - eexists. split; [apply lookup_insert_eq|]. split.
    + intros P HP. apply list_elem_of_singleton in HP as ->.
      apply Qc_is_canon. reflexivity.
    + apply Qc_is_canon. reflexivity.
  - apply Hs. intros c Hc. by apply elem_of_nil in Hc.
Qed.

Lemma createEvento_crea_witness :
  exists w',
    createEvento (mkDatosCrear (Some "  Cena  ") (Some (Finito (Qc_of_Z 300)))
                    (Some "ARS") (Some "unico"))
      (mkContexto (Some "u1")) mundo_inicial
    = (Ok (mkRespuestaCrear "Aauto" "ABCDEFGHIJKLMNOP"), w')
    /\ Ev.titulo <$> eventos w' !! "Aauto" = Some "Cena".
Proof.
  destruct (createEvento_crea
              (mkDatosCrear (Some "  Cena  ") (Some (Finito (Qc_of_Z 300)))
                 (Some "ARS") (Some "unico"))
              (mkContexto (Some "u1")) "u1" "Cena" (Qc_of_Z 300) ARS unico mundo_inicial)
    as (w' & ev & inv & Hr & He & _ & _ & _ & _ & _ & Hev & _).
  - reflexivity.
  - repeat split; try reflexivity. discriminate.
  - reflexivity.
  - exists w'. split; [exact Hr|]. rewrite He, Hev. by rewrite lookup_insert_eq.
Defined.

(** X4. [createEvento] has no compensating write. When the store rejects the
    first write, nothing is stored and the call fails with the rejection.
    When it accepts the first write and rejects the second, the call fails
    with the rejection too, but the event stays stored while no invitation
    was written for it: unless some older invitation happens to carry the
    same token, the token held by that event resolves to no invitation. *)
Theorem createEvento_sin_invitacion (data : DatosCrear) (context : Contexto)
    (usuario titulo : string) (monto : Qc) (moneda : Moneda) (repeticion : Repeticion)
    (w : Mundo) :
  auth context = Some usuario ->
  datos_validos data titulo monto moneda repeticion ->
  let r := createEvento data context w in
  let ev := evento_creado titulo monto moneda repeticion usuario w in
  (siguiente_falla w = true ->
   r.1 = Err Rechazo /\ eventos r.2 = eventos w /\ invitaciones r.2 = invitaciones w)
  /\ (siguiente_falla w = false -> siguiente_falla (avanzar w) = true ->
      r.1 = Err Rechazo
      /\ eventos r.2 = <[Ev.id ev := ev]> (eventos w)
      /\ invitaciones r.2 = invitaciones w
      /\ (token_libre (Ev.token_invitacion ev) w ->
          invitacion_de r.2 (Ev.token_invitacion ev) = None)).
Proof.
  intros Ha Hd r ev. unfold r.
  rewrite (createEvento_valido data context usuario titulo monto moneda repeticion w Ha Hd).
  cbv zeta. fold ev. generalize (invitacion_creada usuario w). intros inv.
  unfold siguiente_falla, avanzar.
  cbn [fallos tras_sortear con_sorteos con_generados con_fallos con_eventos tail].
  split.
  - intros H. rewrite H. by cbn [fst snd eventos invitaciones].
  - intros H1 H2. rewrite H1, H2. cbn [fst snd eventos invitaciones].
    do 3 (split; [reflexivity|]).
    intros Hl. apply primero_por_id_None. intros k i Hk.
    apply String.eqb_neq. by eapply Hl.
Qed.

Lemma createEvento_sin_invitacion_witness :
  let w := con_fallos [false; true] mundo_inicial in
  let r := createEvento
             (mkDatosCrear (Some "Cena") (Some (Finito (Qc_of_Z 300))) (Some "ARS")
                (Some "unico"))
             (mkContexto (Some "u1")) w in
  r.1 = Err Rechazo
  /\ Ev.token_invitacion <$> eventos r.2 !! "Aauto" = Some "ABCDEFGHIJKLMNOP"
  /\ invitaciones r.2 = ∅.
Proof.
  intros w r.
  destruct (createEvento_sin_invitacion
              (mkDatosCrear (Some "Cena") (Some (Finito (Qc_of_Z 300))) (Some "ARS")
                 (Some "unico"))
              (mkContexto (Some "u1")) "u1" "Cena" (Qc_of_Z 300) ARS unico w)
    as [_ H].
  - reflexivity.
  - repeat split; try reflexivity. discriminate.
  - destruct (H eq_refl eq_refl) as (H1 & H2 & H3 & _).
    split; [exact H1|]. split; [|exact H3].
    fold r in H2. rewrite H2. by rewrite lookup_insert_eq.
Defined.

(** X5. [createEvento] followed by [joinByToken]. When the store answers and
    no older invitation carries the token that is drawn, a different user
    who presents the token returned by [createEvento] joins the new event:
    the call returns [success] with the id and the title of the event and
    2 participants; the event is still open and its participants are the
    creator and the new user with one half each; the invitation has been
    used once. *)
Theorem createEvento_luego_joinByToken (data : DatosCrear) (context : Contexto)
    (creador titulo invitado : string) (monto : Qc) (moneda : Moneda)
    (repeticion : Repeticion) (w : Mundo) :
  auth context = Some creador ->
  datos_validos data titulo monto moneda repeticion ->
  sin_fallos w ->
  invitado <> creador ->
  token_libre (token_de (azar w) (sorteos w) longitud_por_defecto "") w ->
  exists resp w1 w2 ev2,
    createEvento data context w = (Ok resp, w1)
    /\ joinByToken (mkDatosJoin (Some (r_token resp))) (mkContexto (Some invitado)) w1
       = (Ok (Resp.mk true (Resp.mk_evento (r_id resp) titulo 2)), w2)
    /\ eventos w2 !! r_id resp = Some ev2
    /\ Ev.participantes ev2
       = [ mkParticipante creador "Creador" (1 / Qc_of_Z 2)%Qc;
           mkParticipante invitado (resolver_alias (usuarios w !! invitado))
             (1 / Qc_of_Z 2)%Qc ]
    /\ Ev.estado ev2 = abierto
    /\ Inv.usos <$> invitaciones w2 !! r_token resp = Some 1.
Proof.
  intros Ha Hd Hf Hne Hlibre.
  set (token := token_de (azar w) (sorteos w) longitud_por_defecto "") in *.
  set (ev := evento_creado titulo monto moneda repeticion creador w).
  set (inv := invitacion_creada creador w).
  set (w1 := con_invitaciones (insert token inv)
               (con_eventos (insert (Ev.id ev) ev) (tras_sortear w))).
  assert (Hc : createEvento data context w
               = (Ok (mkRespuestaCrear (Ev.id ev) token), w1))
    by apply (createEvento_sin_fallos data context creador titulo monto moneda repeticion w
                Ha Hd Hf).
  assert (Hf1 : sin_fallos w1) by exact Hf.
  assert (Htok : token <> "") by (apply token_de_no_vacio; vm_compute; lia).
  assert (Hinv : invitacion_de w1 token = Some (token, inv)).
  { apply primero_por_id_unico.
    - apply lookup_insert_eq.
    - apply String.eqb_refl.
    - intros k' i'. unfold w1.
      cbn [invitaciones con_invitaciones con_eventos tras_sortear con_sorteos con_generados].
      destruct (decide (k' = token)) as [->|Hk]; [done|].
      rewrite lookup_insert_ne by done. intros Hk' Ht.
      apply String.eqb_eq in Ht. by destruct (Hlibre k' i' Hk'). }
  assert (He : eventos w1 !! Inv.evento_id inv = Some ev) by apply lookup_insert_eq.
  pose proof (joinByToken_sin_fallos (mkDatosJoin (Some token)) (mkContexto (Some invitado))
                w1 Hf1) as Hj.
  apply String.eqb_neq in Htok as Htok'.
  cbn [auth d_token verdadero o_bien] in Hj. rewrite Htok' in Hj.
  cbn [negb] in Hj. cbv zeta in Hj. rewrite Hinv in Hj.
  change (expirada inv (reloj w1)) with false in Hj.
  change (agotada inv) with false in Hj. cbv iota in Hj. rewrite He in Hj.
  change (negb (bool_decide (Ev.estado ev = abierto))) with false in Hj.
  assert (Hp : es_participante invitado (Ev.participantes ev) = false).
  { unfold es_participante, ev, evento_creado. cbn [Ev.participantes List.find uid].
    apply not_eq_sym, String.eqb_neq in Hne. by rewrite Hne. }
  rewrite Hp in Hj. cbv iota in Hj.
  eexists _, _, _, _. split; [exact Hc|]. split; [exact Hj|].
  cbn [r_id r_token]. rewrite tras_unirse_eventos.
  split; [apply lookup_insert_eq|].
  split; [reflexivity|]. split; [reflexivity|].
  rewrite tras_unirse_invitaciones. by rewrite lookup_insert_eq.
Qed.

Lemma createEvento_luego_joinByToken_witness :
  exists resp w1 w2 ev2,
    createEvento (mkDatosCrear (Some "Cena") (Some (Finito (Qc_of_Z 300))) (Some "ARS")
                    (Some "unico"))
      (mkContexto (Some "u1")) mundo_inicial = (Ok resp, w1)
    /\ joinByToken (mkDatosJoin (Some (r_token resp))) (mkContexto (Some "u2")) w1
       = (Ok (Resp.mk true (Resp.mk_evento (r_id resp) "Cena" 2)), w2)
    /\ eventos w2 !! r_id resp = Some ev2
    /\ Ev.participantes ev2
       = [ mkParticipante "u1" "Creador" (1 / Qc_of_Z 2)%Qc;
           mkParticipante "u2" "Usuario" (1 / Qc_of_Z 2)%Qc ].
Proof.
  destruct (createEvento_luego_joinByToken
              (mkDatosCrear (Some "Cena") (Some (Finito (Qc_of_Z 300))) (Some "ARS")
                 (Some "unico"))
              (mkContexto (Some "u1")) "u1" "Cena" "u2" (Qc_of_Z 300) ARS unico mundo_inicial)
    as (resp & w1 & w2 & ev2 & H1 & H2 & H3 & H4 & _).
  - reflexivity.
  - repeat split; try reflexivity. discriminate.
  - reflexivity.
  - discriminate.
  - intros k i Hk. simpl in Hk. by rewrite lookup_empty in Hk.
  - exists resp, w1, w2, ev2. split; [exact H1|]. split; [exact H2|].
    split; [exact H3|exact H4].
Defined.

(** ** The ledger: net effect and partial settlement *)

Lemma accrue_spec_con_signo d a m x w :
  accrue_spec d a m x w = (saldo_en w (balance_key d a m) + con_signo d a x)%Qc.
Proof.
  unfold accrue_spec, con_signo. rewrite sort2_eqb_decide.
  case_decide; [rewrite bool_decide_eq_true_2 by done|rewrite bool_decide_eq_false_2 by done];
    ring.
Qed.

Lemma saldo_tras_abono d a m x w k :
  saldo_en (con_balances (insert (balance_key d a m) (abonado d a m x w)) w) k
  = (saldo_en w k + if String.eqb (balance_key d a m) k then con_signo d a x else 0)%Qc.
Proof.
  destruct (String.eqb_spec (balance_key d a m) k) as [<-|Hne].
  - by rewrite saldo_en_insert, saldo_abonado, accrue_spec_con_signo.
  - unfold saldo_en. simpl. rewrite lookup_insert_ne by done. ring.
Qed.

Lemma en_orden_neto (acreedor moneda : string) (monto : Qc) (ps : list Participante) w :
  sin_fallos w ->
  exists g,
    en_orden (map (fun P => actualizarBalance (uid P) acreedor moneda
                              (monto * participacion P)%Qc) ps) w
    = (Ok tt, con_balances g w)
    /\ forall k, saldo_en (con_balances g w) k
                 = (saldo_en w k + suma_en_clave k acreedor moneda monto ps)%Qc.
Proof.
  revert w. induction ps as [|p ps IH]; intros w Hf.
  - exists id. split; [by destruct w|]. intros k. simpl.
    replace (con_balances id w) with w by by destruct w. ring.
  - simpl. unfold bind. rewrite actualizarBalance_sin_fallos by done.
    set (w1 := con_balances _ w).
    destruct (IH w1 Hf) as (g & Hg & Hs). rewrite Hg.
    exists (fun b => g (<[balance_key (uid p) acreedor moneda :=
                          abonado (uid p) acreedor moneda (monto * participacion p) w]> b)).
    split; [reflexivity|]. intros k.
    change (saldo_en (con_balances g w1) k
            = (saldo_en w k
               + ((if String.eqb (balance_key (uid p) acreedor moneda) k
                   then con_signo (uid p) acreedor (monto * participacion p) else 0)
                  + suma_en_clave k acreedor moneda monto ps))%Qc).
    rewrite Hs. unfold w1. rewrite saldo_tras_abono. ring.
Qed.



(** One accrual under any schedule of rejections: it writes the balance of
    the pair, or it fails with the rejection and writes nothing. *)
Lemma actualizarBalance_wp d a m x w :
  wp (actualizarBalance d a m x)
    (fun _ w' => exists l,
       w' = con_fallos l (con_balances (insert (balance_key d a m) (abonado d a m x w)) w))
    (fun e w' => e = Rechazo /\ exists l, w' = con_fallos l w)
    w.
Proof.
  unfold actualizarBalance, abonado, balance_key.
  destruct (sort2 d a) as [uidA uidB].
  repeat wp_paso; simpl in *; try (split; [done|]); try by eexists.
  all: repeat match goal with H : _ !! _ = _ |- _ => rewrite H in * end; try done.
  all: simplify_eq; by eexists.
Qed.

Lemma actualizarBalance_rechazo d a m x w e w' :
  actualizarBalance d a m x w = (Err e, w') ->
  e = Rechazo /\ balances w' = balances w /\ eventos w' = eventos w.
Proof.
  intros H. pose proof (actualizarBalance_wp d a m x w) as Hw. unfold wp in Hw.
  rewrite H in Hw. destruct Hw as (-> & l & ->). done.
Qed.

Lemma en_orden_parcial {A} (acc : A -> M unit) (ps : list A) w e w' :
  en_orden (map acc ps) w = (Err e, w') ->
  exists hechos P resto w1,
    ps = (hechos ++ P :: resto)%list
    /\ en_orden (map acc hechos) w = (Ok tt, w1)
    /\ acc P w1 = (Err e, w').
Proof.
  revert w. induction ps as [|p ps IH]; intros w; simpl; [discriminate|].
  unfold bind. destruct (acc p w) as [[[]|e1] w1] eqn:Hp.
  - intros H. destruct (IH w1 H) as (hechos & P & resto & w2 & -> & H1 & H2).
    exists (p :: hechos), P, resto, w2. split; [done|]. split; [|done].
    simpl. unfold bind. by rewrite Hp.
  - intros [= <- <-]. exists [], p, ps, w. done.
Qed.

(** X8. [calcularBalances] when the store rejects a call. If no participant
    differs from the payer (in particular if there is none), the function
    returns at once without calling the store. If the function fails, the
    error is the rejection of the store, and the failure happened in the
    accrual of some debtor [P]: the accruals of the debtors before [P] were
    carried out and stay in the ledger, the accrual of [P] wrote nothing,
    and the debtors after [P] were not processed. *)
Theorem calcularBalances_parcial (evento : Evento) (w : Mundo) :
  let abonar P :=
    actualizarBalance (uid P) (quienPago evento) (moneda_str (Ev.moneda evento))
      (Ev.monto evento * participacion P)%Qc in
  (deudores evento = [] -> calcularBalances evento w = (Ok tt, w))
  /\ (forall e w',
        calcularBalances evento w = (Err e, w') ->
        e = Rechazo
        /\ exists hechos P resto w1,
             deudores evento = (hechos ++ P :: resto)%list
             /\ en_orden (map abonar hechos) w = (Ok tt, w1)
             /\ abonar P w1 = (Err Rechazo, w')
             /\ balances w' = balances w1).
Proof.
  intros abonar. rewrite calcularBalances_settle_spec. unfold settle_spec.
  fold abonar. split; [by intros ->|].
  intros e w' H. apply en_orden_parcial in H as (hechos & P & resto & w1 & Hd & H1 & H2).
  pose proof (actualizarBalance_rechazo _ _ _ _ _ _ _ H2) as (-> & Hb & _).
  split; [done|]. by exists hechos, P, resto, w1.
Qed.

Lemma calcularBalances_parcial_witness :
  let w := con_fallos [false; false; true] mundo_inicial in
  let w' := (calcularBalances evento_A w).2 in
  exists hechos P resto w1,
    deudores evento_A = (hechos ++ P :: resto)%list
    /\ en_orden
         (map (fun P => actualizarBalance (uid P) (quienPago evento_A)
                          (moneda_str (Ev.moneda evento_A))
                          (Ev.monto evento_A * participacion P)%Qc) hechos) w
       = (Ok tt, w1)
    /\ balances w' = balances w1.
Proof.
  intros w w'.
  destruct (calcularBalances_parcial evento_A w) as [_ H].
  destruct (H Rechazo w') as (_ & hechos & P & resto & w1 & H1 & H2 & _ & H3).
  - apply injective_projections; [vm_compute; reflexivity|reflexivity].
  - by exists hechos, P, resto, w1.
Defined.

(** ** What the handlers leave alone *)

Global Instance sin_tocar_preorden {A} (campo : Mundo -> A) : PreOrder (sin_tocar campo).
Proof.
  split.
  - by intros w.
  - intros w1 w2 w3 H1 H2. unfold sin_tocar in *. congruence.
Qed.

Global Instance sin_tocar_ambiental {A} (campo : Mundo -> A) `{!Almacenado campo} :
  Ambiental (sin_tocar campo).
Proof.
  split; intros; red;
    [apply almacenado_fallos|apply almacenado_sorteos|apply almacenado_generados].
Qed.

Global Instance eventos_almacenado : Almacenado eventos.
Proof. by split. Qed.
Global Instance balances_almacenado : Almacenado balances.
Proof. by split. Qed.
Global Instance invitaciones_almacenado : Almacenado invitaciones.
Proof. by split. Qed.
Global Instance usuarios_almacenado : Almacenado usuarios.
Proof. by split. Qed.
Global Instance auditorias_almacenado : Almacenado auditorias.
Proof. by split. Qed.
Global Instance fcm_tokens_almacenado : Almacenado fcm_tokens.
Proof. by split. Qed.
Global Instance archivos_almacenado : Almacenado archivos.
Proof. by split. Qed.
Global Instance enviados_almacenado : Almacenado enviados.
Proof. by split. Qed.
Global Instance reloj_almacenado : Almacenado reloj.
Proof. by split. Qed.

Global Instance ambos_preorden R1 R2 `{!PreOrder R1, !PreOrder R2} : PreOrder (ambos R1 R2).
Proof.
  split.
  - intros w. split; reflexivity.
  - intros w1 w2 w3 [H1 H2] [H3 H4]. split; by etrans.
Qed.

Global Instance ambos_ambiental R1 R2 `{!Ambiental R1, !Ambiental R2} :
  Ambiental (ambos R1 R2).
Proof.
  split; intros; split;
    first [apply ambiental_fallos|apply ambiental_sorteos|apply ambiental_generados].
Qed.

Global Instance crece_preorden : PreOrder crece.
Proof.
  split.
  - intros w. by repeat split.
  - intros w1 w2 w3 (A1 & A2 & A3 & A4 & A5 & A6 & A7 & A8 & A9)
      (B1 & B2 & B3 & B4 & B5 & B6 & B7 & B8 & B9).
    repeat split; try (by etrans); congruence.
Qed.

Global Instance crece_ambiental : Ambiental crece.
Proof. split; intros; by repeat split. Qed.

Ltac fin_huella := intros; repeat (red; try split); reflexivity.

Ltac fin_crece :=
  intros; repeat split; simpl;
  first [ done
        | apply dom_insert_subseteq
        | by apply prefix_app_r
        | apply subseteq_difference_l; done ].

(** The helpers that swallow their errors, under any relation they keep. *)
Ltac marco_handler fin :=
  repeat first
    [ progress (unfold doc_get, doc_set, doc_update, doc_add, now, consultar_token,
                registrarAuditoria, enviarNotificacionNuevoParticipante,
                enviarNotificacionPush, eliminarArchivo, contarArchivosEvento)
    | eapply respeta_intentar with (E' := cualquiera); [apply _| |intros ? _]
    | progress (marco_con fin)
    | progress intros ].

Lemma joinByToken_crece data context : respeta crece cualquiera (joinByToken data context).
Proof. unfold joinByToken. marco_handler fin_crece. Qed.

Lemma validarAdjuntos_crece object :
  respeta crece cualquiera (onStorageFinalize_validarAdjuntos object).
Proof.
  unfold onStorageFinalize_validarAdjuntos. marco_handler fin_crece.
Qed.

(** The close handler keeps every relation that the writes it is made of
    keep. *)
Section MarcoCierre.
Context (R : Mundo -> Mundo -> Prop) `{!PreOrder R} `{!Ambiental R}.
Hypothesis R_balances : forall k v w, R w (con_balances (insert k v) w).
Hypothesis R_eventos : forall k v w, R w (con_eventos (insert k v) w).
Hypothesis R_invitaciones : forall k v w, R w (con_invitaciones (insert k v) w).
Hypothesis R_enviados : forall m w, R w (con_enviados (fun l => (l ++ [m])%list) w).

Lemma actualizarBalance_respeta d a m x :
  respeta R cualquiera (actualizarBalance d a m x).
Proof using PreOrder0 Ambiental0 R_balances. unfold actualizarBalance. marco_handler ltac:(by auto). Qed.

Lemma calcularBalances_respeta evento : respeta R cualquiera (calcularBalances evento).
Proof using PreOrder0 Ambiental0 R_balances.
  unfold calcularBalances.
  apply respeta_intentar with (E' := cualquiera); [apply _| |intros e _; marco].
  generalize (o_bien (Ev.quien_pago evento) (Ev.creado_por evento)). intros q.
  induction (Ev.participantes evento) as [|p ps IH]; simpl; [marco|].
  destruct (String.eqb (uid p) q); [done|].
  apply respeta_bind; [apply _|apply actualizarBalance_respeta|done].
Qed.

Lemma generarTokenInvitacion_respeta n :
  respeta R cualquiera (generarTokenInvitacion n).
Proof using PreOrder0 Ambiental0.
  unfold generarTokenInvitacion. generalize "". induction n as [|n IH]; intros t; simpl.
  - marco.
  - apply respeta_bind; [apply _|apply respeta_random_floor; apply _|]. intros i. apply IH.
Qed.

Lemma crearInvitacion_respeta eventoId creadorUid :
  respeta R cualquiera (crearInvitacion eventoId creadorUid).
Proof using PreOrder0 Ambiental0 R_invitaciones.
  unfold crearInvitacion.
  apply respeta_intentar with (E' := cualquiera); [apply _| |intros e _; marco].
  apply respeta_bind; [apply _|apply generarTokenInvitacion_respeta|].
  intros token. marco_handler ltac:(by auto).
Qed.

Lemma crearEventoRecurrente_respeta evento :
  respeta R cualquiera (crearEventoRecurrente evento).
Proof using PreOrder0 Ambiental0.
  intros w. rewrite crearEventoRecurrente_lanza. split; [apply ambiental_sorteos|done].
Qed.

Lemma enviarNotificacionPush_respeta usuario n :
  respeta R nunca (enviarNotificacionPush usuario n).
Proof using PreOrder0 Ambiental0 R_enviados.
  unfold enviarNotificacionPush.
  apply respeta_intentar with (E' := cualquiera); [apply _| |intros e _; marco].
  marco_con ltac:(by auto).
Qed.

Lemma enviarNotificacionesCierre_respeta evento :
  respeta R nunca (enviarNotificacionesCierre evento).
Proof using PreOrder0 Ambiental0 R_enviados.
  unfold enviarNotificacionesCierre.
  apply respeta_intentar with (E' := cualquiera); [apply _| |intros e _; marco].
  generalize (o_bien (Ev.quien_pago evento) (Ev.creado_por evento)). intros q.
  induction (Ev.participantes evento) as [|p ps IH]; simpl; [marco|].
  destruct (String.eqb (uid p) q); [done|].
  apply respeta_bind; [apply _| |done].
  eapply respeta_debil; [apply enviarNotificacionPush_respeta|done].
Qed.

Lemma cuerpo_cierre_respeta before after :
  respeta R cualquiera (cuerpo_cierre before after).
Proof using All.
  unfold cuerpo_cierre.
  destruct (_ && _); [|marco].
  apply respeta_bind; [apply _|marco|intros _].
  apply respeta_bind; [apply _|apply calcularBalances_respeta|intros _].
  apply respeta_bind; [apply _| |intros _].
  { destruct (bool_decide _); [apply crearEventoRecurrente_respeta|marco]. }
  eapply respeta_debil; [apply enviarNotificacionesCierre_respeta|done].
Qed.

Lemma onEventoUpdate_cierre_respeta eventoId before after :
  respeta R cualquiera (onEventoUpdate_cierre eventoId before after).
Proof using All.
  unfold onEventoUpdate_cierre.
  apply respeta_intentar with (E' := cualquiera); [apply _|apply cuerpo_cierre_respeta|].
  intros e _. marco_handler ltac:(by auto).
Qed.
End MarcoCierre.

Lemma createEvento_respeta R `{!PreOrder R} `{!Ambiental R} data context :
  (forall k v w, R w (con_eventos (insert k v) w)) ->
  (forall k v w, R w (con_invitaciones (insert k v) w)) ->
  respeta R cualquiera (createEvento data context).
Proof.
  intros He Hi. unfold createEvento.
  destruct (auth context) as [usuario|]; [|marco].
  cbv zeta. destruct (String.eqb _ _); [marco|].
  destruct (o_bien_numero _ _) as [q| |]; [|marco..].
  destruct (bool_decide _); [marco|].
  destruct (moneda_de _) as [moneda|]; [|marco].
  destruct (repeticion_de _) as [repeticion|]; [|marco].
  unfold now. apply respeta_bind; [apply _|marco|]. intros ahora.
  apply respeta_bind; [apply _|marco|]. intros eventoRef.
  apply respeta_bind; [apply _|apply generarTokenInvitacion_respeta; apply _|].
  intros token. marco_handler ltac:(by auto).
Qed.

(** X9. No handler takes anything back. Whatever the schedule of rejections,
    after a run of [onEventoUpdate_cierre], [joinByToken],
    [onStorageFinalize_validarAdjuntos] or [createEvento] every event,
    balance and invitation document that existed still exists, the audit
    log and the list of messages sent have only been appended to, the
    bucket holds no object it did not hold before, and user profiles,
    registered devices and the clock are unchanged. *)
Theorem nada_se_retira :
  (forall eventoId before after w, crece w (onEventoUpdate_cierre eventoId before after w).2)
  /\ (forall data context w, crece w (joinByToken data context w).2)
  /\ (forall object w, crece w (onStorageFinalize_validarAdjuntos object w).2)
  /\ (forall data context w, crece w (createEvento data context w).2).
Proof.
  split; [|split; [|split]].
  - intros eventoId before after w.
    apply (onEventoUpdate_cierre_respeta crece); fin_crece.
  - intros data context w. apply joinByToken_crece.
  - intros object w. apply validarAdjuntos_crece.
  - intros data context w. apply (createEvento_respeta crece); fin_crece.
Qed.

(** X10. What each handler leaves untouched, under any schedule of
    rejections. The close handler never touches the bucket or the audit
    log. [joinByToken] never touches the ledger or the bucket. The
    validator of attachments never touches events, balances, invitations
    or messages. [createEvento] never touches the ledger, the audit log,
    the bucket or the messages. *)
Theorem cada_handler_en_lo_suyo :
  (forall eventoId before after w,
     let w' := (onEventoUpdate_cierre eventoId before after w).2 in
     archivos w' = archivos w /\ auditorias w' = auditorias w)
  /\ (forall data context w,
        let w' := (joinByToken data context w).2 in
        balances w' = balances w /\ archivos w' = archivos w)
  /\ (forall object w,
        let w' := (onStorageFinalize_validarAdjuntos object w).2 in
        eventos w' = eventos w /\ balances w' = balances w
        /\ invitaciones w' = invitaciones w /\ enviados w' = enviados w)
  /\ (forall data context w,
        let w' := (createEvento data context w).2 in
        balances w' = balances w /\ auditorias w' = auditorias w
        /\ archivos w' = archivos w /\ enviados w' = enviados w).
Proof.
  split; [|split; [|split]].
  - intros eventoId before after w.
    apply (onEventoUpdate_cierre_respeta (ambos (sin_tocar archivos) (sin_tocar auditorias)));
      fin_huella.
  - intros data context w.
    assert (H : respeta (ambos (sin_tocar balances) (sin_tocar archivos)) cualquiera
                  (joinByToken data context))
      by (unfold joinByToken; marco_handler fin_huella).
    apply H.
  - intros object w.
    assert (H : respeta (ambos (sin_tocar eventos)
                           (ambos (sin_tocar balances)
                              (ambos (sin_tocar invitaciones) (sin_tocar enviados))))
                  cualquiera (onStorageFinalize_validarAdjuntos object))
      by (unfold onStorageFinalize_validarAdjuntos; marco_handler fin_huella).
    apply H.
  - intros data context w.
    apply (createEvento_respeta
             (ambos (sin_tocar balances)
                (ambos (sin_tocar auditorias)
                   (ambos (sin_tocar archivos) (sin_tocar enviados)))));
      fin_huella.
Qed.

(** ** The ledger after a close, whatever the store does *)

Lemma actualizarBalance_ok d a m x w w' :
  actualizarBalance d a m x w = (Ok tt, w') ->
  forall k, saldo_en w' k
            = (saldo_en w k
               + if String.eqb (balance_key d a m) k then con_signo d a x else 0)%Qc.
Proof.
  intros H k. pose proof (actualizarBalance_wp d a m x w) as Hw. unfold wp in Hw.
  rewrite H in Hw. destruct Hw as (l & ->).
  apply (saldo_tras_abono d a m x w k).
Qed.

Lemma en_orden_neto_ok (acreedor moneda : string) (monto : Qc) (ps : list Participante)
    w w' :
  en_orden (map (fun P => actualizarBalance (uid P) acreedor moneda
                            (monto * participacion P)%Qc) ps) w = (Ok tt, w') ->
  forall k, saldo_en w' k = (saldo_en w k + suma_en_clave k acreedor moneda monto ps)%Qc.
Proof.
  revert w. induction ps as [|p ps IH]; intros w; simpl.
  - intros [= <-] k. ring.
  - unfold bind.
    destruct (actualizarBalance _ _ _ _ w) as [[[]|e] w1] eqn:Hp; [|discriminate].
    intros H k. rewrite (IH w1 H k), (actualizarBalance_ok _ _ _ _ _ _ Hp k). ring.
Qed.

(** The saldos after [calcularBalances], under any schedule: the debts of
    the debtors up to the first rejected accrual have been added. *)
Lemma calcularBalances_prefijo evento w :
  let r := calcularBalances evento w in
  exists hechos resto,
    deudores evento = (hechos ++ resto)%list
    /\ (r.1 = Ok tt -> resto = [])
    /\ (resto = [] -> r.1 = Ok tt)
    /\ forall k,
         saldo_en r.2 k
         = (saldo_en w k
            + suma_en_clave k (quienPago evento) (moneda_str (Ev.moneda evento))
                (Ev.monto evento) hechos)%Qc.
Proof.
  intros r. unfold r. clear r. rewrite calcularBalances_settle_spec. unfold settle_spec.
  destruct (en_orden _ w) as [[[]|e] w'] eqn:H.
  - exists (deudores evento), []. rewrite app_nil_r.
    split; [done|]. split; [done|]. split; [done|].
    by apply en_orden_neto_ok.
  - apply en_orden_parcial in H as (hechos & P & resto & w1 & Hd & H1 & H2).
    exists hechos, (P :: resto). split; [done|]. split; [done|]. split; [done|].
    intros k. simpl.
    apply actualizarBalance_rechazo in H2 as (_ & Hb & _).
    rewrite <- (en_orden_neto_ok _ _ _ _ _ _ H1 k). unfold saldo_en. by rewrite Hb.
Qed.

Lemma saldo_en_sin_tocar w w' k : sin_tocar balances w w' -> saldo_en w' k = saldo_en w k.
Proof. unfold sin_tocar, saldo_en. by intros ->. Qed.

Lemma revertir_sin_tocar_balances eventoId e w :
  sin_tocar balances w
    ((doc_update eventos con_eventos eventoId revertir ;; @lanzar unit e) w).2.
Proof.
  assert (H : respeta (sin_tocar balances) cualquiera
                (doc_update eventos con_eventos eventoId revertir ;; @lanzar unit e))
    by (marco_handler fin_huella).
  apply H.
Qed.

Lemma revertir_no_ok eventoId e w :
  ((doc_update eventos con_eventos eventoId revertir ;; @lanzar unit e) w).1 <> Ok tt.
Proof.
  rewrite revertir_y_relanzar.
  destruct (siguiente_falla w); [discriminate|].
  destruct (eventos w !! eventoId); discriminate.
Qed.

(** The close handler once the payer has been validated. *)
Lemma cierre_validado_saldos eventoId after w :
  let r :=
    intentar
      (calcularBalances after ;;
       (if bool_decide (Ev.repeticion after = mensual)
        then crearEventoRecurrente after else ret tt) ;;
       enviarNotificacionesCierre after)
      (fun error => doc_update eventos con_eventos eventoId revertir ;; lanzar error) w in
  exists hechos resto,
    deudores after = (hechos ++ resto)%list
    /\ (r.1 = Ok tt -> resto = [])
    /\ (forall k,
          saldo_en r.2 k
          = (saldo_en w k
             + suma_en_clave k (quienPago after) (moneda_str (Ev.moneda after))
                 (Ev.monto after) hechos)%Qc)
    /\ (Ev.repeticion after = unico -> resto = [] -> r.1 = Ok tt).
Proof.
  intros r.
  set (h := fun error : error =>
              doc_update eventos con_eventos eventoId revertir ;; @lanzar unit error) in *.
  set (m := (if bool_decide (Ev.repeticion after = mensual)
             then crearEventoRecurrente after else ret tt) ;;
            enviarNotificacionesCierre after) in *.
  assert (Hr : r = match calcularBalances after w with
                   | (Ok _, w1) => intentar m h w1
                   | (Err e, w1) => h e w1
                   end).
  { unfold r, intentar, bind.
    by destruct (calcularBalances after w) as [[[]|e1] w1]. }
  rewrite Hr. clear Hr r.
  destruct (calcularBalances_prefijo after w) as (hechos & resto & Hd & Hok & Hko & Hs).
  destruct (calcularBalances after w) as [[[]|e1] w1] eqn:Hc; simpl in Hok, Hko, Hs.
  2:{ exists hechos, resto. split; [done|]. split; [|split].
      - intros H. by apply revertir_no_ok in H.
      - intros k. unfold h.
        rewrite (saldo_en_sin_tocar _ _ k (revertir_sin_tocar_balances _ e1 w1)).
        apply Hs.
      - intros _ Hres. by specialize (Hko Hres). }
  rewrite (Hok eq_refl), app_nil_r in Hd. subst hechos.
  exists (deudores after), []. rewrite app_nil_r. split; [done|]. split; [done|].
  assert (Hresto : respeta (sin_tocar balances) cualquiera m).
  { apply respeta_bind; [apply _| |intros _].
    - destruct (bool_decide _); [|marco].
      apply crearEventoRecurrente_respeta; try apply _; fin_huella.
    - eapply respeta_debil; [|done].
      apply enviarNotificacionesCierre_respeta; try apply _; fin_huella. }
  destruct (Hresto w1) as [H1 _]. unfold intentar.
  split.
  - intros k. rewrite <- Hs.
    destruct (m w1) as [[[]|e2] w2] eqn:Hr; simpl in H1.
    + by apply saldo_en_sin_tocar.
    + unfold h. rewrite (saldo_en_sin_tocar _ _ k (revertir_sin_tocar_balances _ e2 w2)).
      by apply saldo_en_sin_tocar.
  - intros Hu _. unfold m. rewrite Hu, bool_decide_eq_false_2 by done.
    unfold bind at 1. unfold ret at 1.
    destruct (enviarNotificacionesCierre_ce after w1) as [_ Hn].
    destruct (enviarNotificacionesCierre after w1) as [[[]|e] w2]; [done|].
    destruct (Hn e eq_refl).
Qed.

(** The close handler on a transition whose payer, if any, is a
    participant. *)
Lemma cierre_valido_forma eventoId before after w :
  Ev.estado before = abierto -> Ev.estado after = cerrado ->
  (forall q, Ev.quien_pago after = Some q -> q <> "" ->
             es_participante q (Ev.participantes after) = true) ->
  onEventoUpdate_cierre eventoId before after w
  = intentar
      (calcularBalances after ;;
       (if bool_decide (Ev.repeticion after = mensual)
        then crearEventoRecurrente after else ret tt) ;;
       enviarNotificacionesCierre after)
      (fun error => doc_update eventos con_eventos eventoId revertir ;; lanzar error) w.
Proof.
  intros Hb Ha Hq. unfold onEventoUpdate_cierre, cuerpo_cierre.
  rewrite Hb, Ha. rewrite !bool_decide_eq_true_2 by done. cbn [andb].
  destruct (Ev.quien_pago after) as [q|]; [|reflexivity].
  destruct (String.eqb_spec q "") as [->|Hne]; [reflexivity|].
  by rewrite (Hq q eq_refl Hne).
Qed.

(** X11. The ledger after the close handler, under any schedule of
    rejections. On an open-to-closed transition, the saldos after the run
    are the saldos before plus the debts of an initial segment [hechos] of
    the debtors of the event; when the handler ends normally the segment is
    the whole list. In particular the compensating write of a failed close
    reopens the event but takes no accrual back: the debts of the debtors
    settled before the failure stay in the ledger. *)
Theorem onEventoUpdate_cierre_saldos (eventoId : string) (before after : Evento)
    (w : Mundo) :
  Ev.estado before = abierto -> Ev.estado after = cerrado ->
  let r := onEventoUpdate_cierre eventoId before after w in
  exists hechos resto,
    deudores after = (hechos ++ resto)%list
    /\ (r.1 = Ok tt -> resto = [])
    /\ forall k,
         saldo_en r.2 k
         = (saldo_en w k
            + suma_en_clave k (quienPago after) (moneda_str (Ev.moneda after))
                (Ev.monto after) hechos)%Qc.
Proof.
  intros Hb Ha r.
  unfold r, onEventoUpdate_cierre, cuerpo_cierre. clear r.
  rewrite Hb, Ha. rewrite !bool_decide_eq_true_2 by done. cbn [andb].
  assert (Hfalla : forall e,
    let r := intentar
               (@lanzar unit e ;;
                calcularBalances after ;;
                (if bool_decide (Ev.repeticion after = mensual)
                 then crearEventoRecurrente after else ret tt) ;;
                enviarNotificacionesCierre after)
               (fun error => doc_update eventos con_eventos eventoId revertir ;; lanzar error)
               w in
    exists hechos resto,
      deudores after = (hechos ++ resto)%list
      /\ (r.1 = Ok tt -> resto = [])
      /\ forall k,
           saldo_en r.2 k
           = (saldo_en w k
              + suma_en_clave k (quienPago after) (moneda_str (Ev.moneda after))
                  (Ev.monto after) hechos)%Qc).
  { intros e r. exists [], (deudores after). split; [done|].
    change r with ((doc_update eventos con_eventos eventoId revertir ;; @lanzar unit e) w).
    split.
    - intros H. by apply revertir_no_ok in H.
    - intros k. rewrite (saldo_en_sin_tocar _ _ k (revertir_sin_tocar_balances _ e w)).
      simpl. ring. }
  assert (Hpasa :
    let r := intentar
               (ret tt ;;
                calcularBalances after ;;
                (if bool_decide (Ev.repeticion after = mensual)
                 then crearEventoRecurrente after else ret tt) ;;
                enviarNotificacionesCierre after)
               (fun error => doc_update eventos con_eventos eventoId revertir ;; lanzar error)
               w in
    exists hechos resto,
      deudores after = (hechos ++ resto)%list
      /\ (r.1 = Ok tt -> resto = [])
      /\ forall k,
           saldo_en r.2 k
           = (saldo_en w k
              + suma_en_clave k (quienPago after) (moneda_str (Ev.moneda after))
                  (Ev.monto after) hechos)%Qc).
  { destruct (cierre_validado_saldos eventoId after w) as (hechos & resto & H1 & H2 & H3 & _).
    by exists hechos, resto. }
  destruct (Ev.quien_pago after) as [q|]; [|apply Hpasa].
  destruct (_ && _); [apply Hfalla|apply Hpasa].
Qed.


Lemma onEventoUpdate_cierre_saldos_witness :
  let r := onEventoUpdate_cierre "e1" (revertir evento_A) evento_A mundo_A_caido in
  r.1 = Err Rechazo
  /\ Ev.estado <$> eventos r.2 !! "e1" = Some abierto
  /\ saldo_en r.2 "u1_u2_ARS" = Qc_of_Z 100
  /\ exists hechos resto,
       deudores evento_A = (hechos ++ resto)%list
       /\ forall k,
            saldo_en r.2 k
            = (saldo_en mundo_A_caido k
               + suma_en_clave k "u1" "ARS" (Qc_of_Z 300) hechos)%Qc.
Proof.
  intros r.
  destruct (onEventoUpdate_cierre_saldos "e1" (revertir evento_A) evento_A mundo_A_caido
              eq_refl eq_refl) as (hechos & resto & Hd & _ & Hs).
  split; [vm_compute; reflexivity|]. split; [vm_compute; reflexivity|].
  split; [apply Qc_is_canon; vm_compute; reflexivity|].
  by exists hechos, resto.
Defined.

Lemma cierre_unico_sin_fallos eventoId before after w :
  sin_fallos w ->
  Ev.estado before = abierto -> Ev.estado after = cerrado ->
  Ev.repeticion after = unico ->
  (forall q, Ev.quien_pago after = Some q -> q <> "" ->
             es_participante q (Ev.participantes after) = true) ->
  let r := onEventoUpdate_cierre eventoId before after w in
  r.1 = Ok tt
  /\ forall k,
       saldo_en r.2 k
       = (saldo_en w k
          + suma_en_clave k (quienPago after) (moneda_str (Ev.moneda after))
              (Ev.monto after) (deudores after))%Qc.
Proof.
  intros Hf Hb Ha Hu Hq r. unfold r. clear r.
  rewrite (cierre_valido_forma eventoId before after w Hb Ha Hq).
  destruct (cierre_validado_saldos eventoId after w)
    as (hechos & resto & Hd & Hr & Hs & _).
  assert (Hok : (intentar
                   (calcularBalances after ;;
                    (if bool_decide (Ev.repeticion after = mensual)
                     then crearEventoRecurrente after else ret tt) ;;
                    enviarNotificacionesCierre after)
                   (fun error =>
                      doc_update eventos con_eventos eventoId revertir ;; lanzar error)
                   w).1 = Ok tt).
  { unfold intentar. rewrite Hu. rewrite bool_decide_eq_false_2 by done.
    unfold bind at 1.
    rewrite calcularBalances_settle_spec. unfold settle_spec.
    destruct (en_orden_accruals (quienPago after) (moneda_str (Ev.moneda after))
                (fun P => (Ev.monto after * participacion P)%Qc) (deudores after) w Hf)
      as (g & Hg & _).
    rewrite Hg. unfold bind at 1. unfold ret at 1.
    destruct (enviarNotificacionesCierre_ce after (con_balances g w)) as [_ Hn].
    destruct (enviarNotificacionesCierre after (con_balances g w)) as [[[]|e] w2]; [done|].
    destruct (Hn e eq_refl). }
  split; [exact Hok|].
  rewrite (Hr Hok), app_nil_r in Hd. by subst hechos.
Qed.

(** X12. A close that failed and is tried again. Take a non-recurring event
    with a valid payer whose close failed, and run the handler again on the
    same transition, now with a store that answers, from a world whose
    ledger is the one the failed run left. The second run succeeds, and
    every saldo ends as the saldo before the first run plus the debts of
    the debtors settled before the failure plus the debts of all debtors:
    what was accrued before the failure is counted twice. The failure left
    at least one debtor unsettled. *)
Theorem onEventoUpdate_cierre_reintento (eventoId : string) (before after : Evento)
    (w w3 : Mundo) :
  Ev.estado before = abierto -> Ev.estado after = cerrado ->
  Ev.repeticion after = unico ->
  (forall q, Ev.quien_pago after = Some q -> q <> "" ->
             es_participante q (Ev.participantes after) = true) ->
  let r1 := onEventoUpdate_cierre eventoId before after w in
  let r2 := onEventoUpdate_cierre eventoId before after w3 in
  r1.1 <> Ok tt ->
  sin_fallos w3 -> balances w3 = balances r1.2 ->
  exists hechos resto,
    deudores after = (hechos ++ resto)%list
    /\ resto <> []
    /\ r2.1 = Ok tt
    /\ forall k,
         saldo_en r2.2 k
         = (saldo_en w k
            + suma_en_clave k (quienPago after) (moneda_str (Ev.moneda after))
                (Ev.monto after) hechos
            + suma_en_clave k (quienPago after) (moneda_str (Ev.moneda after))
                (Ev.monto after) (deudores after))%Qc.
Proof.
  intros Hb Ha Hu Hq r1 r2 Hno Hf3 Hbal.
  destruct (cierre_validado_saldos eventoId after w)
    as (hechos & resto & Hd & _ & Hs & Hk).
  rewrite <- (cierre_valido_forma eventoId before after w Hb Ha Hq) in Hs, Hk.
  destruct (cierre_unico_sin_fallos eventoId before after w3 Hf3 Hb Ha Hu Hq) as [Hok Hs2].
  exists hechos, resto. split; [done|].
  split; [intros Hres; apply Hno; by apply Hk|]. split; [exact Hok|].
  intros k. unfold r2. rewrite Hs2, <- Hs. f_equal. unfold saldo_en. by rewrite Hbal.
Qed.

Lemma onEventoUpdate_cierre_reintento_witness :
  let r1 := onEventoUpdate_cierre "e1" (revertir evento_A) evento_A mundo_A_caido in
  let r2 := onEventoUpdate_cierre "e1" (revertir evento_A) evento_A r1.2 in
  r1.1 = Err Rechazo
  /\ r2.1 = Ok tt
  /\ saldo_en r2.2 "u1_u2_ARS" = Qc_of_Z 200
  /\ saldo_en r2.2 "u1_u3_ARS" = Qc_of_Z 100.
Proof.
  intros r1 r2.
  destruct (onEventoUpdate_cierre_reintento "e1" (revertir evento_A) evento_A mundo_A_caido
              r1.2 eq_refl eq_refl eq_refl)
    as (hechos & resto & _ & _ & Hok & _).
  - intros q [= <-] _. reflexivity.
  - vm_compute. discriminate.
  - vm_compute. reflexivity.
  - reflexivity.
  - split; [vm_compute; reflexivity|]. split; [exact Hok|].
    split; apply Qc_is_canon; vm_compute; reflexivity.
Defined.

(** ** The close handler with a store that answers *)

Lemma balance_key_mismo_acreedor x y a m :
  sin_guion x = true -> sin_guion y = true -> sin_guion a = true ->
  balance_key x a m = balance_key y a m -> x = y.
Proof.
  intros Hx Hy Ha E. apply balance_key_inj in E as [E _]; try done.
  destruct (sort2 y a) as [c d] eqn:Es.
  apply sort2_miembros in E, Es.
  destruct E as [[? ?]|[? ?]], Es as [[? ?]|[? ?]]; congruence.
Qed.

Lemma suma_en_clave_ajena k acreedor moneda monto ps :
  (forall P, P ∈ ps -> balance_key (uid P) acreedor moneda <> k) ->
  suma_en_clave k acreedor moneda monto ps = 0%Qc.
Proof.
  induction ps as [|p ps IH]; intros H; simpl; [done|].
  rewrite IH by (intros P HP; apply H; by right).
  assert (Hp : balance_key (uid p) acreedor moneda <> k) by (apply H; left).
  apply String.eqb_neq in Hp. rewrite Hp. ring.
Qed.

(** The debt of one participant in the sum of a key, when the participants
    are users listed once each. *)
Lemma suma_en_clave_propia acreedor moneda monto ps P :
  es_uid acreedor = true -> (forall Q, Q ∈ ps -> es_uid (uid Q) = true) ->
  NoDup (uid <$> ps) -> P ∈ ps ->
  suma_en_clave (balance_key (uid P) acreedor moneda) acreedor moneda monto ps
  = con_signo (uid P) acreedor (monto * participacion P).
Proof.
  intros Ha. induction ps as [|p ps IH]; intros Hu Hnd HP; [by apply elem_of_nil in HP|].
  apply NoDup_cons in Hnd as [Hp Hnd]. cbn [suma_en_clave].
  assert (Hotros : forall Q, Q ∈ ps -> uid Q <> uid p).
  { intros Q HQ E. apply Hp. rewrite <- E. apply list_elem_of_fmap. by exists Q. }
  assert (Hinj : forall X Y, X ∈ p :: ps -> Y ∈ p :: ps ->
            balance_key (uid X) acreedor moneda = balance_key (uid Y) acreedor moneda ->
            uid X = uid Y).
  { intros X Y HX HY. apply balance_key_mismo_acreedor; auto using es_uid_sin_guion. }
  apply elem_of_cons in HP as [->|HP].
  - rewrite String.eqb_refl, suma_en_clave_ajena; [ring|].
    intros Q HQ E. apply (Hotros Q HQ). apply Hinj; [by right|left|done].
  - assert (Hne : balance_key (uid p) acreedor moneda <> balance_key (uid P) acreedor moneda).
    { intros E. apply (Hotros P HP). symmetry. apply Hinj; [left|by right|done]. }
    apply String.eqb_neq in Hne. rewrite Hne, IH; [ring| |done|done].
    intros Q HQ. apply Hu. by right.
Qed.

Lemma intentar_bind_ok {A B} (m : M A) (k : A -> M B) h w a w1 :
  m w = (Ok a, w1) -> intentar (bind m k) h w = intentar (k a) h w1.
Proof. intros H. unfold intentar, bind. by rewrite H. Qed.

Lemma intentar_bind_err {A B} (m : M A) (k : A -> M B) h w e w1 :
  m w = (Err e, w1) -> intentar (bind m k) h w = h e w1.
Proof. intros H. unfold intentar, bind. by rewrite H. Qed.

Lemma error_indefinido_otro u : error_indefinido <> error_no_participante u.
Proof. unfold error_indefinido, error_no_participante. intros [= E]. Qed.

(** After a run of accruals towards one creditor, with a store that
    answers, the balance document of every debtor exists, and no document
    has gone. *)
Lemma en_orden_documentos (acreedor moneda : string) (f : Participante -> Qc)
    (ps : list Participante) w w' :
  sin_fallos w ->
  en_orden (map (fun P => actualizarBalance (uid P) acreedor moneda (f P)) ps) w
  = (Ok tt, w') ->
  (forall k, is_Some (balances w !! k) -> is_Some (balances w' !! k))
  /\ forall P, P ∈ ps -> is_Some (balances w' !! balance_key (uid P) acreedor moneda).
Proof.
  revert w. induction ps as [|p ps IH]; intros w Hf; simpl.
  - intros [= <-]. split; [done|]. intros P HP. by apply elem_of_nil in HP.
  - unfold bind. rewrite actualizarBalance_sin_fallos by done.
    set (w1 := con_balances _ w). intros H.
    destruct (IH w1 Hf H) as [Hk HP].
    assert (Hw1 : forall k, is_Some (balances w !! k) -> is_Some (balances w1 !! k)).
    { intros k Hs. unfold w1. simpl. rewrite lookup_insert_is_Some. 
      destruct (decide (balance_key (uid p) acreedor moneda = k)); auto. }
    split; [auto|]. intros P [->|HP']%elem_of_cons; [|by apply HP].
    apply Hk. unfold w1. simpl. rewrite lookup_insert_eq. by eexists.
Qed.

(** The close handler with a store that answers, on a transition whose
    payer, if any, is a participant. *)
Lemma cierre_sin_fallos eventoId before after w :
  sin_fallos w ->
  Ev.estado before = abierto -> Ev.estado after = cerrado ->
  (forall q, Ev.quien_pago after = Some q -> q <> "" ->
             es_participante q (Ev.participantes after) = true) ->
  let r := onEventoUpdate_cierre eventoId before after w in
  (forall k,
     saldo_en r.2 k
     = (saldo_en w k
        + suma_en_clave k (quienPago after) (moneda_str (Ev.moneda after))
            (Ev.monto after) (deudores after))%Qc)
  /\ (forall P, P ∈ deudores after ->
        is_Some (balances r.2
                   !! balance_key (uid P) (quienPago after) (moneda_str (Ev.moneda after))))
  /\ (Ev.repeticion after = unico -> r.1 = Ok tt)
  /\ (Ev.repeticion after = mensual ->
      invitaciones r.2 = invitaciones w
      /\ (eventos w !! eventoId = Some after ->
          r.1 = Err error_indefinido
          /\ eventos r.2 = <[eventoId := revertir after]> (eventos w))).
Proof.
  intros Hf Hb Ha Hq r. unfold r. clear r.
  rewrite (cierre_valido_forma eventoId before after w Hb Ha Hq).
  destruct (en_orden_neto (quienPago after) (moneda_str (Ev.moneda after))
              (Ev.monto after) (deudores after) w Hf) as (g & Hg & Hs).
  set (w1 := con_balances g w) in *.
  assert (Hc : calcularBalances after w = (Ok tt, w1))
    by (rewrite calcularBalances_settle_spec; exact Hg).
  assert (Hf1 : sin_fallos w1) by exact Hf.
  destruct (en_orden_documentos _ _ _ _ _ _ Hf Hg) as [_ Hdoc].
  rewrite (intentar_bind_ok _ _ _ _ tt w1 Hc).
  destruct (Ev.repeticion after) eqn:Hrep.
  - rewrite bool_decide_eq_false_2 by done.
    rewrite (intentar_bind_ok _ _ _ _ tt w1 eq_refl). unfold intentar.
    destruct (enviarNotificacionesCierre_ce after w1) as [_ Hn].
    assert (Hst : sin_tocar balances w1 (enviarNotificacionesCierre after w1).2).
    { apply (enviarNotificacionesCierre_respeta (sin_tocar balances)); fin_huella. }
    destruct (enviarNotificacionesCierre after w1) as [[[]|e] w2];
      [|destruct (Hn e eq_refl)].
    cbn [snd] in *. split; [|split; [|split; [done|discriminate]]].
    + intros k. rewrite (saldo_en_sin_tocar _ _ k Hst). apply Hs.
    + intros P HP. rewrite Hst. by apply Hdoc.
  - rewrite bool_decide_eq_true_2 by done.
    rewrite (intentar_bind_err _ _ _ _ _ _ (crearEventoRecurrente_lanza after w1)).
    set (w2 := con_sorteos _ w1).
    assert (Hf2 : sin_fallos w2) by exact Hf.
    rewrite revertir_y_relanzar, (siguiente_falla_sin_fallos w2 Hf2),
      (avanzar_sin_fallos w2 Hf2).
    change (eventos w2) with (eventos w).
    split; [|split; [|split; [discriminate|]]].
    + intros k. rewrite <- Hs.
      destruct (eventos w !! eventoId); reflexivity.
    + intros P HP. apply Hdoc in HP.
      destruct (eventos w !! eventoId); exact HP.
    + intros _. split; [by destruct (eventos w !! eventoId)|].
      intros Hev. rewrite Hev. done.
Qed.


(** The body of the close handler on a monthly event never ends normally,
    and it sends no message and creates no invitation. *)
Lemma cuerpo_cierre_mensual before after w :
  Ev.estado before = abierto -> Ev.estado after = cerrado ->
  Ev.repeticion after = mensual ->
  (forall a, (cuerpo_cierre before after w).1 <> Ok a)
  /\ enviados (cuerpo_cierre before after w).2 = enviados w
  /\ invitaciones (cuerpo_cierre before after w).2 = invitaciones w.
Proof.
  intros Hb Ha Hm. unfold cuerpo_cierre.
  rewrite Hb, Ha, Hm. rewrite !bool_decide_eq_true_2 by done. cbn [andb].
  set (resto := crearEventoRecurrente after ;; enviarNotificacionesCierre after).
  assert (Hresto : forall w1, (forall a, (resto w1).1 <> Ok a)
                              /\ enviados (resto w1).2 = enviados w1
                              /\ invitaciones (resto w1).2 = invitaciones w1).
  { intros w1. unfold resto, bind. rewrite crearEventoRecurrente_lanza. done. }
  assert (Hcalc : forall w1, enviados (calcularBalances after w1).2 = enviados w1
                             /\ invitaciones (calcularBalances after w1).2 = invitaciones w1).
  { intros w1.
    apply (calcularBalances_respeta (ambos (sin_tocar enviados) (sin_tocar invitaciones)));
      fin_huella. }
  assert (Hsigue : forall w1,
    let r := (calcularBalances after ;; resto) w1 in
    (forall a, r.1 <> Ok a) /\ enviados r.2 = enviados w1
    /\ invitaciones r.2 = invitaciones w1).
  { intros w1. cbv zeta. unfold bind at 1 2 3. destruct (Hcalc w1) as [H1 H2].
    destruct (calcularBalances after w1) as [[[]|e] w2]; simpl in H1, H2.
    - destruct (Hresto w2) as (H3 & H4 & H5). rewrite H4, H5. done.
    - done. }
  destruct (Ev.quien_pago after) as [q|]; [|apply Hsigue].
  destruct (_ && _); [done|apply Hsigue].
Qed.

(** X24. Closing a monthly event. Under any schedule of rejections the close
    handler does not end normally on an open-to-closed transition of a
    monthly event, it sends no message and creates no invitation: the
    recurring event is refused and what follows it is never run. With a
    store that answers, a payer who is a participant (or none) and the
    closed event stored under [eventoId], the handler ends with the refusal
    of the recurring event, the stored event is the closed one reopened by
    the compensating write, no other event document is created, and the
    debts of all debtors are in the ledger all the same. *)
Theorem onEventoUpdate_cierre_mensual (eventoId : string) (before after : Evento)
    (w : Mundo) :
  Ev.estado before = abierto -> Ev.estado after = cerrado ->
  Ev.repeticion after = mensual ->
  let r := onEventoUpdate_cierre eventoId before after w in
  r.1 <> Ok tt
  /\ enviados r.2 = enviados w
  /\ invitaciones r.2 = invitaciones w
  /\ (sin_fallos w ->
      (forall q, Ev.quien_pago after = Some q -> q <> "" ->
                 es_participante q (Ev.participantes after) = true) ->
      eventos w !! eventoId = Some after ->
      r.1 = Err error_indefinido
      /\ eventos r.2 = <[eventoId := revertir after]> (eventos w)
      /\ forall k,
           saldo_en r.2 k
           = (saldo_en w k
              + suma_en_clave k (quienPago after) (moneda_str (Ev.moneda after))
                  (Ev.monto after) (deudores after))%Qc).
Proof.
  intros Hb Ha Hm r.
  destruct (cuerpo_cierre_mensual before after w Hb Ha Hm) as (Hno & Hen & Hin).
  assert (Hr : r = match cuerpo_cierre before after w with
                   | (Ok a, w1) => (Ok a, w1)
                   | (Err e, w1) =>
                       (doc_update eventos con_eventos eventoId revertir ;; @lanzar unit e) w1
                   end) by reflexivity.
  destruct (cuerpo_cierre before after w) as [[a|e] w1]; [by destruct (Hno a)|].
  simpl in Hen, Hin.
  assert (Hrev : respeta (ambos (sin_tocar enviados) (sin_tocar invitaciones)) cualquiera
                   (doc_update eventos con_eventos eventoId revertir ;; @lanzar unit e))
    by (marco_handler fin_huella).
  destruct (Hrev w1) as [[H1 H2] _]. red in H1, H2.
  split; [rewrite Hr; apply revertir_no_ok|].
  split; [rewrite Hr; congruence|]. split; [rewrite Hr; congruence|].
  intros Hf Hq Hev.
  destruct (cierre_sin_fallos eventoId before after w Hf Hb Ha Hq) as (Hs & _ & _ & Hmen).
  destruct (Hmen Hm) as (_ & Hmen'). destruct (Hmen' Hev) as [H3 H4].
  split; [exact H3|]. split; [exact H4|exact Hs].
Qed.

Lemma onEventoUpdate_cierre_mensual_witness :
  let r := onEventoUpdate_cierre "e5" (revertir evento_fin_de_mes) evento_fin_de_mes
             mundo_alquiler in
  r.1 = Err error_indefinido
  /\ Ev.estado <$> eventos r.2 !! "e5" = Some abierto
  /\ size (eventos r.2) = 1%nat
  /\ saldo_en r.2 "u1_u2_ARS" = Qc_of_Z 450.
Proof.
  intros r.
  destruct (onEventoUpdate_cierre_mensual "e5" (revertir evento_fin_de_mes) evento_fin_de_mes
              mundo_alquiler eq_refl eq_refl eq_refl) as (_ & _ & _ & H).
  destruct H as (H1 & H2 & H3).
  - reflexivity.
  - intros q [= <-] _. reflexivity.
  - reflexivity.
  - fold r in H1, H2, H3. split; [exact H1|]. rewrite H2.
    split; [by rewrite lookup_insert_eq|]. split; [vm_compute; reflexivity|].
    rewrite H3. apply Qc_is_canon. vm_compute. reflexivity.
Defined.

(** ** Close without [quien_pago] *)

Lemma filter_todos {A} (f : A -> bool) (l : list A) :
  List.find (fun x => negb (f x)) l = None -> List.filter f l = l.
Proof.
  induction l as [|x l IH]; simpl; [done|].
  destruct (f x); simpl; [|discriminate]. intros H. by rewrite IH.
Qed.

Lemma deudores_todos evento :
  es_participante (quienPago evento) (Ev.participantes evento) = false ->
  deudores evento = Ev.participantes evento.
Proof.
  unfold es_participante, deudores. intros H. apply filter_todos.
  destruct (List.find _ _) eqn:Hf in H; [discriminate|].
  rewrite <- Hf. clear. induction (Ev.participantes evento) as [|p ps IH]; simpl; [done|].
  rewrite negb_involutive. by rewrite IH.
Qed.

(** C9. On an open-to-closed transition whose after-state has no
    [quien_pago]. Whatever the store does, the handler never ends with the
    payer-membership error: its body is settlement, then the recurring
    event for a monthly one, then the notifications, with no membership
    check in front, and it can only fail with a rejection of the platform
    or, for a monthly event, with the refusal of the recurring event. The
    payer of the settlement is [creado_por], and the settlement is the
    sequence of accruals towards the creator for the participants other
    than the creator, which is every participant when the creator is not
    in [participantes]. What the handler leaves in the ledger, under any
    schedule: every saldo is the saldo before plus the debts towards the
    creator of the debtors settled before the first rejection, all of them
    when the handler ends normally. With a store that answers: every saldo
    is the saldo before plus the debts of all debtors towards the creator,
    the balance document of every debtor with the creator exists, and the
    handler ends normally for a non-recurring event. When moreover the
    creator is not in [participantes], the debts are those of every
    participant; and the participants being users listed once each, the
    saldo between each participant and the creator has moved by that
    participant's debt [monto * participacion], counted against the
    participant. *)
Theorem onEventoUpdate_cierre_sin_quien_pago
    (eventoId : string) (before after : Evento) (w : Mundo) :
  Ev.estado before = abierto -> Ev.estado after = cerrado ->
  Ev.quien_pago after = None ->
  let creador := Ev.creado_por after in
  let moneda := moneda_str (Ev.moneda after) in
  let r := onEventoUpdate_cierre eventoId before after w in
  (forall u, r.1 <> Err (error_no_participante u))
  /\ (forall e, (cuerpo_cierre before after w).1 = Err e ->
        e = Rechazo \/ (Ev.repeticion after = mensual /\ e = error_indefinido))
  /\ cuerpo_cierre before after w
     = (calcularBalances after ;;
        (if bool_decide (Ev.repeticion after = mensual)
         then crearEventoRecurrente after else ret tt) ;;
        enviarNotificacionesCierre after) w
  /\ quienPago after = creador
  /\ calcularBalances after w
     = en_orden
         (map (fun P =>
                 actualizarBalance (uid P) creador moneda
                   (Ev.monto after * participacion P)%Qc)
              (List.filter (fun P => negb (String.eqb (uid P) creador))
                 (Ev.participantes after))) w
  /\ (es_participante creador (Ev.participantes after) = false ->
      deudores after = Ev.participantes after
      /\ calcularBalances after w
         = en_orden
             (map (fun P =>
                     actualizarBalance (uid P) creador moneda
                       (Ev.monto after * participacion P)%Qc)
                  (Ev.participantes after)) w)
  /\ (exists hechos resto,
        deudores after = (hechos ++ resto)%list
        /\ (r.1 = Ok tt -> resto = [])
        /\ forall k,
             saldo_en r.2 k
             = (saldo_en w k
                + suma_en_clave k creador moneda (Ev.monto after) hechos)%Qc)
  /\ (sin_fallos w ->
      (Ev.repeticion after = unico -> r.1 = Ok tt)
      /\ (forall k,
            saldo_en r.2 k
            = (saldo_en w k
               + suma_en_clave k creador moneda (Ev.monto after) (deudores after))%Qc)
      /\ (forall P, P ∈ deudores after ->
            is_Some (balances r.2 !! balance_key (uid P) creador moneda))
      /\ (es_participante creador (Ev.participantes after) = false ->
          (forall k,
             saldo_en r.2 k
             = (saldo_en w k
                + suma_en_clave k creador moneda (Ev.monto after)
                    (Ev.participantes after))%Qc)
          /\ (es_uid creador = true ->
              (forall P, P ∈ Ev.participantes after -> es_uid (uid P) = true) ->
              NoDup (uid <$> Ev.participantes after) ->
              forall P, P ∈ Ev.participantes after ->
                let k := balance_key (uid P) creador moneda in
                is_Some (balances r.2 !! k)
                /\ saldo_en r.2 k
                   = (saldo_en w k
                      + con_signo (uid P) creador
                          (Ev.monto after * participacion P))%Qc))).
Proof.
  intros Hb Ha Hq creador moneda r.
  assert (Hpag : quienPago after = creador) by (unfold quienPago; by rewrite Hq).
  assert (Hval : forall q, Ev.quien_pago after = Some q -> q <> "" ->
                           es_participante q (Ev.participantes after) = true)
    by (intros q Hq'; congruence).
  assert (Hesc : forall e, (cuerpo_cierre before after w).1 = Err e ->
            e = Rechazo \/ (Ev.repeticion after = mensual /\ e = error_indefinido)).
  { intros e He. destruct (cuerpo_cierre_ce before after w) as [_ H].
    destruct (H e He) as [->|[(q & Hq' & _)|H']]; [by left|congruence|by right]. }
  assert (Hset : calcularBalances after w
     = en_orden
         (map (fun P =>
                 actualizarBalance (uid P) creador moneda
                   (Ev.monto after * participacion P)%Qc)
              (List.filter (fun P => negb (String.eqb (uid P) creador))
                 (Ev.participantes after))) w).
  { rewrite calcularBalances_settle_spec. unfold settle_spec, deudores. by rewrite Hpag. }
  assert (Htodos : es_participante creador (Ev.participantes after) = false ->
                   deudores after = Ev.participantes after).
  { intros Hp. apply deudores_todos. by rewrite Hpag. }
  split.
  { intros u Hu. unfold r in Hu. rewrite onEventoUpdate_cierre_casos in Hu.
    destruct (cuerpo_cierre before after w) as [[[]|e] w1] eqn:Hc; [discriminate|].
    destruct (siguiente_falla w1); [discriminate|].
    destruct (eventos w1 !! eventoId); [|discriminate].
    injection Hu as ->.
    destruct (Hesc _ eq_refl) as [H|[_ H]]; [discriminate H|].
    by apply (error_indefinido_otro u). }
  split; [exact Hesc|].
  split. { unfold cuerpo_cierre. rewrite Hb, Ha, Hq. reflexivity. }
  split; [exact Hpag|].
  split; [exact Hset|].
  split.
  { intros Hp. split; [by apply Htodos|]. rewrite Hset.
    pose proof (Htodos Hp) as Hd. unfold deudores in Hd. rewrite Hpag in Hd.
    by rewrite Hd. }
  split.
  { unfold r. rewrite (cierre_valido_forma eventoId before after w Hb Ha Hval).
    destruct (cierre_validado_saldos eventoId after w) as (hechos & resto & H1 & H2 & H3 & _).
    rewrite Hpag in H3. by exists hechos, resto. }
  intros Hf.
  destruct (cierre_sin_fallos eventoId before after w Hf Hb Ha Hval)
    as (Hs & Hdoc & Hok & _).
  fold r in Hs, Hdoc, Hok. rewrite Hpag in Hs, Hdoc. fold moneda in Hs, Hdoc.
  split; [exact Hok|]. split; [exact Hs|]. split; [exact Hdoc|].
  intros Hp. pose proof (Htodos Hp) as Hd. rewrite Hd in Hs, Hdoc.
  split; [exact Hs|].
  intros Hc Hu Hnd P HP k. split; [by apply Hdoc|].
  rewrite Hs. f_equal. by apply suma_en_clave_propia.
Qed.

Lemma onEventoUpdate_cierre_sin_quien_pago_witness :
  let r := onEventoUpdate_cierre "e4" evento_sin_pagador_abierto evento_sin_pagador
             mundo_inicial in
  quienPago evento_sin_pagador = "u0"
  /\ (forall u, r.1 <> Err (error_no_participante u))
  /\ r.1 = Ok tt
  /\ saldo_en r.2 "u0_u1_USD" = Qc_of_Z 45
  /\ saldo_en r.2 "u0_u2_USD" = Qc_of_Z 45
  /\ size (balances r.2) = 2%nat.
Proof.
  intros r.
  destruct (onEventoUpdate_cierre_sin_quien_pago "e4" evento_sin_pagador_abierto
              evento_sin_pagador mundo_inicial eq_refl eq_refl eq_refl)
    as (H1 & _ & _ & H2 & _ & _ & _ & H3).
  destruct (H3 eq_refl) as (Hok & _ & _ & H4).
  destruct (H4 eq_refl) as (_ & H5).
  assert (Hu : forall P, P ∈ Ev.participantes evento_sin_pagador -> es_uid (uid P) = true).
  { intros P HP. simpl in HP.
    repeat (apply elem_of_cons in HP as [->|HP]; [reflexivity|]).
    by apply elem_of_nil in HP. }
  assert (Hnd : NoDup (uid <$> Ev.participantes evento_sin_pagador)).
  { apply (bool_decide_unpack (NoDup (uid <$> Ev.participantes evento_sin_pagador))).
    vm_compute. exact I. }
  split; [exact H2|]. split; [exact H1|]. split; [exact (Hok eq_refl)|].
  split; [|split].
  - destruct (H5 eq_refl Hu Hnd (mkParticipante "u1" "Ana" (1 / Qc_of_Z 2)%Qc)) as [_ H].
    { left. }
    fold r in H. etrans; [exact H|]. apply Qc_is_canon. vm_compute. reflexivity.
  - destruct (H5 eq_refl Hu Hnd (mkParticipante "u2" "Beto" (1 / Qc_of_Z 2)%Qc)) as [_ H].
    { right. left. }
    fold r in H. etrans; [exact H|]. apply Qc_is_canon. vm_compute. reflexivity.
  - vm_compute. reflexivity.
Defined.

(** ** Notifications of a close *)

(** One push under any schedule: it never fails, and it sends the message
    to the active device of the user or nothing. *)
Lemma enviarNotificacionPush_wp usuario n w :
  wp (enviarNotificacionPush usuario n)
    (fun _ w' =>
       fcm_tokens w' = fcm_tokens w
       /\ (enviados w' = enviados w
           \/ exists d, dispositivo_de usuario (fcm_tokens w) = Some d
                        /\ enviados w' = (enviados w ++ [mkMensaje (fcm_token d) n])%list))
    (fun _ _ => False)
    w.
Proof.
  unfold enviarNotificacionPush, dispositivo_de.
  repeat wp_paso; simpl in *; try (split; [done|]); try by left.
  right. by eexists.
Qed.

Lemma bucle_notificaciones_spec evento ps w :
  bucle_notificaciones evento (quienPago evento) ps w
  = en_orden
      (map (fun P =>
              enviarNotificacionPush (uid P)
                (mkNotificacion "Evento Cerrado"
                   (CuerpoCierre (Ev.titulo evento) (Ev.monto evento * participacion P)%Qc
                      (moneda_str (Ev.moneda evento)))
                   "EVENTO_CERRADO" (Ev.id evento)))
           (List.filter (fun P => negb (String.eqb (uid P) (quienPago evento))) ps)) w.
Proof.
  revert w. induction ps as [|p ps IH]; intros w; [reflexivity|].
  simpl. destruct (String.eqb (uid p) (quienPago evento)); simpl; [apply IH|].
  unfold bind. destruct (enviarNotificacionPush _ _ w) as [[[]|e] w1]; [apply IH|reflexivity].
Qed.

Lemma en_orden_notificaciones evento ps w :
  let r := en_orden
             (map (fun P =>
                     enviarNotificacionPush (uid P)
                       (mkNotificacion "Evento Cerrado"
                          (CuerpoCierre (Ev.titulo evento)
                             (Ev.monto evento * participacion P)%Qc
                             (moneda_str (Ev.moneda evento)))
                          "EVENTO_CERRADO" (Ev.id evento))) ps) w in
  r.1 = Ok tt
  /\ fcm_tokens r.2 = fcm_tokens w
  /\ exists nuevos,
       enviados r.2 = (enviados w ++ nuevos)%list
       /\ nuevos `sublist_of` mensajes_cierre evento (fcm_tokens w) ps.
Proof.
  revert w. induction ps as [|p ps IH]; intros w; simpl.
  - split; [done|]. split; [done|]. exists []. by rewrite app_nil_r.
  - unfold bind.
    pose proof (enviarNotificacionPush_wp (uid p)
                  (mkNotificacion "Evento Cerrado"
                     (CuerpoCierre (Ev.titulo evento) (Ev.monto evento * participacion p)%Qc
                        (moneda_str (Ev.moneda evento)))
                     "EVENTO_CERRADO" (Ev.id evento)) w) as Hp.
    unfold wp in Hp.
    destruct (enviarNotificacionPush _ _ w) as [[[]|e] w1]; [|done].
    destruct Hp as [Hd Hp].
    destruct (IH w1) as (H1 & H2 & nuevos & H3 & H4).
    split; [exact H1|]. split; [congruence|].
    rewrite Hd in H4.
    destruct Hp as [Hp|(d & Hdis & Hp)].
    + exists nuevos. split; [by rewrite H3, Hp|].
      destruct (dispositivo_de _ _); [by apply sublist_cons|done].
    + exists (mensaje_cierre evento p d :: nuevos).
      split; [by rewrite H3, Hp, <- app_assoc|]. rewrite Hdis.
      by apply sublist_skip.
Qed.

Lemma en_orden_notificaciones_sin_fallos evento ps w :
  sin_fallos w ->
  en_orden
    (map (fun P =>
            enviarNotificacionPush (uid P)
              (mkNotificacion "Evento Cerrado"
                 (CuerpoCierre (Ev.titulo evento) (Ev.monto evento * participacion P)%Qc
                    (moneda_str (Ev.moneda evento)))
                 "EVENTO_CERRADO" (Ev.id evento))) ps) w
  = (Ok tt,
     con_enviados (fun l => (l ++ mensajes_cierre evento (fcm_tokens w) ps)%list) w).
Proof.
  revert w. induction ps as [|p ps IH]; intros w Hf; simpl.
  - unfold ret. f_equal. destruct w; simpl. unfold con_enviados. simpl.
    by rewrite app_nil_r.
  - unfold bind. rewrite enviarNotificacionPush_sin_fallos by done.
    fold (dispositivo_de (uid p) (fcm_tokens w)).
    destruct (dispositivo_de (uid p) (fcm_tokens w)) as [d|].
    + rewrite IH by exact Hf. f_equal. unfold con_enviados. simpl.
      by rewrite <- app_assoc.
    + by rewrite IH.
Qed.

(** X13. [enviarNotificacionesCierre] never fails, whatever the schedule of
    rejections, and it only appends messages: the ones it sends are a
    sub-list of the expected ones, and when the store and the messaging
    service answer they are exactly the expected ones, in order. Expected
    is one message for every participant other than the payer who has an
    active registered device, sent to the first such device, of type
    EVENTO_CERRADO, carrying the title, the currency and the debt (amount
    times fraction) of that participant. The payer is never notified. *)
Theorem enviarNotificacionesCierre_destinatarios (evento : Evento) (w : Mundo) :
  let r := enviarNotificacionesCierre evento w in
  let previstos := mensajes_cierre evento (fcm_tokens w) (deudores evento) in
  r.1 = Ok tt
  /\ (exists nuevos,
        enviados r.2 = (enviados w ++ nuevos)%list /\ nuevos `sublist_of` previstos)
  /\ (sin_fallos w -> enviados r.2 = (enviados w ++ previstos)%list)
  /\ (forall m, m ∈ previstos ->
        exists P d,
          P ∈ Ev.participantes evento /\ uid P <> quienPago evento
          /\ dispositivo_de (uid P) (fcm_tokens w) = Some d
          /\ m = mensaje_cierre evento P d).
Proof.
  intros r previstos.
  assert (Hr : r = match en_orden
                           (map (fun P =>
                                   enviarNotificacionPush (uid P)
                                     (mkNotificacion "Evento Cerrado"
                                        (CuerpoCierre (Ev.titulo evento)
                                           (Ev.monto evento * participacion P)%Qc
                                           (moneda_str (Ev.moneda evento)))
                                        "EVENTO_CERRADO" (Ev.id evento)))
                              (deudores evento)) w with
                   | (Ok a, w') => (Ok a, w')
                   | (Err _, w') => (Ok tt, w')
                   end).
  { unfold r, enviarNotificacionesCierre, intentar. cbv zeta.
    fold (quienPago evento). rewrite bucle_notificaciones_spec. reflexivity. }
  pose proof (en_orden_notificaciones_sin_fallos evento (deudores evento) w) as H5.
  destruct (en_orden_notificaciones evento (deudores evento) w)
    as (H1 & _ & nuevos & H3 & H4).
  destruct (en_orden _ w) as [[[]|e] w1]; [|done]. simpl in *. rewrite Hr. simpl.
  split; [done|]. split; [by exists nuevos|]. split.
  - intros Hf. specialize (H5 Hf). by injection H5 as ->.
  - intros m Hm. unfold previstos in Hm. clear -Hm.
    assert (Hd : forall P, P ∈ deudores evento ->
                           P ∈ Ev.participantes evento /\ uid P <> quienPago evento)
      by (intros P; apply deudores_spec).
    induction (deudores evento) as [|p ps IH]; simpl in Hm; [by apply elem_of_nil in Hm|].
    destruct (dispositivo_de (uid p) (fcm_tokens w)) as [d|] eqn:Hdd.
    + apply elem_of_cons in Hm as [->|Hm].
      * exists p, d. destruct (Hd p) as [? ?]; [left|]. done.
      * apply IH; [done|]. intros P HP. apply Hd. by right.
    + apply IH; [done|]. intros P HP. apply Hd. by right.
Qed.

Lemma enviarNotificacionesCierre_destinatarios_witness :
  let r := enviarNotificacionesCierre evento_A mundo_dispositivos in
  r.1 = Ok tt /\ m_token <$> enviados r.2 = ["dispositivo2"].
Proof.
  intros r.
  destruct (enviarNotificacionesCierre_destinatarios evento_A mundo_dispositivos)
    as (H1 & _ & H3 & _).
  split; [exact H1|]. fold r in H3. rewrite (H3 eq_refl). reflexivity.
Defined.

(** ** Object names *)

Lemma length_split sep s : length (split sep s) = S (ocurrencias sep s).
Proof.
  induction s as [|c s IH]; simpl; [done|].
  destruct (Ascii.eqb c sep); simpl; [by rewrite IH|].
  destruct (split sep s) as [|x xs]; simpl in *; [done|]. done.
Qed.

Lemma split_segmento a b :
  sin_barra a = true -> split "/" (a ++ String "/" b) = a :: split "/" b.
Proof.
  induction a as [|c a IH]; cbn [sin_barra].
  - intros _. change ("" ++ String "/" b) with (String "/" b). cbn [split].
    by rewrite Ascii.eqb_refl.
  - intros Ha. apply andb_prop in Ha as [Hc Ha]. apply negb_true_iff in Hc.
    change (String c a ++ String "/" b) with (String c (a ++ String "/" b)).
    cbn [split]. rewrite Hc, (IH Ha). done.
Qed.

Lemma prefix_app p s : String.prefix p (p ++ s) = true.
Proof.
  induction p as [|c p IH]; simpl; [by destruct s|].
  change (String c p ++ s) with (String c (p ++ s)). simpl.
  by destruct (ascii_dec c c).
Qed.

Lemma prefix_spec p s : String.prefix p s = true -> exists r, s = p ++ r.
Proof.
  revert s. induction p as [|c p IH]; intros s; [by exists s|].
  destruct s as [|d s]; simpl; [done|].
  destruct (ascii_dec c d) as [<-|]; [|done].
  intros H. destruct (IH s H) as [r ->]. by exists r.
Qed.

Lemma app_barra_inj a a' r r' :
  sin_barra a = true -> sin_barra a' = true ->
  a ++ String "/" r = a' ++ String "/" r' -> a = a'.
Proof.
  revert a'. induction a as [|c a IH]; intros [|c' a']; cbn [sin_barra]; try done.
  - intros _ H. change ("" ++ String "/" r) with (String "/" r).
    change (String c' a' ++ String "/" r') with (String c' (a' ++ String "/" r')).
    intros [= <- _]. by rewrite Ascii.eqb_refl in H.
  - intros H _. change ("" ++ String "/" r') with (String "/" r').
    change (String c a ++ String "/" r) with (String c (a ++ String "/" r)).
    intros [= -> _]. by rewrite Ascii.eqb_refl in H.
  - intros H H'.
    change (String c a ++ String "/" r) with (String c (a ++ String "/" r)).
    change (String c' a' ++ String "/" r') with (String c' (a' ++ String "/" r')).
    intros [= <- E].
    apply andb_prop in H as [_ H]. apply andb_prop in H' as [_ H'].
    f_equal. by apply IH.
Qed.

Lemma append_asociativa a b c : (a ++ b) ++ c = a ++ (b ++ c).
Proof.
  induction a as [|x a IH]; [done|].
  change (String x a ++ b) with (String x (a ++ b)).
  change (String x (a ++ b) ++ c) with (String x ((a ++ b) ++ c)).
  by rewrite IH.
Qed.

Lemma ruta_de_evento eventoId nombre :
  sin_barra eventoId = true ->
  let filePath := "events/" ++ eventoId ++ "/" ++ nombre in
  String.prefix "events/" filePath = true
  /\ (3 <= length (split "/" filePath))%nat
  /\ nth 1 (split "/" filePath) "" = eventoId
  /\ String.prefix ("events/" ++ eventoId ++ "/") filePath = true.
Proof.
  intros Hs filePath.
  assert (Hsp : split "/" filePath = "events" :: eventoId :: split "/" nombre).
  { unfold filePath.
    change ("events/" ++ eventoId ++ "/" ++ nombre)
      with ("events" ++ String "/" (eventoId ++ String "/" nombre)).
    rewrite split_segmento by done. by rewrite split_segmento. }
  split; [apply prefix_app|]. rewrite Hsp. split.
  - cbn [length]. rewrite length_split. lia.
  - split; [done|]. unfold filePath.
    rewrite <- (append_asociativa eventoId "/" nombre).
    rewrite <- (append_asociativa "events/" (eventoId ++ "/") nombre).
    apply prefix_app.
Qed.

(** ** The validator of attachments, further *)

(** X14. The validator ignores objects that are no attachment of an event:
    an object without a name, with a name that does not start with
    "events/", or with a name holding fewer than two "/" (so fewer than
    three segments). It returns without calling the platform: the world,
    the schedule of rejections included, is exactly as before, whatever
    the type and the size of the object. *)
Theorem validarAdjuntos_ignora (object : Obj.t) (w : Mundo) :
  (Obj.name object = None
   \/ exists filePath,
        Obj.name object = Some filePath
        /\ (String.prefix "events/" filePath = false
            \/ (ocurrencias "/" filePath < 2)%nat)) ->
  onStorageFinalize_validarAdjuntos object w = (Ok tt, w).
Proof.
  unfold onStorageFinalize_validarAdjuntos, intentar.
  intros [->|(filePath & -> & [Hp|Ho])]; [done| |].
  - by rewrite Hp.
  - destruct (String.prefix "events/" filePath); [|done]. cbn [negb].
    rewrite length_split.
    assert (H : (S (ocurrencias "/" filePath) <? 3)%nat = true) by (apply Nat.ltb_lt; lia).
    by rewrite H.
Qed.

Lemma validarAdjuntos_ignora_witness :
  onStorageFinalize_validarAdjuntos
    (Obj.mk (Some "events/leeme.txt") (Some 5000000) (Some "text/plain")) mundo_adjuntos_caido
  = (Ok tt, mundo_adjuntos_caido).
Proof.
  apply validarAdjuntos_ignora. right. exists "events/leeme.txt".
  split; [reflexivity|]. right. vm_compute. lia.
Defined.

(** What a run of the validator can do to the bucket and to the audit log,
    under any schedule. *)
Lemma validarAdjuntos_wp object filePath w :
  Obj.name object = Some filePath ->
  wp (onStorageFinalize_validarAdjuntos object)
    (fun _ w' =>
       (archivos w' = archivos w \/ archivos w' = archivos w ∖ {[ filePath ]})
       /\ (auditorias w' = auditorias w
           \/ (tipo_permitido object = true /\ (tamano_de object <= maxSize)%Z
               /\ auditorias w'
                  = (auditorias w
                     ++ [auditoria_rechazo (nth 1 (split "/" filePath) "") filePath
                           object w])%list)))
    (fun _ _ => False)
    w.
Proof.
  intros Hn. unfold onStorageFinalize_validarAdjuntos, tipo_permitido, tamano_de,
    auditoria_rechazo. rewrite Hn.
  destruct (existsb _ allowedTypes) eqn:Ht; cbn [negb];
    destruct (maxSize <? match Obj.size object with Some n => n | None => 0 end)%Z eqn:Hs;
    repeat wp_paso; simpl in *; try (split; by auto).
  all: apply Z.ltb_ge in Hs.
  all: split; [by auto|]; right; done.
Qed.

(** X15. Under any schedule of rejections the validator removes at most the
    uploaded object from the bucket, and appends at most one entry to the
    audit log: the SUBIR_ADJUNTO_RECHAZADO entry of the upload, and only
    for an upload of allowed type and size. The two are not tied together:
    when the count is at the limit, the listing is answered and the
    deletion is rejected, the upload stays in the bucket and the audit log
    nevertheless records it as rejected. *)
Theorem validarAdjuntos_a_lo_sumo (object : Obj.t) (filePath : string) (w : Mundo) :
  Obj.name object = Some filePath ->
  let r := onStorageFinalize_validarAdjuntos object w in
  let eventoId := nth 1 (split "/" filePath) "" in
  (archivos r.2 = archivos w \/ archivos r.2 = archivos w ∖ {[ filePath ]})
  /\ (auditorias r.2 = auditorias w
      \/ (tipo_permitido object = true /\ (tamano_de object <= maxSize)%Z
          /\ auditorias r.2
             = (auditorias w ++ [auditoria_rechazo eventoId filePath object w])%list))
  /\ (String.prefix "events/" filePath = true ->
      (3 <= length (split "/" filePath))%nat ->
      tipo_permitido object = true -> (tamano_de object <= maxSize)%Z ->
      (2 <= length (archivos_de eventoId (archivos w)))%nat ->
      fallos w = [false; true] ->
      archivos r.2 = archivos w
      /\ auditorias r.2
         = (auditorias w ++ [auditoria_rechazo eventoId filePath object w])%list).
Proof.
  intros Hn r eventoId.
  pose proof (validarAdjuntos_wp object filePath w Hn) as Hw. unfold wp in Hw.
  fold r in Hw. destruct r as [[[]|e] w'] eqn:Hr; [|done]. simpl.
  destruct Hw as [H1 H2]. split; [exact H1|]. split; [exact H2|].
  intros Hp Hl Ht Hs Hc Hf.
  assert (Hr' : onStorageFinalize_validarAdjuntos object w = (Ok tt, w')) by exact Hr.
  rewrite (validarAdjuntos_valido object filePath w Hn Hp Hl Ht Hs) in Hr'.
  fold eventoId in Hr'. revert Hr'.
  cbv beta iota delta [intentar bind contarArchivosEvento eliminarArchivo
                         registrarAuditoria now leer modificar lanzar ret llamada].
  rewrite Hf. cbn [fallos con_fallos archivos].
  fold (archivos_de eventoId (archivos w)).
  apply Nat.leb_le in Hc. rewrite Hc. cbn [fallos con_fallos].
  intros [= <-]. done.
Qed.

Lemma validarAdjuntos_a_lo_sumo_witness :
  let w := con_fallos [false; true] mundo_adjuntos in
  let r := onStorageFinalize_validarAdjuntos objeto_png w in
  archivos r.2 = archivos w
  /\ auditorias r.2 = [auditoria_rechazo "e7" "events/e7/c.png" objeto_png w].
Proof.
  intros w r.
  destruct (validarAdjuntos_a_lo_sumo objeto_png "events/e7/c.png" w eq_refl)
    as (_ & _ & H).
  apply H; try reflexivity.
  - vm_compute. discriminate.
  - vm_compute. lia.
Defined.

Lemma length_archivos_de_con eventoId filePath (X : gset string) :
  filePath ∈ X ->
  String.prefix ("events/" ++ eventoId ++ "/") filePath = true ->
  length (archivos_de eventoId X)
  = S (length (archivos_de eventoId (X ∖ {[ filePath ]}))).
Proof.
  intros Hin Hp. unfold archivos_de.
  assert (HX : X = {[ filePath ]} ∪ X ∖ {[ filePath ]}).
  { apply union_difference_L. by apply singleton_subseteq_l. }
  assert (Hperm : elements X ≡ₚ filePath :: elements (X ∖ {[ filePath ]})).
  { rewrite HX at 1. apply elements_union_singleton.
    rewrite elem_of_difference, elem_of_singleton. tauto. }
  assert (H1 := length_filter_submseteq
                  (String.prefix ("events/" ++ eventoId ++ "/")) _ _
                  (Permutation_submseteq _ _ Hperm)).
  symmetry in Hperm.
  assert (H2 := length_filter_submseteq
                  (String.prefix ("events/" ++ eventoId ++ "/")) _ _
                  (Permutation_submseteq _ _ Hperm)).
  cbn [List.filter] in H1, H2. rewrite Hp in H1, H2. cbn [length] in H1, H2. lia.
Qed.

(** X16. The upload itself is among the files the validator counts. For an
    upload of allowed type and size that is in the bucket under
    [events/<id>/<name>], with a store that answers: if the event has no
    other object under its prefix, the upload is kept and nothing is
    written; if it has at least one other object, the upload is deleted
    and the rejection is logged. So the second attachment of an event is
    already turned down. *)
Theorem validarAdjuntos_cuenta_la_subida (object : Obj.t) (eventoId nombre : string)
    (w : Mundo) :
  let filePath := "events/" ++ eventoId ++ "/" ++ nombre in
  let otros := archivos_de eventoId (archivos w ∖ {[ filePath ]}) in
  sin_fallos w ->
  Obj.name object = Some filePath -> sin_barra eventoId = true ->
  tipo_permitido object = true -> (tamano_de object <= maxSize)%Z ->
  filePath ∈ archivos w ->
  (otros = [] -> onStorageFinalize_validarAdjuntos object w = (Ok tt, w))
  /\ (otros <> [] ->
      exists w',
        onStorageFinalize_validarAdjuntos object w = (Ok tt, w')
        /\ archivos w' = archivos w ∖ {[ filePath ]}
        /\ auditorias w'
           = (auditorias w ++ [auditoria_rechazo eventoId filePath object w])%list).
Proof.
  intros filePath otros Hf Hn Hs Ht Hsz Hin.
  destruct (ruta_de_evento eventoId nombre Hs) as (Hp & Hl & Hid & Hpre).
  fold filePath in Hp, Hl, Hid, Hpre.
  pose proof (length_archivos_de_con eventoId filePath (archivos w) Hin Hpre) as Hlen.
  fold otros in Hlen.
  rewrite (validarAdjuntos_valido object filePath w Hn Hp Hl Ht Hsz). rewrite Hid.
  split.
  - intros E. rewrite E in Hlen. unfold intentar, bind at 1.
    rewrite (contarArchivosEvento_sin_fallos eventoId w Hf). rewrite Hlen. reflexivity.
  - intros Hne. destruct otros as [|o otros']; [done|].
    destruct (eliminarArchivo_sin_fallos filePath w Hf) as (w1 & He & Ha & Hau & Hr & Hf1).
    unfold intentar, bind at 1.
    rewrite (contarArchivosEvento_sin_fallos eventoId w Hf). rewrite Hlen.
    cbn [length Nat.leb].
    unfold bind at 1. rewrite He.
    unfold bind at 1. unfold now at 1, leer at 1.
    rewrite (registrarAuditoria_sin_fallos _ w1 Hf1).
    eexists. split; [reflexivity|]. simpl. rewrite Ha, Hau, Hr. done.
Qed.

Lemma validarAdjuntos_cuenta_la_subida_witness :
  let w := con_archivos (fun _ => {[ "events/e7/a.png"; "events/e7/c.png" ]}) mundo_inicial in
  exists w',
    onStorageFinalize_validarAdjuntos objeto_png w = (Ok tt, w')
    /\ archivos w' = archivos w ∖ {[ "events/e7/c.png" ]}
    /\ auditorias w' = [auditoria_rechazo "e7" "events/e7/c.png" objeto_png w].
Proof.
  intros w.
  assert (Htam : (tamano_de objeto_png <= maxSize)%Z) by (vm_compute; discriminate).
  assert (Hin : "events/" ++ "e7" ++ "/" ++ "c.png" ∈ archivos w)
    by (eapply (bool_decide_eq_true_1 _); vm_compute; reflexivity).
  destruct (validarAdjuntos_cuenta_la_subida objeto_png "e7" "c.png" w
              eq_refl eq_refl eq_refl eq_refl Htam Hin) as [_ H].
  apply H. vm_compute. discriminate.
Defined.

Lemma archivos_de_ajeno eventoId ajeno (X : gset string) :
  String.prefix ("events/" ++ eventoId ++ "/") ajeno = false ->
  length (archivos_de eventoId ({[ ajeno ]} ∪ X)) = length (archivos_de eventoId X).
Proof.
  intros Hno. destruct (decide (ajeno ∈ X)) as [Hin|Hin].
  - assert ({[ ajeno ]} ∪ X = X) as ->; [|done].
    apply subseteq_union_1_L. by apply singleton_subseteq_l.
  - unfold archivos_de.
    pose proof (elements_union_singleton X ajeno Hin) as Hperm.
    assert (H1 := length_filter_submseteq
                    (String.prefix ("events/" ++ eventoId ++ "/")) _ _
                    (Permutation_submseteq _ _ Hperm)).
    symmetry in Hperm.
    assert (H2 := length_filter_submseteq
                    (String.prefix ("events/" ++ eventoId ++ "/")) _ _
                    (Permutation_submseteq _ _ Hperm)).
    cbn [List.filter] in H1, H2. rewrite Hno in H1, H2. lia.
Qed.

(** X17. The files of one event do not count for another. For two different
    event ids without "/", adding an object [events/<other>/<name>] to the
    bucket does not change what [contarArchivosEvento] returns for the
    first event, under any schedule; this holds also when one id is a
    prefix of the other, as for e1 and e10. *)
Theorem contarArchivosEvento_por_evento (eventoId otroId nombre : string) (w : Mundo) :
  sin_barra eventoId = true -> sin_barra otroId = true -> otroId <> eventoId ->
  let ajeno := "events/" ++ otroId ++ "/" ++ nombre in
  (contarArchivosEvento eventoId (con_archivos (fun s => {[ ajeno ]} ∪ s) w)).1
  = (contarArchivosEvento eventoId w).1.
Proof.
  intros Hs Ho Hne ajeno.
  assert (Hno : String.prefix ("events/" ++ eventoId ++ "/") ajeno = false).
  { destruct (String.prefix _ ajeno) eqn:Hp; [|done]. exfalso.
    apply prefix_spec in Hp as [r Hr]. unfold ajeno in Hr.
    rewrite append_asociativa in Hr.
    apply (inj (String.append "events/")) in Hr.
    rewrite append_asociativa in Hr.
    apply app_barra_inj in Hr; done. }
  pose proof (archivos_de_ajeno eventoId ajeno (archivos w) Hno) as Hl.
  unfold archivos_de in Hl.
  cbv beta iota delta [contarArchivosEvento intentar bind leer ret llamada].
  destruct (fallos w) as [|[] l] eqn:Hf; cbn [fallos con_archivos con_fallos fst snd archivos];
    rewrite ?Hf; cbn [fst]; try done.
  all: f_equal; exact Hl.
Qed.

Lemma contarArchivosEvento_por_evento_witness :
  (contarArchivosEvento "e1"
     (con_archivos (fun s => {[ "events/e10/a.png" ]} ∪ s) mundo_inicial)).1
  = (contarArchivosEvento "e1" mundo_inicial).1.
Proof.
  apply (contarArchivosEvento_por_evento "e1" "e10" "a.png" mundo_inicial); try reflexivity.
  discriminate.
Defined.

(** ** Joining twice *)

Lemma ltb_leb a b : String.ltb a b = true <-> String.leb a b = true /\ a <> b.
Proof.
  unfold String.ltb, String.leb. destruct (String.compare a b) eqn:E.
  - apply String.compare_eq_iff in E. split; [done|]. by intros [_ ?].
  - split; [|done]. intros _. split; [done|]. intros ->.
    pose proof (String.compare_antisym b b) as H. rewrite E in H. done.
  - split; [done|]. by intros [? _].
Qed.

Lemma ltb_trans a b c :
  String.ltb a b = true -> String.ltb b c = true -> String.ltb a c = true.
Proof.
  rewrite !ltb_leb. intros [H1 N1] [H2 N2].
  assert (T1 : String.le a b) by by apply Is_true_true.
  assert (T2 : String.le b c) by by apply Is_true_true.
  split.
  - apply Is_true_true. change (String.le a c). by etrans.
  - intros ->. apply N1. by apply (anti_symm String.le).
Qed.

Lemma ltb_total a b : String.ltb a b = false -> String.ltb b a = false -> a = b.
Proof.
  unfold String.ltb. rewrite (String.compare_antisym a b).
  destruct (String.compare b a) eqn:E; simpl; try done.
  intros _ _. symmetry. by apply String.compare_eq_iff.
Qed.

Lemma primero_por_id_minimo_lista {A} (P : A -> bool) (l : list (string * A)) k v :
  foldr (fun kv acc =>
           if P kv.2
           then match acc with
                | Some kv' => if String.ltb kv.1 kv'.1 then Some kv else acc
                | None => Some kv
                end
           else acc) None l = Some (k, v) ->
  forall k' v', (k', v') ∈ l -> P v' = true -> String.ltb k' k = false.
Proof.
  revert k v. induction l as [|[k0 v0] l IH]; intros k v; simpl; [discriminate|].
  intros H k' v' Hin HP.
  destruct (foldr _ None l) as [[k1 v1]|] eqn:Hr.
  - specialize (IH k1 v1 eq_refl).
    destruct (P v0) eqn:HP0.
    + simpl in H. destruct (String.ltb k0 k1) eqn:Hlt; injection H as <- <-.
      * apply elem_of_cons in Hin as [[= -> ->]|Hin]; [apply ltb_irrefl|].
        destruct (String.ltb k' k0) eqn:Hk; [|done].
        rewrite <- (IH k' v' Hin HP). symmetry. by eapply ltb_trans.
      * apply elem_of_cons in Hin as [[= -> ->]|Hin]; [done|]. by eapply IH.
    + injection H as <- <-.
      apply elem_of_cons in Hin as [[= -> ->]|Hin]; [congruence|]. by eapply IH.
  - destruct (P v0) eqn:HP0; [|discriminate]. injection H as <- <-.
    apply elem_of_cons in Hin as [[= -> ->]|Hin]; [apply ltb_irrefl|].
    exfalso. clear IH. induction l as [|[k2 v2] l IH]; [by apply elem_of_nil in Hin|].
    simpl in Hr. destruct (P v2) eqn:HP2.
    + destruct (foldr _ None l) as [[k3 v3]|]; [simpl in Hr; destruct (String.ltb k2 k3)|];
        discriminate.
    + apply elem_of_cons in Hin as [[= -> ->]|Hin]; [congruence|]. by apply IH.
Qed.

(** [primero_por_id] is the matching document with the least id. *)
Lemma primero_por_id_spec {A} (P : A -> bool) (m : gmap string A) k v :
  primero_por_id P m = Some (k, v)
  <-> m !! k = Some v /\ P v = true
      /\ forall k' v', m !! k' = Some v' -> P v' = true -> String.ltb k' k = false.
Proof.
  split.
  - intros H. destruct (primero_por_id_Some _ _ _ _ H) as [H1 H2].
    split; [done|]. split; [done|]. intros k' v' Hk' HP'.
    apply (primero_por_id_minimo_lista P (map_to_list m) k v H k' v'); [|done].
    by apply elem_of_map_to_list.
  - intros (H1 & H2 & H3).
    destruct (primero_por_id P m) as [[k0 v0]|] eqn:Hp.
    + destruct (primero_por_id_Some _ _ _ _ Hp) as [H4 H5].
      assert (String.ltb k k0 = false).
      { apply (primero_por_id_minimo_lista P (map_to_list m) k0 v0 Hp k v); [|done].
        by apply elem_of_map_to_list. }
      assert (k0 = k) as -> by (apply ltb_total; [by eapply H3|done]).
      congruence.
    + rewrite primero_por_id_None in Hp. rewrite (Hp k v H1) in H2. done.
Qed.

Lemma primero_por_id_insert {A} (P : A -> bool) (m : gmap string A) k v v' :
  primero_por_id P m = Some (k, v) -> P v' = true ->
  primero_por_id P (<[k := v']> m) = Some (k, v').
Proof.
  rewrite !primero_por_id_spec. intros (H1 & H2 & H3) HP.
  split; [apply lookup_insert_eq|]. split; [done|].
  intros k' v''. destruct (decide (k' = k)) as [->|Hne]; [intros; apply ltb_irrefl|].
  rewrite lookup_insert_ne by done. apply H3.
Qed.

Lemma es_participante_redeem_spec u a ps : es_participante u (redeem_spec u a ps) = true.
Proof.
  apply es_participante_spec. exists (mkParticipante u a (new_fraction ps)).
  split; [|done]. unfold redeem_spec. apply elem_of_app. right. left.
Qed.

(** X18. [joinByToken] a second time. After a join that succeeded, the same
    call repeated later (the clock and the rest of the world may have
    changed, the events and invitations have not), with a store that
    answers, fails with 'deadline-exceeded', 'resource-exhausted' or
    'already-exists' and leaves the world as it is: nobody is added a
    second time and the invitation is not used again. *)
Theorem joinByToken_dos_veces (data : DatosJoin) (context : Contexto) (w w1 w2 : Mundo)
    (resp : Respuesta) :
  sin_fallos w -> joinByToken data context w = (Ok resp, w1) ->
  sin_fallos w2 -> eventos w2 = eventos w1 -> invitaciones w2 = invitaciones w1 ->
  exists code msg,
    joinByToken data context w2 = (Err (HttpsError code msg), w2)
    /\ code ∈ [deadline_exceeded; resource_exhausted; already_exists].
Proof.
  intros Hf H1 Hf2 He Hi.
  rewrite (joinByToken_sin_fallos data context w Hf) in H1.
  rewrite (joinByToken_sin_fallos data context w2 Hf2).
  destruct (auth context) as [usuario|]; [|discriminate].
  destruct (negb (verdadero (d_token data))); [discriminate|].
  cbv zeta in *.
  destruct (invitacion_de w _) as [[iid inv]|] eqn:Hinv; [|discriminate].
  destruct (expirada inv (reloj w)); [discriminate|].
  destruct (agotada inv); [discriminate|].
  destruct (eventos w !! Inv.evento_id inv) as [ev|] eqn:Hev; [|discriminate].
  destruct (negb (bool_decide (Ev.estado ev = abierto))) eqn:Hab; [discriminate|].
  destruct (es_participante usuario (Ev.participantes ev)); [discriminate|].
  injection H1 as _ <-.
  rewrite tras_unirse_eventos in He. rewrite tras_unirse_invitaciones in Hi.
  assert (Hinv2 : invitacion_de w2 (o_bien (d_token data) "")
                  = Some (iid, incrementar_usos inv)).
  { unfold invitacion_de in *. rewrite Hi. eapply primero_por_id_insert; [exact Hinv|].
    by destruct (primero_por_id_Some _ _ _ _ Hinv) as [_ ?]. }
  rewrite Hinv2.
  destruct (expirada (incrementar_usos inv) (reloj w2)).
  { eexists _, _. split; [reflexivity|]. set_solver. }
  destruct (agotada (incrementar_usos inv)).
  { eexists _, _. split; [reflexivity|]. set_solver. }
  change (Inv.evento_id (incrementar_usos inv)) with (Inv.evento_id inv).
  rewrite He, lookup_insert_eq.
  change (Ev.estado (con_participantes _ ev)) with (Ev.estado ev). rewrite Hab.
  change (Ev.participantes (con_participantes ?ps ev)) with ps.
  rewrite es_participante_redeem_spec.
  eexists _, _. split; [reflexivity|]. set_solver.
Qed.

Lemma joinByToken_dos_veces_witness :
  let data := mkDatosJoin (Some "tok1") in
  let context := mkContexto (Some "u2") in
  exists code msg,
    joinByToken data context (joinByToken data context mundo_invitacion).2
    = (Err (HttpsError code msg), (joinByToken data context mundo_invitacion).2)
    /\ code ∈ [deadline_exceeded; resource_exhausted; already_exists].
Proof.
  intros data context.
  apply (joinByToken_dos_veces data context mundo_invitacion
           (joinByToken data context mundo_invitacion).2
           (joinByToken data context mundo_invitacion).2
           (Resp.mk true (Resp.mk_evento "ev1" "Supermercado" 2)));
    first [ apply injective_projections; [vm_compute; reflexivity|reflexivity]
          | vm_compute; reflexivity ].
Defined.

(** ** Closing from the client *)

(** X19. [closeEvento] of the client, and the trigger on the write it makes.
    Without a signed-in user the call fails with "Debe iniciar sesión", and
    without an event id with "ID de evento requerido", in both cases before
    any call to the store. For a signed-in user and a store that answers:
    if the event does not exist the write is rejected and nothing changes;
    otherwise the event is stored with [estado] 'cerrado', the time of the
    store as [fecha_pago], and as [quien_pago] the given payer or, when
    none is given, the caller. So a close made through the client always
    names a payer, and the trigger never falls back to the creator. If the
    event was already closed, the trigger does nothing, although the stored
    payer has been replaced. If it was open and the payer is not one of
    its participants, the trigger fails with the validation error and
    stores the event reopened, without payer and payment date. *)
Theorem closeEvento_y_cierre :
  (forall eventoId quienPagoUid w,
     closeEvento None eventoId quienPagoUid w = (Err (Error "Debe iniciar sesión"), w))
  /\ (forall usuario eventoId quienPagoUid w,
        verdadero eventoId = false ->
        closeEvento (Some usuario) eventoId quienPagoUid w
        = (Err (Error "ID de evento requerido"), w))
  /\ (forall usuario eventoId quienPagoUid w,
        usuario <> "" -> eventoId <> "" -> sin_fallos w ->
        let quien := o_bien quienPagoUid usuario in
        let r := closeEvento (Some usuario) (Some eventoId) quienPagoUid w in
        (eventos w !! eventoId = None -> r = (Err Rechazo, w))
        /\ forall before,
             eventos w !! eventoId = Some before ->
             let after := cerrar quien (reloj w) before in
             r = (Ok true, con_eventos (insert eventoId after) w)
             /\ quien <> "" /\ quienPago after = quien
             /\ (Ev.estado before = cerrado ->
                 onEventoUpdate_cierre eventoId before after r.2 = (Ok tt, r.2))
             /\ (Ev.estado before = abierto ->
                 es_participante quien (Ev.participantes before) = false ->
                 onEventoUpdate_cierre eventoId before after r.2
                 = (Err (error_no_participante quien),
                    con_eventos (insert eventoId (revertir after)) r.2))).
Proof.
  split; [done|]. split.
  { intros usuario eventoId quienPagoUid w Hv. unfold closeEvento. by rewrite Hv. }
  intros usuario eventoId quienPagoUid w Hu Hid Hf quien r.
  assert (Hq : quien <> "").
  { unfold quien, o_bien. destruct quienPagoUid as [q|]; [|done].
    by destruct (String.eqb_spec q ""). }
  assert (Hr : r = match eventos w !! eventoId with
                   | Some before =>
                       (Ok true,
                        con_eventos (insert eventoId (cerrar quien (reloj w) before)) w)
                   | None => (Err Rechazo, w)
                   end).
  { unfold r, closeEvento. apply String.eqb_neq in Hid. cbn [verdadero o_bien].
    rewrite Hid. cbn [negb].
    cbv beta iota delta [bind doc_update now leer modificar lanzar ret llamada].
    red in Hf. rewrite Hf. by destruct (eventos w !! eventoId). }
  split; [intros Hn; by rewrite Hr, Hn|].
  intros before Hb after. rewrite Hr, Hb. cbn [snd].
  split; [done|]. split; [done|]. split.
  { unfold quienPago, after. cbn [Ev.quien_pago cerrar o_bien].
    apply String.eqb_neq in Hq. by rewrite Hq. }
  split.
  - intros Hc. unfold onEventoUpdate_cierre, intentar, cuerpo_cierre. rewrite Hc.
    by rewrite bool_decide_eq_false_2.
  - intros Ha Hp. rewrite onEventoUpdate_cierre_casos.
    rewrite (cuerpo_cierre_intruso before after quien _ Ha eq_refl eq_refl Hq Hp).
    rewrite siguiente_falla_sin_fallos by exact Hf.
    rewrite avanzar_sin_fallos by exact Hf.
    cbn [eventos con_eventos]. by rewrite lookup_insert_eq.
Qed.

Lemma closeEvento_y_cierre_witness :
  let w := con_eventos (insert "e3" evento_intruso_abierto) mundo_inicial in
  let r := closeEvento (Some "u9") (Some "e3") None w in
  let after := cerrar "u9" (reloj w) evento_intruso_abierto in
  r = (Ok true, con_eventos (insert "e3" after) w)
  /\ onEventoUpdate_cierre "e3" evento_intruso_abierto after r.2
     = (Err (error_no_participante "u9"),
        con_eventos (insert "e3" (revertir after)) r.2).
Proof.
  intros w r after.
  destruct closeEvento_y_cierre as (_ & _ & H).
  destruct (H "u9" "e3" None w) as [_ H']; [discriminate|discriminate|reflexivity|].
  destruct (H' evento_intruso_abierto) as (H1 & _ & _ & _ & H2); [reflexivity|].
  split; [exact H1|]. apply H2; reflexivity.
Defined.

(** ** Audit and notification do not stand in the way of a join *)

Lemma llamada_acepta w l : fallos w = false :: l -> llamada w = (Ok tt, con_fallos l w).
Proof. unfold llamada. by intros ->. Qed.

(** The tail of [joinByToken], after the two writes: it cannot fail and it
    leaves the events and the invitations alone. *)
Lemma avisos_de_union auditoria evento nombre (resp : Respuesta) w :
  let r := (registrarAuditoria auditoria ;;
            enviarNotificacionNuevoParticipante evento nombre ;;
            ret resp) w in
  r.1 = Ok resp /\ eventos r.2 = eventos w /\ invitaciones r.2 = invitaciones w.
Proof.
  intros r.
  assert (H : respeta (ambos (sin_tocar eventos) (sin_tocar invitaciones)) nunca
                (registrarAuditoria auditoria ;;
                 enviarNotificacionNuevoParticipante evento nombre)).
  { apply respeta_bind; [apply _| |intros _].
    - unfold registrarAuditoria.
      apply respeta_intentar with (E' := cualquiera); [apply _| |intros e _; marco].
      marco_con fin_huella.
    - unfold enviarNotificacionNuevoParticipante.
      apply respeta_intentar with (E' := cualquiera); [apply _| |intros e _; marco].
      eapply respeta_debil; [|done].
      apply enviarNotificacionPush_respeta; try apply _. fin_huella. }
  assert (Heq : r = match (registrarAuditoria auditoria ;;
                            enviarNotificacionNuevoParticipante evento nombre) w with
                     | (Ok _, w') => (Ok resp, w')
                     | (Err e, w') => (Err e, w')
                     end).
  { unfold r, bind. destruct (registrarAuditoria auditoria w) as [[[]|e] w1]; [|done].
    by destruct (enviarNotificacionNuevoParticipante evento nombre w1) as [[[]|e] w2]. }
  destruct (H w) as [[H1 H2] H3]. rewrite Heq.
  destruct ((registrarAuditoria auditoria ;;
             enviarNotificacionNuevoParticipante evento nombre) w) as [[[]|e] w'].
  - done.
  - destruct (H3 e eq_refl).
Qed.

(** X23. [joinByToken] when the audit log or the messaging service fail.
    Once the checks have passed and the store has answered the five calls
    up to the two writes, the join succeeds whatever happens to the calls
    that follow: the response reports one participant more, the event holds
    the new participant with the equal fractions, and the use of the
    invitation is recorded, even if the audit entry or the message to the
    creator could not be written. *)
Theorem joinByToken_avisos_no_bloquean (data : DatosJoin) (context : Contexto)
    (usuario token invitacionId : string) (invitacion : Invitacion) (evento : Evento)
    (l : list bool) (w : Mundo) :
  auth context = Some usuario -> d_token data = Some token -> token <> "" ->
  fallos w = false :: false :: false :: false :: false :: l ->
  invitacion_de w token = Some (invitacionId, invitacion) ->
  expirada invitacion (reloj w) = false -> agotada invitacion = false ->
  eventos w !! Inv.evento_id invitacion = Some evento ->
  Ev.estado evento = abierto ->
  es_participante usuario (Ev.participantes evento) = false ->
  let r := joinByToken data context w in
  r.1 = Ok (Resp.mk true
              (Resp.mk_evento (Ev.id evento) (Ev.titulo evento)
                 (S (length (Ev.participantes evento)))))
  /\ eventos r.2
     = <[Inv.evento_id invitacion :=
           con_participantes
             (redeem_spec usuario (resolver_alias (usuarios w !! usuario))
                (Ev.participantes evento)) evento]> (eventos w)
  /\ invitaciones r.2
     = <[invitacionId := incrementar_usos invitacion]> (invitaciones w).
Proof.
  intros Ha Ht Hne Hf Hinv Hexp Hag Hev Hab Hp r.
  pose proof Hinv as Hi. unfold invitacion_de in Hi.
  apply primero_por_id_Some in Hi as [Hi _].
  unfold r. clear r. destruct (joinByToken data context w) as [res wf] eqn:Hj.
  revert Hj. unfold joinByToken, intentar. rewrite Ha, Ht.
  apply String.eqb_neq in Hne. cbn [verdadero o_bien]. rewrite Hne. cbn [negb]. cbv zeta.
  unfold bind at 1. unfold consultar_token at 1. unfold bind at 1.
  rewrite (llamada_acepta w _ Hf). unfold leer at 1.
  set (w1 := con_fallos _ w).
  change (primero_por_id _ (invitaciones w1)) with (invitacion_de w token). rewrite Hinv.
  unfold bind at 1. unfold now at 1, leer at 1.
  change (reloj w1) with (reloj w). fold (expirada invitacion (reloj w)). rewrite Hexp.
  fold (agotada invitacion). rewrite Hag.
  unfold bind at 1. unfold doc_get at 1. unfold bind at 1.
  rewrite (llamada_acepta w1 _ eq_refl). unfold leer at 1.
  set (w2 := con_fallos _ w1). change (eventos w2) with (eventos w). rewrite Hev.
  rewrite Hab, bool_decide_eq_true_2 by done. cbn [negb]. rewrite Hp.
  unfold bind at 1. unfold doc_get at 1. unfold bind at 1.
  rewrite (llamada_acepta w2 _ eq_refl). unfold leer at 1.
  set (w3 := con_fallos _ w2). change (usuarios w3) with (usuarios w).
  unfold bind at 1. unfold doc_update at 1. unfold bind at 1.
  rewrite (llamada_acepta w3 _ eq_refl). unfold bind at 1. unfold leer at 1.
  set (w4 := con_fallos _ w3). change (eventos w4) with (eventos w). rewrite Hev.
  unfold modificar at 1.
  set (w5 := con_eventos _ w4).
  unfold bind at 1. unfold doc_update at 1. unfold bind at 1.
  rewrite (llamada_acepta w5 _ eq_refl). unfold bind at 1. unfold leer at 1.
  set (w6 := con_fallos _ w5). change (invitaciones w6) with (invitaciones w). rewrite Hi.
  unfold modificar at 1.
  set (w7 := con_invitaciones _ w6).
  unfold bind at 1. unfold now at 1, leer at 1.
  match goal with
  | |- context [(registrarAuditoria ?a ;; enviarNotificacionNuevoParticipante ?e ?n ;;
                 ret ?resp) w7] =>
      destruct (avisos_de_union a e n resp w7) as (H1 & H2 & H3);
      destruct ((registrarAuditoria a ;; enviarNotificacionNuevoParticipante e n ;;
                 ret resp) w7) as [[resp'|e'] w8]; [|done]
  end.
  cbn [fst snd] in *. injection H1 as ->. intros [= <- <-]. cbn [fst snd].
  split; [by rewrite length_app, length_map, Nat.add_1_r|].
  rewrite H2, H3. split; reflexivity.
Qed.

Lemma joinByToken_avisos_no_bloquean_witness :
  let w := con_fallos [false; false; false; false; false; true] mundo_invitacion in
  let r := joinByToken (mkDatosJoin (Some "tok1")) (mkContexto (Some "u2")) w in
  r.1 = Ok (Resp.mk true (Resp.mk_evento "ev1" "Supermercado" 2))
  /\ auditorias r.2 = []
  /\ Inv.usos <$> invitaciones r.2 !! "tok1" = Some 1.
Proof.
  intros w r.
  destruct (joinByToken_avisos_no_bloquean (mkDatosJoin (Some "tok1"))
              (mkContexto (Some "u2")) "u2" "tok1" "tok1" invitacion_unica evento_abierto
              [true] w) as (H1 & _ & H3); try reflexivity.
  - discriminate.
  - split; [exact H1|]. split; [vm_compute; reflexivity|].
    fold r in H3. rewrite H3. by rewrite lookup_insert_eq.
Defined.
